(** * TradeLogger: fill-to-round-trip reconstruction and daily aggregation

    A shallow embedding of the computational core of
    [Packs/pai-trading-skill/src/skills/Trading/Tools/TradeLogger.ts]
    together with the properties its design document states about it.

    Conventions of the embedding.

    - A share quantity is an integer ([Z]).  A JavaScript [number] holding
      money, a price or a time in minutes is read in two ways.  The exact
      reading takes it as the rational ([Q]) it is written as, and computes
      exactly; it carries the statements about structure (which fills make
      which round trip, order, numbering, counts) and about amounts in
      whole cents, on which the result of the program is the same cent.
      The module [Double] is the program's own arithmetic on IEEE 754
      doubles; it carries the statements about the value of a computed
      price or profit.  The two part only where a value lies at a tie
      between two cents or two minutes; the examples near the end of the
      file show such values.
    - Where the code can produce [NaN] out of a string ([parseInt],
      [parseFloat], [timeToMinutes], [duration_mins]) the exact reading has
      an [option], with [None] standing for [NaN].
    - Strings are [string] (sequences of 8-bit characters); whitespace and
      letter case are the ASCII ones.
    - A JavaScript [Map] iterated in insertion order is an association list
      whose keys appear in insertion order.
    - [Array.prototype.sort] is a stable sort driven by a comparator; it is
      embedded as a stable insertion sort.  For a comparator that is a
      difference of well-defined keys every stable sort gives the same
      result; the statements that depend on the order assume times that
      parse. *)

From Stdlib Require Import List String Ascii Bool Arith ZArith QArith Qround Qabs.
From Stdlib Require Import Lia Lqa Permutation Sorted DecimalString DecimalNat.
From Stdlib Require Import SpecFloat.
Import ListNotations.

Local Open Scope string_scope.
Local Open Scope list_scope.

(* ------------------------------------------------------------------------- *)
(** ** JavaScript string built-ins used by the source *)

Module JsString.

(** [s.startsWith(p)] *)
Definition startsWith (s p : string) : bool := String.prefix p s.

(** [s.endsWith(p)] *)
Definition endsWith (s p : string) : bool :=
  let n := String.length s in
  let m := String.length p in
  if (m <=? n)%nat then String.eqb (substring (n - m) m s) p else false.

Definition lower_ascii (c : ascii) : ascii :=
  let n := nat_of_ascii c in
  if ((65 <=? n) && (n <=? 90))%nat then ascii_of_nat (n + 32) else c.

(** [s.toLowerCase()] on ASCII letters *)
Fixpoint toLowerCase (s : string) : string :=
  match s with
  | EmptyString => EmptyString
  | String c r => String (lower_ascii c) (toLowerCase r)
  end.

(** White space recognised by [trim], [parseInt] and [parseFloat]
    (tab, line feed, vertical tab, form feed, carriage return, space). *)
Definition is_space (c : ascii) : bool :=
  let n := nat_of_ascii c in
  ((9 <=? n) && (n <=? 13) || (n =? 32))%nat.

Fixpoint trimStart (s : string) : string :=
  match s with
  | String c r => if is_space c then trimStart r else s
  | EmptyString => EmptyString
  end.

(** Drops trailing white space: a character is kept when something that
    is kept follows it or when it is not white space. *)
Fixpoint trimEnd (s : string) : string :=
  match s with
  | EmptyString => EmptyString
  | String c r =>
      match trimEnd r with
      | EmptyString => if is_space c then EmptyString else String c EmptyString
      | r' => String c r'
      end
  end.

Definition trim (s : string) : string := trimEnd (trimStart s).

(** [s.split(sep)] for a one-character separator: never empty. *)
Fixpoint split (sep : ascii) (s : string) : list string :=
  match s with
  | EmptyString => [EmptyString]
  | String c r =>
      if Ascii.eqb c sep then EmptyString :: split sep r
      else match split sep r with
           | p :: ps => String c p :: ps
           | [] => [String c EmptyString]
           end
  end.

(** Truthiness of a possibly undefined string: [!s] is [negb (truthy s)]. *)
Definition truthy (s : option string) : bool :=
  match s with
  | Some (String _ _) => true
  | _ => false
  end.

(** [s || d] for a possibly undefined string [s]. *)
Definition or_else (s : option string) (d : string) : string :=
  match s with
  | Some (String c r) => String c r
  | _ => d
  end.

End JsString.

(* ------------------------------------------------------------------------- *)
(** ** JavaScript numeric built-ins used by the source *)

Module JsNumber.

Definition digit_value (c : ascii) : option Z :=
  let n := nat_of_ascii c in
  if ((48 <=? n) && (n <=? 57))%nat then Some (Z.of_nat (n - 48)) else None.

Definition hex_digit_value (c : ascii) : option Z :=
  let n := nat_of_ascii c in
  if ((48 <=? n) && (n <=? 57))%nat then Some (Z.of_nat (n - 48))
  else if ((97 <=? n) && (n <=? 102))%nat then Some (Z.of_nat (n - 87))
  else if ((65 <=? n) && (n <=? 70))%nat then Some (Z.of_nat (n - 55))
  else None.

(** Reads the longest prefix of digits of [s] in the given radix, with
    accumulator [acc]; returns the value, the number of digits read and
    what follows them. *)
Fixpoint read_digits (dv : ascii -> option Z) (radix : Z) (s : string)
         (acc : Z) (count : nat) : Z * nat * string :=
  match s with
  | EmptyString => (acc, count, s)
  | String c r =>
      match dv c with
      | Some d => read_digits dv radix r (acc * radix + d)%Z (S count)
      | None => (acc, count, s)
      end
  end.

(** Reads an optional sign; returns [true] for a minus sign. *)
Definition read_sign (s : string) : bool * string :=
  match s with
  | String c r =>
      if Ascii.eqb c "-" then (true, r)
      else if Ascii.eqb c "+" then (false, r)
      else (false, s)
  | EmptyString => (false, s)
  end.

Definition apply_sign (neg : bool) (z : Z) : Z := if neg then (- z)%Z else z.

(** [parseInt(s, 10)]; [None] is [NaN].  An undefined argument is
    converted to the string "undefined", which has no digits. *)
Definition parseInt10 (s : option string) : option Z :=
  match s with
  | None => None
  | Some s =>
      let '(neg, r) := read_sign (JsString.trimStart s) in
      let '(v, n, _) := read_digits digit_value 10 r 0%Z 0%nat in
      match n with
      | O => None
      | _ => Some (apply_sign neg v)
      end
  end.

(** [parseInt(s)] without a radix: like radix 10, except that a "0x" or
    "0X" prefix selects radix 16. *)
Definition parseInt (s : option string) : option Z :=
  match s with
  | None => None
  | Some s =>
      let '(neg, r) := read_sign (JsString.trimStart s) in
      let '(v, n, _) :=
        match r with
        | String c0 (String c1 r') =>
            if Ascii.eqb c0 "0" && (Ascii.eqb c1 "x" || Ascii.eqb c1 "X")
            then read_digits hex_digit_value 16 r' 0%Z 0%nat
            else read_digits digit_value 10 r 0%Z 0%nat
        | _ => read_digits digit_value 10 r 0%Z 0%nat
        end in
      match n with
      | O => None
      | _ => Some (apply_sign neg v)
      end
  end.

(** Ten to an integer power, as a rational. *)
Definition pow10 (e : Z) : Q := Qpower (10 # 1) e.

(** The exponent part of a decimal literal, if one follows: "e" or "E",
    an optional sign and at least one digit.  Otherwise the exponent is
    zero and nothing is consumed. *)
Definition read_exponent (s : string) : Z :=
  match s with
  | String c r =>
      if Ascii.eqb c "e" || Ascii.eqb c "E" then
        let '(neg, r') := read_sign r in
        let '(v, n, _) := read_digits digit_value 10 r' 0%Z 0%nat in
        match n with
        | O => 0%Z
        | _ => apply_sign neg v
        end
      else 0%Z
  | EmptyString => 0%Z
  end.

(** [parseFloat(s)] on decimal literals: optional sign, digits, optional
    point and digits, optional exponent; trailing characters are ignored.
    [None] is [NaN].  The value is the decimal as written; the program
    holds the double nearest to it, [Double.parseFloat].  The literal
    "Infinity" has no rational value; see [infinity_literal]. *)
Definition parseFloat (s : option string) : option Q :=
  match s with
  | None => None
  | Some s =>
      let '(neg, r) := read_sign (JsString.trimStart s) in
      let '(ip, ni, r1) := read_digits digit_value 10 r 0%Z 0%nat in
      let '(m, nf, r2) :=
        match r1 with
        | String c r' =>
            if Ascii.eqb c "." then read_digits digit_value 10 r' ip 0%nat
            else (ip, 0%nat, r1)
        | EmptyString => (ip, 0%nat, r1)
        end in
      match (ni + nf)%nat with
      | O => None
      | _ =>
          let e := read_exponent r2 in
          Some (inject_Z (apply_sign neg m) * pow10 (e - Z.of_nat nf))%Q
      end
  end.

(** Recognises the inputs on which [parseFloat] yields an infinity. *)
Definition infinity_literal (s : option string) : bool :=
  match s with
  | None => false
  | Some s =>
      let '(_, r) := read_sign (JsString.trimStart s) in
      String.prefix "Infinity" r
  end.

(** [Math.round]: the nearest integer, ties towards plus infinity. *)
Definition Math_round (x : Q) : Z := Qfloor (x + (1 # 2)).

(** [x || 0] for a number that may be [NaN]. *)
Definition or_zero (x : option Q) : Q :=
  match x with
  | Some q => q
  | None => 0%Q
  end.

End JsNumber.

(** [round2(n) = Math.round(n * 100) / 100], computed exactly:
    [Double.round2] is the same on doubles. *)
Definition round2 (n : Q) : Q :=
  (inject_Z (JsNumber.Math_round (n * 100)) / 100)%Q.

(* ------------------------------------------------------------------------- *)
(** ** Types *)

(** [interface Fill].  The [side] is the string the broker export carries:
    the code compares it with "B", "S" and "SS". *)
Module Fill.
Record t : Type := mk {
  time : string;
  symbol : string;
  side : string;
  price : Q;
  qty : Z;
  route : string;
  account : string;
  liqType : string;
  ecnFee : Q;
  pnl : Q }.
End Fill.

Inductive Direction : Type := long | short.

Inductive AccountType : Type := live | training | mixed.

Definition AccountType_eqb (a b : AccountType) : bool :=
  match a, b with
  | live, live | training, training | mixed, mixed => true
  | _, _ => false
  end.

(** [interface RoundTrip].  [duration_mins] is [None] when the times do not
    parse ([NaN]). *)
Module RoundTrip.
Record t : Type := mk {
  id : string;
  ticker : string;
  side : Direction;
  entry_avg : Q;
  exit_avg : Q;
  total_shares : Z;
  pnl : Q;
  fees : Q;
  net_pnl : Q;
  fills : nat;
  entry_time : string;
  exit_time : string;
  duration_mins : option Z;
  accounts : list string;
  account_type : AccountType;
  setup : option string;
  notes : option string;
  chart : option string }.

(** The assignment [rt.id = v]. *)
Definition with_id (v : string) (rt : t) : t :=
  mk v (ticker rt) (side rt) (entry_avg rt) (exit_avg rt) (total_shares rt)
     (pnl rt) (fees rt) (net_pnl rt) (fills rt) (entry_time rt) (exit_time rt)
     (duration_mins rt) (accounts rt) (account_type rt) (setup rt) (notes rt)
     (chart rt).

(** The same record with another chart reference. *)
Definition with_chart (v : option string) (rt : t) : t :=
  mk (id rt) (ticker rt) (side rt) (entry_avg rt) (exit_avg rt) (total_shares rt)
     (pnl rt) (fees rt) (net_pnl rt) (fills rt) (entry_time rt) (exit_time rt)
     (duration_mins rt) (accounts rt) (account_type rt) (setup rt) (notes rt)
     v.
End RoundTrip.

(** [interface AccountBreakdown] *)
Module AccountBreakdown.
Record t : Type := mk {
  trades : nat;
  pnl : Q;
  winners : nat;
  losers : nat;
  win_rate : Q }.
End AccountBreakdown.

(** The value of [computeAccountBreakdown]: an object with exactly the two
    buckets [live] and [training]. *)
Module ByAccount.
Record t : Type := mk {
  live : AccountBreakdown.t;
  training : AccountBreakdown.t }.
End ByAccount.

(** [DailyLog["summary"]] *)
Module Summary.
Record t : Type := mk {
  total_pnl : Q;
  total_fees : Q;
  total_net_pnl : Q;
  total_trades : nat;
  winners : nat;
  losers : nat;
  breakeven : nat;
  win_rate : Q;
  symbols : list string;
  by_account : ByAccount.t }.
End Summary.

(* ------------------------------------------------------------------------- *)
(** ** Collections *)

(** [[...new Set(xs)]]: the distinct elements in order of first occurrence. *)
Definition unique (xs : list string) : list string :=
  fold_left (fun seen x => if existsb (String.eqb x) seen then seen else seen ++ [x])
            xs [].

(** A [Map<string, V>] in insertion order. *)
Section StringMap.
Context {V : Type}.

Fixpoint map_has (k : string) (m : list (string * V)) : bool :=
  match m with
  | [] => false
  | (k', _) :: m' => if String.eqb k' k then true else map_has k m'
  end.

(** [m.set(k, v)] for a key that is not yet present: appended last. *)
Definition map_add (k : string) (v : V) (m : list (string * V)) : list (string * V) :=
  m ++ [(k, v)].

(** In-place update of the array stored at [k]
    ([m.get(k)!.push(...)]). *)
Fixpoint map_update (k : string) (f : V -> V) (m : list (string * V)) : list (string * V) :=
  match m with
  | [] => []
  | (k', v) :: m' =>
      if String.eqb k' k then (k', f v) :: m' else (k', v) :: map_update k f m'
  end.

End StringMap.

(** [Array.prototype.sort(compareFn)]: stable; [a] is placed before [b]
    when [compareFn a b] is negative, and a [NaN] comparison counts as a
    tie. *)
Section Sort.
Context {A : Type}.
Variable compareFn : A -> A -> option Q.

Definition negative (d : option Q) : bool :=
  match d with
  | Some q => negb (Qle_bool 0 q)
  | None => false
  end.

Fixpoint insert_sorted (x : A) (l : list A) : list A :=
  match l with
  | [] => [x]
  | y :: l' =>
      if negative (compareFn y x) then y :: insert_sorted x l' else x :: y :: l'
  end.

Definition js_sort (l : list A) : list A := fold_right insert_sorted [] l.

End Sort.

(* ------------------------------------------------------------------------- *)
(** ** Round-trip grouping *)

(** [timeToMinutes] *)
Definition timeToMinutes (time : string) : option Q :=
  let parts := JsString.split ":" time in
  match JsNumber.parseInt (nth_error parts 0),
        JsNumber.parseInt (nth_error parts 1),
        JsNumber.parseInt (Some (JsString.or_else (nth_error parts 2) "0")) with
  | Some h, Some m, Some s => Some (inject_Z h * 60 + inject_Z m + inject_Z s / 60)%Q
  | _, _, _ => None
  end.

(** The comparator [timeToMinutes(a) - timeToMinutes(b)]. *)
Definition compareTimes (a b : string) : option Q :=
  match timeToMinutes a, timeToMinutes b with
  | Some x, Some y => Some (x - y)%Q
  | _, _ => None
  end.

(** [findChartFile].  [sourceDir] is the listing of the source directory,
    or [None] when the directory does not exist or cannot be read. *)
Definition findChartFile (symbol date : string) (sourceDir : option (list string))
  : option string :=
  match sourceDir with
  | None => None
  | Some files =>
      match find (fun f =>
                    JsString.startsWith (JsString.toLowerCase f) (JsString.toLowerCase symbol)
                    && (JsString.endsWith f ".jpg" || JsString.endsWith f ".jpeg"
                        || JsString.endsWith f ".png")) files with
      | Some (String c r) => Some (String c r)
      | _ => None
      end
  end.

Definition isSell (f : Fill.t) : bool :=
  String.eqb (Fill.side f) "S" || String.eqb (Fill.side f) "SS".

Definition isBuy (f : Fill.t) : bool := String.eqb (Fill.side f) "B".

Definition entryFills (side : Direction) (fills : list Fill.t) : list Fill.t :=
  filter (fun f => match side with long => isBuy f | short => isSell f end) fills.

Definition exitFills (side : Direction) (fills : list Fill.t) : list Fill.t :=
  filter (fun f => match side with long => isSell f | short => isBuy f end) fills.

Definition notional (fills : list Fill.t) : Q :=
  fold_left (fun sum f => sum + Fill.price f * inject_Z (Fill.qty f))%Q fills 0%Q.

Definition shares (fills : list Fill.t) : Z :=
  fold_left (fun sum f => sum + Fill.qty f)%Z fills 0%Z.

(** The weighted average price, computed exactly: [Double.vwap] is the
    same on doubles. *)
Definition vwap (fills : list Fill.t) : Q :=
  if (0 <? shares fills)%Z then round2 (notional fills / inject_Z (shares fills)) else 0%Q.

Definition sumPnl (fills : list Fill.t) : Q :=
  fold_left (fun sum f => sum + Fill.pnl f)%Q fills 0%Q.

Definition sumFees (fills : list Fill.t) : Q :=
  fold_left (fun sum f => sum + Qabs (Fill.ecnFee f))%Q fills 0%Q.

Definition classify (trainingPrefix : string) (accounts : list string) : AccountType :=
  let hasTraining := existsb (fun a => JsString.startsWith a trainingPrefix) accounts in
  let hasLive := existsb (fun a => negb (JsString.startsWith a trainingPrefix)) accounts in
  if hasTraining && hasLive then mixed
  else if hasTraining then training else live.

(** The default value of the parameter [trainingPrefix]. *)
Definition defaultTrainingPrefix : string := "TR".

(** [buildRoundTrip].  The last parameter is optional in the source and
    defaults to "TR"; [None] is a call that leaves it out.  Prices, amounts
    and the duration are computed exactly; [Double.buildRoundTrip] computes
    them on doubles. *)
Definition buildRoundTrip (fills : list Fill.t) (date symbol : string)
           (sourceDir : option (list string)) (trainingPrefix : option string)
  : option RoundTrip.t :=
  let trainingPrefix :=
    match trainingPrefix with Some p => p | None => defaultTrainingPrefix end in
  match fills with
  | [] => None
  | firstFill :: _ =>
      let side := if isBuy firstFill then long else short in
      let entry := entryFills side fills in
      let exit := exitFills side fills in
      let entry_avg := vwap entry in
      let exit_avg := vwap exit in
      let total_shares := Z.max (shares entry) (shares exit) in
      let pnl := round2 (sumPnl fills) in
      let fees := round2 (sumFees fills) in
      let net_pnl := round2 pnl in
      let entry_time := Fill.time firstFill in
      let exit_time := Fill.time (last fills firstFill) in
      let duration_mins :=
        match timeToMinutes exit_time, timeToMinutes entry_time with
        | Some x, Some e => Some (JsNumber.Math_round (x - e))
        | _, _ => None
        end in
      let accounts := unique (map Fill.account fills) in
      let account_type := classify trainingPrefix accounts in
      let chart := findChartFile symbol date sourceDir in
      Some (RoundTrip.mk "" symbol side entry_avg exit_avg total_shares pnl fees
              net_pnl (List.length fills) entry_time exit_time
              (option_map (fun d => Z.max d 0) duration_mins)
              accounts account_type None None chart)
  end.

Definition maybe {A : Type} (o : option A) : list A :=
  match o with
  | Some a => [a]
  | None => []
  end.

(** The key [`${fill.symbol}|${fill.account}`]. *)
Definition groupKey (fill : Fill.t) : string :=
  Fill.symbol fill ++ "|" ++ Fill.account fill.

(** The first loop: fills grouped by key, each group in the order met. *)
Definition groupFills (sorted : list Fill.t) : list (string * list Fill.t) :=
  fold_left (fun groups fill =>
               let key := groupKey fill in
               let groups := if map_has key groups then groups else map_add key [] groups in
               map_update key (fun fs => fs ++ [fill]) groups)
            sorted [].

(** The change of position a fill causes. *)
Definition applyFill (position : Z) (fill : Fill.t) : Z :=
  if isBuy fill then (position + Fill.qty fill)%Z else (position - Fill.qty fill)%Z.

(** The inner loop over one group together with the handling of the
    incomplete round trip after it, from the state ([position],
    [currentFills]); the result lists the round trips pushed, in order. *)
Fixpoint closeRoundTrips (date symbol : string) (sourceDir : option (list string))
         (trainingPrefix : string) (position : Z) (currentFills groupFills : list Fill.t)
  : list RoundTrip.t :=
  match groupFills with
  | [] =>
      if (0 <? List.length currentFills)%nat
      then maybe (buildRoundTrip currentFills date symbol sourceDir None)
      else []
  | fill :: rest =>
      let currentFills := currentFills ++ [fill] in
      let position := applyFill position fill in
      if (position =? 0)%Z && (0 <? List.length currentFills)%nat
      then maybe (buildRoundTrip currentFills date symbol sourceDir (Some trainingPrefix))
           ++ closeRoundTrips date symbol sourceDir trainingPrefix position [] rest
      else closeRoundTrips date symbol sourceDir trainingPrefix position currentFills rest
  end.

(** [key.split("|")[0]] *)
Definition keySymbol (key : string) : string := hd "" (JsString.split "|" key).

(** The second loop: the round trips of every group, collected per symbol. *)
Definition collectBySymbol (date : string) (sourceDir : option (list string))
           (trainingPrefix : string) (groups : list (string * list Fill.t))
  : list (string * list RoundTrip.t) :=
  fold_left (fun symbolRoundTrips (g : string * list Fill.t) =>
               let symbol := keySymbol (fst g) in
               let symbolRoundTrips :=
                 if map_has symbol symbolRoundTrips then symbolRoundTrips
                 else map_add symbol [] symbolRoundTrips in
               map_update symbol
                 (fun rts => rts ++ closeRoundTrips date symbol sourceDir trainingPrefix
                                      0%Z [] (snd g))
                 symbolRoundTrips)
            groups [].

Definition string_of_nat (n : nat) : string := NilEmpty.string_of_uint (Nat.to_uint n).

(** [rts.forEach((rt, i) => rt.id = `${date}-${symbol}-${i + 1}`)], from
    index [i] on. *)
Fixpoint assignIds (date symbol : string) (i : nat) (rts : list RoundTrip.t)
  : list RoundTrip.t :=
  match rts with
  | [] => []
  | rt :: rest =>
      RoundTrip.with_id (date ++ "-" ++ symbol ++ "-" ++ string_of_nat (i + 1)) rt
        :: assignIds date symbol (S i) rest
  end.

Definition compareEntry (a b : RoundTrip.t) : option Q :=
  compareTimes (RoundTrip.entry_time a) (RoundTrip.entry_time b).

(** [groupFillsIntoRoundTrips]; [None] for the optional last parameter is a
    call that leaves it out. *)
Definition groupFillsIntoRoundTrips (fills : list Fill.t) (date : string)
           (sourceDir : option (list string)) (trainingPrefix : option string)
  : list RoundTrip.t :=
  let trainingPrefix :=
    match trainingPrefix with Some p => p | None => defaultTrainingPrefix end in
  let sorted := js_sort (fun a b => compareTimes (Fill.time a) (Fill.time b)) fills in
  let groups := groupFills sorted in
  let symbolRoundTrips := collectBySymbol date sourceDir trainingPrefix groups in
  let allRoundTrips :=
    flat_map (fun sr : string * list RoundTrip.t =>
                assignIds date (fst sr) 0 (js_sort compareEntry (snd sr)))
             symbolRoundTrips in
  js_sort compareEntry allRoundTrips.

(* ------------------------------------------------------------------------- *)
(** ** Daily aggregation *)

(** [t.net_pnl > 0], [t.net_pnl < 0] and [t.net_pnl === 0] *)
Definition isWinner (t : RoundTrip.t) : bool := negb (Qle_bool (RoundTrip.net_pnl t) 0).

Definition isLoser (t : RoundTrip.t) : bool := negb (Qle_bool 0 (RoundTrip.net_pnl t)).

Definition isBreakeven (t : RoundTrip.t) : bool := Qeq_bool (RoundTrip.net_pnl t) 0.

Definition hasType (ty : AccountType) (t : RoundTrip.t) : bool :=
  AccountType_eqb (RoundTrip.account_type t) ty.

Definition sumNetPnl (trades : list RoundTrip.t) : Q :=
  fold_left (fun s t => s + RoundTrip.net_pnl t)%Q trades 0%Q.

Definition sumGrossPnl (trades : list RoundTrip.t) : Q :=
  fold_left (fun s t => s + RoundTrip.pnl t)%Q trades 0%Q.

Definition sumTradeFees (trades : list RoundTrip.t) : Q :=
  fold_left (fun s t => s + RoundTrip.fees t)%Q trades 0%Q.

Definition ofNat (n : nat) : Q := inject_Z (Z.of_nat n).

(** [n > 0 ? round2((w / n) * 100) : 0], computed exactly: [Double.winRate]
    is the same on doubles. *)
Definition winRate (w n : nat) : Q :=
  if (0 <? n)%nat then round2 ((ofNat w / ofNat n) * 100)%Q else 0%Q.

(** [computeAccountBreakdown] *)
Definition computeAccountBreakdown (trades : list RoundTrip.t) : ByAccount.t :=
  let live_ := filter (hasType live) trades in
  let training_ := filter (hasType training) trades in
  let mixed_ := filter (hasType mixed) trades in
  let liveAll := live_ ++ mixed_ in
  let liveWin := List.length (filter isWinner liveAll) in
  let livePnl := round2 (sumNetPnl liveAll) in
  let trainingWin := List.length (filter isWinner training_) in
  let trainingLose := List.length (filter isLoser training_) in
  let trainingPnl := round2 (sumNetPnl training_) in
  ByAccount.mk
    (AccountBreakdown.mk (List.length liveAll) livePnl liveWin
       (List.length (filter isLoser liveAll))
       (winRate liveWin (List.length liveAll)))
    (AccountBreakdown.mk (List.length training_) trainingPnl trainingWin trainingLose
       (winRate trainingWin (List.length training_))).

(** [buildSummaryFromTrades] *)
Definition buildSummaryFromTrades (date : string) (trades : list RoundTrip.t) : Summary.t :=
  let totalPnl := round2 (sumGrossPnl trades) in
  let totalFees := round2 (sumTradeFees trades) in
  let winners := List.length (filter isWinner trades) in
  let losers := List.length (filter isLoser trades) in
  let breakeven := List.length (filter isBreakeven trades) in
  let byAccount := computeAccountBreakdown trades in
  Summary.mk totalPnl totalFees (round2 totalPnl) (List.length trades)
    winners losers breakeven (winRate winners (List.length trades))
    (unique (map RoundTrip.ticker trades)) byAccount.

(** The summary [cmdIngest] stores in the daily log it builds. *)
Definition ingestSummary (roundTrips : list RoundTrip.t) : Summary.t :=
  let symbols := unique (map RoundTrip.ticker roundTrips) in
  let totalPnl := round2 (sumGrossPnl roundTrips) in
  let totalFees := round2 (sumTradeFees roundTrips) in
  let winners := List.length (filter isWinner roundTrips) in
  let losers := List.length (filter isLoser roundTrips) in
  let breakeven := List.length (filter isBreakeven roundTrips) in
  let byAccount := computeAccountBreakdown roundTrips in
  Summary.mk totalPnl totalFees (round2 totalPnl) (List.length roundTrips)
    winners losers breakeven (winRate winners (List.length roundTrips))
    symbols byAccount.

(* ------------------------------------------------------------------------- *)
(** ** CSV parsing *)

(** A record as [csv-parse] yields it with [columns: true]: the cell under
    each header name, undefined for a column the line does not reach. *)
Definition Row : Type := string -> option string.

(** [row[col]?.trim()] *)
Definition trimmed (row : Row) (col : string) : option string :=
  option_map JsString.trim (row col).

(** The body of the loop of [parseFillsCsv] for one record: [None] is the
    [continue] branch, [Some f] the fill pushed. *)
Definition parseRow (row : Row) : option Fill.t :=
  let time := trimmed row "Time" in
  let symbol := trimmed row "Symbol" in
  let side := trimmed row "Side" in
  let price := JsNumber.parseFloat (row "Price") in
  let qty := JsNumber.parseInt10 (row "Qty") in
  match price, qty with
  | Some price, Some qty =>
      if negb (JsString.truthy time) || negb (JsString.truthy symbol)
         || negb (JsString.truthy side)
      then None
      else Some (Fill.mk (JsString.or_else time "") (JsString.or_else symbol "")
                   (JsString.or_else side "") price qty
                   (JsString.or_else (trimmed row "Route") "")
                   (JsString.or_else (trimmed row "Account") "")
                   (JsString.or_else (trimmed row "LiqType") "")
                   (JsNumber.or_zero (JsNumber.parseFloat (row "ECNFee")))
                   (JsNumber.or_zero (JsNumber.parseFloat (row "P / L"))))
  | _, _ => None
  end.

(** The loop of [parseFillsCsv] from the array [fills] built so far. *)
Fixpoint parseRows (records : list Row) (fills : list Fill.t) : list Fill.t :=
  match records with
  | [] => fills
  | row :: rest =>
      match parseRow row with
      | None => parseRows rest fills
      | Some f => parseRows rest (fills ++ [f])
      end
  end.

(** [parseFillsCsv], on the records [csv-parse] returns. *)
Definition parseFillsCsv (records : list Row) : list Fill.t := parseRows records [].

(* ------------------------------------------------------------------------- *)
(** ** The fills behind each round trip

    A [RoundTrip] keeps only the number of its fills.  The definitions below
    repeat the reconstruction while remembering, next to every round trip,
    the buffer [currentFills] it was built from and whether the call that
    built it passed the configured training prefix ([true], at a return to
    zero) or left it out ([false], after the loop).  Erasing what is
    remembered gives [groupFillsIntoRoundTrips] back
    ([tracedRoundTrips_erase]). *)

Abbreviation Segment := (list Fill.t * bool)%type.

Abbreviation Traced := (list Fill.t * bool * RoundTrip.t)%type.

Fixpoint closeSegments (position : Z) (currentFills groupFills : list Fill.t)
  : list Segment :=
  match groupFills with
  | [] => if (0 <? List.length currentFills)%nat then [(currentFills, false)] else []
  | fill :: rest =>
      let currentFills := currentFills ++ [fill] in
      let position := applyFill position fill in
      if (position =? 0)%Z && (0 <? List.length currentFills)%nat
      then (currentFills, true) :: closeSegments position [] rest
      else closeSegments position currentFills rest
  end.

Definition buildSegment (date symbol : string) (sourceDir : option (list string))
           (trainingPrefix : string) (seg : Segment) : list Traced :=
  match buildRoundTrip (fst seg) date symbol sourceDir
          (if snd seg then Some trainingPrefix else None) with
  | Some rt => [(seg, rt)]
  | None => []
  end.

Definition tracedGroup (date symbol : string) (sourceDir : option (list string))
           (trainingPrefix : string) (groupFills : list Fill.t) : list Traced :=
  flat_map (buildSegment date symbol sourceDir trainingPrefix)
           (closeSegments 0%Z [] groupFills).

Definition tracedBySymbol (date : string) (sourceDir : option (list string))
           (trainingPrefix : string) (groups : list (string * list Fill.t))
  : list (string * list Traced) :=
  fold_left (fun symbolRoundTrips (g : string * list Fill.t) =>
               let symbol := keySymbol (fst g) in
               let symbolRoundTrips :=
                 if map_has symbol symbolRoundTrips then symbolRoundTrips
                 else map_add symbol [] symbolRoundTrips in
               map_update symbol
                 (fun rts => rts ++ tracedGroup date symbol sourceDir trainingPrefix (snd g))
                 symbolRoundTrips)
            groups [].

Fixpoint tracedAssignIds (date symbol : string) (i : nat) (rts : list Traced)
  : list Traced :=
  match rts with
  | [] => []
  | (seg, rt) :: rest =>
      (seg, RoundTrip.with_id (date ++ "-" ++ symbol ++ "-" ++ string_of_nat (i + 1)) rt)
        :: tracedAssignIds date symbol (S i) rest
  end.

Definition tracedCompare (a b : Traced) : option Q := compareEntry (snd a) (snd b).

Definition sortFills (fills : list Fill.t) : list Fill.t :=
  js_sort (fun a b => compareTimes (Fill.time a) (Fill.time b)) fills.

Definition tracedRoundTrips (fills : list Fill.t) (date : string)
           (sourceDir : option (list string)) (trainingPrefix : option string)
  : list Traced :=
  let trainingPrefix :=
    match trainingPrefix with Some p => p | None => defaultTrainingPrefix end in
  let groups := groupFills (sortFills fills) in
  let symbolRoundTrips := tracedBySymbol date sourceDir trainingPrefix groups in
  js_sort tracedCompare
    (flat_map (fun sr : string * list Traced =>
                 tracedAssignIds date (fst sr) 0 (js_sort tracedCompare (snd sr)))
              symbolRoundTrips).

(* ------------------------------------------------------------------------- *)
(** ** The positions report *)

(** [interface PositionRow] *)
Module PositionRow.
Record t : Type := mk {
  symbol : string;
  account : string;
  type : string;
  shares : Z;
  avgCost : Q;
  realized : Q;
  unrealized : Q }.
End PositionRow.

(** [x || 0] for an integer that may be [NaN]. *)
Definition or_zeroZ (x : option Z) : Z :=
  match x with
  | Some z => z
  | None => 0%Z
  end.

(** The body of the loop of [parsePositionsCsv] for one record. *)
Definition parsePositionRow (row : Row) : option PositionRow.t :=
  let symbol := trimmed row "Symbol" in
  if negb (JsString.truthy symbol) || String.eqb (JsString.or_else symbol "") "Summary"
  then None
  else Some (PositionRow.mk (JsString.or_else symbol "")
               (JsString.or_else (trimmed row "Account") "")
               (JsString.or_else (trimmed row "Type") "")
               (or_zeroZ (JsNumber.parseInt10 (row "Shares")))
               (JsNumber.or_zero (JsNumber.parseFloat (row "Avgcost")))
               (JsNumber.or_zero (JsNumber.parseFloat (row "Realized")))
               (JsNumber.or_zero (JsNumber.parseFloat (row "Unrealized")))).

Fixpoint parsePositionRows (records : list Row) (positions : list PositionRow.t)
  : list PositionRow.t :=
  match records with
  | [] => positions
  | row :: rest =>
      match parsePositionRow row with
      | None => parsePositionRows rest positions
      | Some p => parsePositionRows rest (positions ++ [p])
      end
  end.

(** [parsePositionsCsv], on the records [csv-parse] returns. *)
Definition parsePositionsCsv (records : list Row) : list PositionRow.t :=
  parsePositionRows records [].

(** The test [row["Symbol"]?.trim() === "Summary"]. *)
Definition isSummaryRow (row : Row) : bool :=
  match trimmed row "Symbol" with
  | Some s => String.eqb s "Summary"
  | None => false
  end.

(** [parsePositionsSummaryPnl], on the records [csv-parse] returns. *)
Fixpoint parsePositionsSummaryPnl (records : list Row) : Q :=
  match records with
  | [] => 0%Q
  | row :: rest =>
      if isSummaryRow row
      then JsNumber.or_zero (JsNumber.parseFloat (row "Realized"))
      else parsePositionsSummaryPnl rest
  end.

(** The cross-check of [cmdIngest]: [true] when the warning is printed,
    that is when the realized total of the positions report and the
    computed total differ by more than 0.50.  The difference is computed
    exactly here, and on doubles in [Double.discrepancyWarning]. *)
Definition discrepancyWarning (summaryPnl totalPnl : Q) : bool :=
  negb (Qle_bool (Qabs (summaryPnl - totalPnl)) (1 # 2)).

(* ------------------------------------------------------------------------- *)
(** ** Statistics over a period *)

(** The aggregates [cmdStats] prints.  [profitFactor] is [None] where the
    source has [Infinity], printed as "N/A (no losers)". *)
Module Stats.
Record t : Type := mk {
  totalPnl : Q;
  totalFees : Q;
  winners : list RoundTrip.t;
  losers : list RoundTrip.t;
  avgWin : Q;
  avgLoss : Q;
  profitFactor : option Q }.
End Stats.

(** [ts.length > 0 ? round2(sum of net_pnl / ts.length) : 0] *)
Definition averageNetPnl (ts : list RoundTrip.t) : Q :=
  if (0 <? List.length ts)%nat then round2 (sumNetPnl ts / ofNat (List.length ts)) else 0%Q.

(** The block "Aggregate stats" of [cmdStats]. *)
Definition computeStats (allTrades : list RoundTrip.t) : Stats.t :=
  let totalPnl := round2 (sumNetPnl allTrades) in
  let totalFees := round2 (sumTradeFees allTrades) in
  let winners := filter isWinner allTrades in
  let losers := filter isLoser allTrades in
  let avgWin := averageNetPnl winners in
  let avgLoss := averageNetPnl losers in
  let profitFactor :=
    if negb (Qle_bool (Qabs avgLoss) 0)
    then Some (round2 (sumNetPnl winners / Qabs (sumNetPnl losers)))
    else None in
  Stats.mk totalPnl totalFees winners losers avgWin avgLoss profitFactor.

(** The value stored under a key, if any. *)
Fixpoint map_get {V : Type} (k : string) (m : list (string * V)) : option V :=
  match m with
  | [] => None
  | (k', v) :: m' => if String.eqb k' k then Some v else map_get k m'
  end.

(** An entry of the breakdowns per symbol and per setup. *)
Module Tally.
Record t : Type := mk {
  pnl : Q;
  count : nat }.
End Tally.

(** [m.set(k, v)]: in place when the key is present, appended last
    otherwise. *)
Fixpoint map_set {V : Type} (k : string) (v : V) (m : list (string * V))
  : list (string * V) :=
  match m with
  | [] => [(k, v)]
  | (k', v') :: m' =>
      if String.eqb k' k then (k', v) :: m' else (k', v') :: map_set k v m'
  end.

(** The loop both breakdowns share: the entry of the key of each trade
    gets the trade's net profit added, rounded at every step, and its
    count incremented. *)
Definition tallyBy (key : RoundTrip.t -> string) (trades : list RoundTrip.t)
  : list (string * Tally.t) :=
  fold_left (fun m t =>
               let entry :=
                 match map_get (key t) m with
                 | Some e => e
                 | None => Tally.mk 0 0
                 end in
               map_set (key t)
                 (Tally.mk (round2 (Tally.pnl entry + RoundTrip.net_pnl t))
                           (Tally.count entry + 1))
                 m)
            trades [].

(** The per-symbol breakdown of [cmdStats]. *)
Definition bySymbol (allTrades : list RoundTrip.t) : list (string * Tally.t) :=
  tallyBy RoundTrip.ticker allTrades.

(** The key [t.setup || "(untagged)"]. *)
Definition setupKey (t : RoundTrip.t) : string :=
  JsString.or_else (RoundTrip.setup t) "(untagged)".

(** The setup breakdown of [cmdReview]. *)
Definition bySetup (trades : list RoundTrip.t) : list (string * Tally.t) :=
  tallyBy setupKey trades.

(** The comparator [(a, b) => b.net_pnl - a.net_pnl] of [cmdReview]. *)
Definition byNetPnlDescending (a b : RoundTrip.t) : option Q :=
  Some (RoundTrip.net_pnl b - RoundTrip.net_pnl a)%Q.

(** The best and the worst trade [cmdReview] prints: the first and the last
    element of the trades sorted by net profit, descending; nothing is
    printed for an empty list. *)
Definition bestAndWorst (trades : list RoundTrip.t) : option (RoundTrip.t * RoundTrip.t) :=
  let sorted := js_sort byNetPnlDescending trades in
  match sorted with
  | [] => None
  | first :: _ => Some (first, last sorted first)
  end.

(* ------------------------------------------------------------------------- *)
(** ** Manual entry of a trade *)

Definition upper_ascii (c : ascii) : ascii :=
  let n := nat_of_ascii c in
  if ((97 <=? n) && (n <=? 122))%nat then ascii_of_nat (n - 32) else c.

(** [s.toUpperCase()] on ASCII letters *)
Fixpoint toUpperCase (s : string) : string :=
  match s with
  | EmptyString => EmptyString
  | String c r => String (upper_ascii c) (toUpperCase r)
  end.

(** [s || null] for an optional string. *)
Definition or_null (s : option string) : option string :=
  match s with
  | Some (String c r) => Some (String c r)
  | _ => None
  end.

(** The profit [cmdLog] computes for a manual trade. *)
Definition manualPnl (side : string) (entry exit : Q) (shares : Z) : Q :=
  let sideTyped := if String.eqb side "short" then short else long in
  match sideTyped with
  | long => round2 ((exit - entry) * inject_Z shares)
  | short => round2 ((entry - exit) * inject_Z shares)
  end.

(** The trade [cmdLog] appends to the trades of the day.  [date] is the
    current date and [now] the current time of day, both as the source
    formats them. *)
Definition manualTrade (date now : string) (trades : list RoundTrip.t)
           (ticker side : string) (entry exit : Q) (shares : Z)
           (setup notes : option string) : RoundTrip.t :=
  let sideTyped := if String.eqb side "short" then short else long in
  let pnl := manualPnl side entry exit shares in
  let existingCount :=
    List.length (filter (fun t => String.eqb (RoundTrip.ticker t) (toUpperCase ticker))
                        trades) in
  RoundTrip.mk
    (date ++ "-" ++ toUpperCase ticker ++ "-" ++ string_of_nat (existingCount + 1))
    (toUpperCase ticker) sideTyped entry exit shares pnl 0 pnl 0 now now (Some 0%Z)
    ["manual"] live (or_null setup) (or_null notes) None.

(** [log.trades.push(newTrade)] *)
Definition logTrade (date now : string) (trades : list RoundTrip.t)
           (ticker side : string) (entry exit : Q) (shares : Z)
           (setup notes : option string) : list RoundTrip.t :=
  trades ++ [manualTrade date now trades ticker side entry exit shares setup notes].

(* ------------------------------------------------------------------------- *)
(** ** Time-of-day windows of the statistics queries *)

(** Comparison of two text values as SQLite compares them (byte by byte,
    a proper prefix being smaller). *)
Fixpoint textLt (a b : string) : bool :=
  match a, b with
  | _, EmptyString => false
  | EmptyString, String _ _ => true
  | String x a', String y b' =>
      if (nat_of_ascii x <? nat_of_ascii y)%nat then true
      else if (nat_of_ascii x =? nat_of_ascii y)%nat then textLt a' b'
      else false
  end.

(** The [CASE] expression of [getStatsByTimeOfDay]. *)
Definition timeBucket (entry_time : string) : string :=
  if textLt entry_time "10:00" then "09:30-10:00"
  else if textLt entry_time "10:30" then "10:00-10:30"
  else if textLt entry_time "11:00" then "10:30-11:00"
  else if textLt entry_time "11:30" then "11:00-11:30"
  else if textLt entry_time "12:00" then "11:30-12:00"
  else if textLt entry_time "13:00" then "12:00-13:00"
  else if textLt entry_time "14:00" then "13:00-14:00"
  else if textLt entry_time "15:00" then "14:00-15:00"
  else if textLt entry_time "15:30" then "15:00-15:30"
  else "15:30-16:00".

(** The summary [cmdLog] writes after appending a trade: it has no
    breakdown by account. *)
Module LogSummary.
Record t : Type := mk {
  total_pnl : Q;
  total_fees : Q;
  total_net_pnl : Q;
  total_trades : nat;
  winners : nat;
  losers : nat;
  breakeven : nat;
  win_rate : Q;
  symbols : list string }.
End LogSummary.

(** The block "Recompute summary" of [cmdLog], on the trades of the log
    after the push. *)
Definition logSummary (trades : list RoundTrip.t) : LogSummary.t :=
  let allPnl := round2 (sumNetPnl trades) in
  let allFees := round2 (sumTradeFees trades) in
  let w := List.length (filter isWinner trades) in
  let l := List.length (filter isLoser trades) in
  let be := List.length (filter isBreakeven trades) in
  LogSummary.mk allPnl allFees allPnl (List.length trades) w l be
    (winRate w (List.length trades)) (unique (map RoundTrip.ticker trades)).

(* ------------------------------------------------------------------------- *)
(** ** The program's own arithmetic

    The amounts and prices of the program are IEEE 754 binary64 numbers.
    The module below computes with them as the program does: every
    product, sum, difference and quotient is rounded to the nearest
    double, ties to even ([SpecFloat], precision 53, [emax] 1024), with
    [NaN], the infinities and the signed zeros.  A field of a [Fill.t]
    holds the decimal number written in the cell; the program works on
    the double nearest to it, [ofQ] of the field.  Share quantities are
    integers and stay exact. *)

Module Double.

Abbreviation t := spec_float.

Definition prec : Z := 53.

Definition emax : Z := 1024.

Definition zero : t := S754_zero false.

Definition nan : t := S754_nan.

Definition add (x y : t) : t := SFadd prec emax x y.

Definition sub (x y : t) : t := SFsub prec emax x y.

Definition mul (x y : t) : t := SFmul prec emax x y.

Definition div (x y : t) : t := SFdiv prec emax x y.

(** [Math.abs] *)
Definition abs (x : t) : t := SFabs x.

(** [x < y]; false when either is [NaN]. *)
Definition ltb (x y : t) : bool := SFltb x y.

(** The double of an integer. *)
Definition ofZ (z : Z) : t := binary_normalize prec emax z 0 false.

(** The double nearest to a rational, as [parseFloat] yields it for a
    decimal literal. *)
Definition ofQ (q : Q) : t :=
  match Qnum q with
  | Z0 => zero
  | Zpos n =>
      let '(m, e, l) := SFdiv_core_binary prec emax (Zpos n) 0 (Zpos (Qden q)) 0 in
      binary_round_aux prec emax false m e l
  | Zneg n =>
      let '(m, e, l) := SFdiv_core_binary prec emax (Zpos n) 0 (Zpos (Qden q)) 0 in
      binary_round_aux prec emax true m e l
  end.

(** The rational a finite double stands for (0 for the others). *)
Definition toQ (x : t) : Q :=
  match x with
  | S754_finite s m e =>
      let v := (inject_Z (Zpos m) * Qpower 2 e)%Q in if s then (- v)%Q else v
  | _ => 0%Q
  end.

(** [Math.round]: the nearest integer, ties towards plus infinity; the
    sign of a zero result is that of the argument. *)
Definition Math_round (x : t) : t :=
  match x with
  | S754_finite s m e =>
      if (0 <=? e)%Z then x
      else let k := Qfloor (toQ x + (1 # 2)) in
           if (k =? 0)%Z then S754_zero s else ofZ k
  | _ => x
  end.

(** [Math.max] of two numbers. *)
Definition Math_max (x y : t) : t :=
  match SFcompare x y with
  | Some Lt => y
  | Some Gt => x
  | Some Eq => match x with S754_zero true => y | _ => x end
  | None => nan
  end.

(** [round2(n) = Math.round(n * 100) / 100] *)
Definition round2 (n : t) : t := div (Math_round (mul n (ofZ 100))) (ofZ 100).

(** [parseFloat(s)] *)
Definition parseFloat (s : option string) : t :=
  if JsNumber.infinity_literal s
  then match s with
       | Some str => S754_infinity (fst (JsNumber.read_sign (JsString.trimStart str)))
       | None => nan
       end
  else match JsNumber.parseFloat s with
       | Some q => ofQ q
       | None => nan
       end.

(** The number [parseInt] returns. *)
Definition ofInt (z : option Z) : t :=
  match z with
  | Some z => ofZ z
  | None => nan
  end.

(** [timeToMinutes] *)
Definition timeToMinutes (time : string) : t :=
  let parts := JsString.split ":" time in
  add (add (mul (ofInt (JsNumber.parseInt (nth_error parts 0))) (ofZ 60))
           (ofInt (JsNumber.parseInt (nth_error parts 1))))
      (div (ofInt (JsNumber.parseInt (Some (JsString.or_else (nth_error parts 2) "0"))))
           (ofZ 60)).

(** The sum of a list of numbers, from 0 and from the left. *)
Definition sum (l : list t) : t := fold_left add l zero.

Definition notional (fills : list Fill.t) : t :=
  fold_left (fun sum f => add sum (mul (ofQ (Fill.price f)) (ofZ (Fill.qty f)))) fills zero.

Definition vwap (fills : list Fill.t) : t :=
  if (0 <? shares fills)%Z then round2 (div (notional fills) (ofZ (shares fills))) else zero.

Definition sumPnl (fills : list Fill.t) : t :=
  fold_left (fun sum f => add sum (ofQ (Fill.pnl f))) fills zero.

Definition sumFees (fills : list Fill.t) : t :=
  fold_left (fun sum f => add sum (abs (ofQ (Fill.ecnFee f)))) fills zero.

Module RoundTrip.
Record t : Type := mk {
  id : string;
  ticker : string;
  side : Direction;
  entry_avg : spec_float;
  exit_avg : spec_float;
  total_shares : Z;
  pnl : spec_float;
  fees : spec_float;
  net_pnl : spec_float;
  fills : nat;
  entry_time : string;
  exit_time : string;
  duration_mins : spec_float;
  accounts : list string;
  account_type : AccountType;
  setup : option string;
  notes : option string;
  chart : option string }.
End RoundTrip.

(** [buildRoundTrip] *)
Definition buildRoundTrip (fills : list Fill.t) (date symbol : string)
           (sourceDir : option (list string)) (trainingPrefix : option string)
  : option RoundTrip.t :=
  let trainingPrefix :=
    match trainingPrefix with Some p => p | None => defaultTrainingPrefix end in
  match fills with
  | [] => None
  | firstFill :: _ =>
      let side := if isBuy firstFill then long else short in
      let entry := entryFills side fills in
      let exit := exitFills side fills in
      let entry_avg := vwap entry in
      let exit_avg := vwap exit in
      let total_shares := Z.max (shares entry) (shares exit) in
      let pnl := round2 (sumPnl fills) in
      let fees := round2 (sumFees fills) in
      let net_pnl := round2 pnl in
      let entry_time := Fill.time firstFill in
      let exit_time := Fill.time (last fills firstFill) in
      let duration_mins :=
        Math_round (sub (timeToMinutes exit_time) (timeToMinutes entry_time)) in
      let accounts := unique (map Fill.account fills) in
      let account_type := classify trainingPrefix accounts in
      let chart := findChartFile symbol date sourceDir in
      Some (RoundTrip.mk "" symbol side entry_avg exit_avg total_shares pnl fees
              net_pnl (List.length fills) entry_time exit_time
              (Math_max duration_mins zero)
              accounts account_type None None chart)
  end.

(** [n > 0 ? round2((w / n) * 100) : 0] *)
Definition winRate (w n : nat) : t :=
  if (0 <? n)%nat
  then round2 (mul (div (ofZ (Z.of_nat w)) (ofZ (Z.of_nat n))) (ofZ 100))
  else zero.

(** The cross-check of [cmdIngest]: [Math.abs(summaryPnl - totalPnl) > 0.50]. *)
Definition discrepancyWarning (summaryPnl totalPnl : t) : bool :=
  ltb (ofQ (1 # 2)) (abs (sub summaryPnl totalPnl)).

End Double.

(* ------------------------------------------------------------------------- *)
(** ** Vocabulary of the properties *)

Definition Qsum (l : list Q) : Q := fold_right Qplus 0%Q l.

Definition Zsum (l : list Z) : Z := fold_right Z.add 0%Z l.

(** Signed quantity: a buy counts [+qty], a sell or short sell [-qty] (as
    does any side that is not "B", which the loop treats like a sell). *)
Definition signedQty (f : Fill.t) : Z :=
  if isBuy f then Fill.qty f else (- Fill.qty f)%Z.

Definition signedTotal (fills : list Fill.t) : Z := Zsum (map signedQty fills).

(** An amount that is a whole number of cents. *)
Definition wholeCents (q : Q) : Prop := exists z : Z, (q == inject_Z z / 100)%Q.

(** What the data model promises of a canonical fill: one of the three
    sides and a positive quantity. *)
Definition canonicalFill (f : Fill.t) : Prop :=
  (Fill.side f = "B" \/ Fill.side f = "S" \/ Fill.side f = "SS") /\ (0 < Fill.qty f)%Z.

(** Fills on the side that opened the round trip, and on the other side. *)
Definition sameSide (first f : Fill.t) : bool := Bool.eqb (isBuy first) (isBuy f).

Definition parsesTime (time : string) : Prop := timeToMinutes time <> None.

(** [a] is not later than [b] (both times read as minutes). *)
Definition notLater (a b : string) : Prop :=
  exists x y, timeToMinutes a = Some x /\ timeToMinutes b = Some y /\ (x <= y)%Q.

(** The comparator of a sort by a time of day read off each element, and
    the order it establishes. *)
Definition byTime {A : Type} (key : A -> string) (a b : A) : option Q :=
  compareTimes (key a) (key b).

Definition inOrder {A : Type} (key : A -> string) (a b : A) : Prop :=
  notLater (key a) (key b).

(** The step both grouping loops make on their map: create the array
    under [k] when [k] is new, then append [xs] to it. *)
Definition push {T : Type} (k : string) (xs : list T) (m : list (string * list T))
  : list (string * list T) :=
  map_update k (fun v => v ++ xs) (if map_has k m then m else map_add k [] m).

Definition mapValues {T U : Type} (f : T -> U) (m : list (string * list T))
  : list (string * list U) :=
  map (fun kv => (fst kv, map f (snd kv))) m.

(** A loop of [push] steps over [l], from the map [m]. *)
Definition pushAll {E T : Type} (keyOf : E -> string) (valuesOf : E -> list T)
           (l : list E) (m : list (string * list T)) : list (string * list T) :=
  fold_left (fun m e => push (keyOf e) (valuesOf e) m) l m.

(** A traced round trip stored under [symbol] is what [buildRoundTrip]
    makes of its buffer, up to the id assigned afterwards. *)
Definition builtFrom (date : string) (sourceDir : option (list string))
           (trainingPrefix : string) (symbol : string) (tr : Traced) : Prop :=
  exists idv rt0,
    buildRoundTrip (fst (fst tr)) date symbol sourceDir
      (if snd (fst tr) then Some trainingPrefix else None) = Some rt0
    /\ snd tr = RoundTrip.with_id idv rt0.

(** The value of an optional training prefix. *)
Definition defaulted (trainingPrefix : option string) : string :=
  match trainingPrefix with Some p => p | None => defaultTrainingPrefix end.

(** The buffers [segs] are the closed buffers [closed], in order, followed
    by the open buffers [open]. *)
Definition closedThenOpen (segs : list Segment) (closed open : list (list Fill.t)) : Prop :=
  segs = map (fun b => (b, true)) closed ++ map (fun b => (b, false)) open.

(** A buffer marked closed has signed quantity zero, one marked open has
    not. *)
Definition flagMatchesPosition (seg : Segment) : Prop :=
  if snd seg then signedTotal (fst seg) = 0%Z else signedTotal (fst seg) <> 0%Z.

(** The block of one symbol in the last loop: its round trips sorted and
    numbered. *)
Definition symbolBlock (date : string) (sr : string * list RoundTrip.t)
  : list RoundTrip.t :=
  assignIds date (fst sr) 0 (js_sort compareEntry (snd sr)).

(** Every element stored under a key satisfies [P] with that key. *)
Definition allStored {T : Type} (P : string -> T -> Prop) (m : list (string * list T))
  : Prop :=
  Forall (fun kv => Forall (P (fst kv)) (snd kv)) m.

(** The buffers of fills behind a traced list, in order. *)
Definition segmentFills (trs : list Traced) : list (list Fill.t) :=
  map (fun tr : Traced => fst (fst tr)) trs.






(** A string that contains the separator of the group keys. *)
Fixpoint hasBar (s : string) : bool :=
  match s with
  | EmptyString => false
  | String c r => Ascii.eqb c "|" || hasBar r
  end.

(** The id of the [n]-th round trip of a symbol. *)
Definition idOf (date symbol : string) (n : nat) : string :=
  date ++ "-" ++ symbol ++ "-" ++ string_of_nat n.

(** Fills that read the same minute of the day are the same fill. *)
Definition distinctTimes (fills : list Fill.t) : Prop :=
  forall a b x y,
    In a fills -> In b fills ->
    timeToMinutes (Fill.time a) = Some x -> timeToMinutes (Fill.time b) = Some y ->
    (x == y)%Q -> a = b.

(** The array stored under a key, empty when the key is absent. *)
Definition stored {T : Type} (k : string) (m : list (string * list T)) : list T :=
  match map_get k m with
  | Some v => v
  | None => []
  end.

(** A string in which the character [c] occurs. *)
Fixpoint contains (c : ascii) (s : string) : bool :=
  match s with
  | EmptyString => false
  | String c' r => Ascii.eqb c' c || contains c r
  end.

(** The fills of a buffer are in order of time and their times parse. *)
Definition chronological (seg : list Fill.t * bool) : Prop :=
  StronglySorted (inOrder Fill.time) (fst seg)
  /\ Forall (fun f => parsesTime (Fill.time f)) (fst seg).

(** The fills of a buffer share one account and the symbol [symbol]. *)
Definition singleAccount (symbol : string) (seg : list Fill.t * bool) : Prop :=
  exists a, Forall (fun f => Fill.account f = a /\ Fill.symbol f = symbol) (fst seg).

(** The test [findChartFile] applies to the files of the directory. *)
Definition chartMatch (symbol f : string) : bool :=
  JsString.startsWith (JsString.toLowerCase f) (JsString.toLowerCase symbol)
  && (JsString.endsWith f ".jpg" || JsString.endsWith f ".jpeg"
      || JsString.endsWith f ".png").

(** The number of trades with a given ticker. *)
Definition countTicker (ticker : string) (trades : list RoundTrip.t) : nat :=
  List.length (filter (fun t => String.eqb (RoundTrip.ticker t) ticker) trades).

(** Every trade carries the id of its date and ticker with a number from 1
    up to the number of trades of that ticker. *)
Definition wellNumbered (date : string) (trades : list RoundTrip.t) : Prop :=
  Forall (fun t => exists n,
              RoundTrip.id t = idOf date (RoundTrip.ticker t) n
              /\ (1 <= n <= countTicker (RoundTrip.ticker t) trades)%nat)
         trades.

(** The entry of a breakdown after the trades [ts], from the entry [e]. *)
Definition runTally (e : Tally.t) (ts : list RoundTrip.t) : Tally.t :=
  fold_left (fun e t => Tally.mk (round2 (Tally.pnl e + RoundTrip.net_pnl t))
                                 (Tally.count e + 1))
            ts e.

(** The entry under a key of a breakdown, the initial entry when absent. *)
Definition tallyOf (k : string) (m : list (string * Tally.t)) : Tally.t :=
  match map_get k m with
  | Some e => e
  | None => Tally.mk 0 0
  end.

(** A record whose symbol cell is absent or blank. *)
Definition blankSymbol (row : Row) : bool := negb (JsString.truthy (trimmed row "Symbol")).

(** A record [parsePositionsCsv] keeps: its symbol cell is neither blank
    nor the word Summary. *)
Definition isPositionRow (row : Row) : bool :=
  JsString.truthy (trimmed row "Symbol") && negb (isSummaryRow row).

(** Descending order of net profit. *)
Definition notBetter (a b : RoundTrip.t) : Prop :=
  (RoundTrip.net_pnl b <= RoundTrip.net_pnl a)%Q.

(** The ten labels of the time-of-day windows, in order. *)
Definition bucketLabels : list string :=
  ["09:30-10:00"; "10:00-10:30"; "10:30-11:00"; "11:00-11:30"; "11:30-12:00";
   "12:00-13:00"; "13:00-14:00"; "14:00-15:00"; "15:00-15:30"; "15:30-16:00"].

(** The character of a decimal digit. *)
Definition digitChar (d : nat) : ascii := ascii_of_nat (48 + d).

(** A number below 100 written with two digits. *)
Definition twoDigits (n : nat) : string :=
  String (digitChar (n / 10)) (String (digitChar (n mod 10)) EmptyString).

(** A time of day written HH:MM:SS. *)
Definition clock (h m s : nat) : string :=
  (twoDigits h ++ ":" ++ twoDigits m ++ ":" ++ twoDigits s)%string.

(** A trade without fees on top of its profit: net and gross agree. *)
Definition netIsGross (t : RoundTrip.t) : Prop :=
  (RoundTrip.net_pnl t == RoundTrip.pnl t)%Q.

(** The window that contains the minute [mins] of the day, the first
    window taking all that is earlier and the last all that is later. *)
Definition windowOf (mins : nat) : string :=
  if (mins <? 600)%nat then "09:30-10:00"
  else if (mins <? 630)%nat then "10:00-10:30"
  else if (mins <? 660)%nat then "10:30-11:00"
  else if (mins <? 690)%nat then "11:00-11:30"
  else if (mins <? 720)%nat then "11:30-12:00"
  else if (mins <? 780)%nat then "12:00-13:00"
  else if (mins <? 840)%nat then "13:00-14:00"
  else if (mins <? 900)%nat then "14:00-15:00"
  else if (mins <? 930)%nat then "15:00-15:30"
  else "15:30-16:00".

(** One step of the loop of a breakdown. *)
Definition tallyStep (key : RoundTrip.t -> string) (m : list (string * Tally.t))
           (t : RoundTrip.t) : list (string * Tally.t) :=
  map_set (key t)
    (Tally.mk (round2 (Tally.pnl (tallyOf (key t) m) + RoundTrip.net_pnl t))
              (Tally.count (tallyOf (key t) m) + 1))
    m.

(** Case analysis on the window of the time [t]. *)
Ltac bucket_of t :=
  repeat match goal with
         | |- context [if textLt t ?th then _ else _] =>
             destruct (textLt t th); cbv iota
         end.

(* ------------------------------------------------------------------------- *)
(** ** Sample data *)

(** A round trip that touched a live and a training account. *)
Definition mixedTrade : RoundTrip.t :=
  RoundTrip.mk "2026-02-10-AAPL-1" "AAPL" long 150 151 100 100 1 100 2
    "09:30:00" "09:45:00" (Some 15%Z) ["A1"; "TR1"] mixed None None None.

Definition liveTrade : RoundTrip.t :=
  RoundTrip.mk "2026-02-10-MSFT-1" "MSFT" short 300 301 50 (-50) 1 (-50) 2
    "10:00:00" "10:05:00" (Some 5%Z) ["A1"] live None None None.

Definition trainingTrade : RoundTrip.t :=
  RoundTrip.mk "2026-02-10-TSLA-1" "TSLA" long 200 200 10 0 0 0 2
    "11:00:00" "11:01:00" (Some 1%Z) ["TR1"] training None None None.

(** Two symbols, each bought and sold once; each sale reports a profit of
    0.375. *)
Definition halfCentFills : list Fill.t :=
  [ Fill.mk "09:30:00" "AAPL" "B" 150 100 "ARCA" "A1" "" 0 0;
    Fill.mk "09:45:00" "AAPL" "S" (15000375 # 100000) 100 "ARCA" "A1" "" 0 (3 # 8);
    Fill.mk "10:00:00" "MSFT" "B" 300 100 "ARCA" "A1" "" 0 0;
    Fill.mk "10:15:00" "MSFT" "S" (30000375 # 100000) 100 "ARCA" "A1" "" 0 (3 # 8) ].

(** A day of two accounts: a closed long trade in a live account and a
    position left open in a training account. *)
Definition sampleFills : list Fill.t :=
  [ Fill.mk "09:45:00" "AAPL" "S" (305 # 2) 100 "ARCA" "A1" "" 1 250;
    Fill.mk "09:30:00" "AAPL" "B" 150 100 "ARCA" "A1" "" 0 0;
    Fill.mk "10:00:00" "AAPL" "B" 151 50 "ARCA" "TR1" "" 0 0 ].

(** A position bought in the account SIM1 and never sold, and the same
    position sold again later. *)
Definition openSimFills : list Fill.t :=
  [ Fill.mk "09:30:00" "AAPL" "B" 150 100 "ARCA" "SIM1" "" 0 0 ].

Definition closedSimFills : list Fill.t :=
  [ Fill.mk "09:30:00" "AAPL" "B" 150 100 "ARCA" "SIM1" "" 0 0;
    Fill.mk "09:45:00" "AAPL" "S" 151 100 "ARCA" "SIM1" "" 0 100 ].

(** Two listings of the source directory, with and without a chart. *)
Definition listingWithChart : option (list string) := Some ["notes.txt"; "aapl-2026-02-10.png"].

Definition listingWithoutChart : option (list string) := Some ["notes.txt"].



(** The closed trade of [sampleFills], in order of time, and the round trip
    built from it. *)
Definition sampleEntry : Fill.t :=
  Fill.mk "09:30:00" "AAPL" "B" 150 100 "ARCA" "A1" "" 0 0.

Definition sampleExit : Fill.t :=
  Fill.mk "09:45:00" "AAPL" "S" (305 # 2) 100 "ARCA" "A1" "" 1 250.

Definition sampleTrip : RoundTrip.t :=
  Eval vm_compute in
    match buildRoundTrip [sampleEntry; sampleExit] "2026-02-10" "AAPL" None (Some "TR") with
    | Some rt => rt
    | None => mixedTrade
    end.

(** Two purchases of 100 shares at 10.03 and at 10.04, sold together, and
    the round trip the program builds from them. *)
Definition weightedFills : list Fill.t :=
  [ Fill.mk "09:30:00" "AAPL" "B" (1003 # 100) 100 "ARCA" "A1" "" 0 0;
    Fill.mk "09:31:00" "AAPL" "B" (1004 # 100) 100 "ARCA" "A1" "" 0 0;
    Fill.mk "09:45:00" "AAPL" "S" (1010 # 100) 200 "ARCA" "A1" "" 0 13 ].

Definition weightedTrip : Double.RoundTrip.t :=
  Eval vm_compute in
    match Double.buildRoundTrip weightedFills "2026-02-10" "AAPL" None (Some "TR") with
    | Some rt => rt
    | None => Double.RoundTrip.mk "" "" long Double.zero Double.zero 0 Double.zero
                Double.zero Double.zero 0 "" "" Double.zero [] live None None None
    end.


(** A purchase at 08:02:32 sold at 08:32:02, twenty-nine and a half
    minutes later. *)
Definition halfMinuteFills : list Fill.t :=
  [ Fill.mk "08:02:32" "AAPL" "B" 150 100 "ARCA" "A1" "" 0 0;
    Fill.mk "08:32:02" "AAPL" "S" 151 100 "ARCA" "A1" "" 0 100 ].

(* ------------------------------------------------------------------------- *)
(** ** Facts about rationals and rounding *)

Lemma Qlt_bool_iff (x y : Q) : negb (Qle_bool y x) = true <-> (x < y)%Q.
Proof.
  rewrite negb_true_iff. split; intro H.
  - apply Qnot_le_lt. intro Hle. apply Qle_bool_iff in Hle. congruence.
  - destruct (Qle_bool y x) eqn:E; [|reflexivity].
    apply Qle_bool_iff in E. exfalso. exact (Qlt_not_le _ _ H E).
Qed.

Lemma round2_comp (x y : Q) : (x == y)%Q -> (round2 x == round2 y)%Q.
Proof.
  intro H. unfold round2, JsNumber.Math_round.
  assert (E : Qfloor (x * 100 + (1 # 2)) = Qfloor (y * 100 + (1 # 2))).
  { apply Qfloor_comp. rewrite H. reflexivity. }
  rewrite E. reflexivity.
Qed.

#[export] Instance round2_Proper : Proper (Qeq ==> Qeq) round2.
Proof. intros x y H. apply round2_comp, H. Qed.

Lemma Math_round_Z (z : Z) : JsNumber.Math_round (inject_Z z) = z.
Proof.
  unfold JsNumber.Math_round, Qfloor, Qplus, inject_Z. simpl.
  symmetry. apply (Z.div_unique (z * 2 + 1) 2 z 1); lia.
Qed.

Lemma round2_wholeCents (q : Q) : wholeCents q -> (round2 q == q)%Q.
Proof.
  intros [z Hz]. unfold round2.
  assert (E : (q * 100 == inject_Z z)%Q) by (rewrite Hz; field).
  assert (E' : JsNumber.Math_round (q * 100) = z).
  { unfold JsNumber.Math_round.
    rewrite (Qfloor_comp _ (inject_Z z + (1 # 2))%Q) by (rewrite E; reflexivity).
    apply Math_round_Z. }
  rewrite E', Hz. reflexivity.
Qed.

Lemma round2_is_wholeCents (q : Q) : wholeCents (round2 q).
Proof. exists (JsNumber.Math_round (q * 100)). reflexivity. Qed.

Lemma round2_idempotent (q : Q) : (round2 (round2 q) == round2 q)%Q.
Proof. apply round2_wholeCents, round2_is_wholeCents. Qed.

Lemma wholeCents_0 : wholeCents 0%Q.
Proof. exists 0%Z. reflexivity. Qed.

Lemma wholeCents_plus (a b : Q) : wholeCents a -> wholeCents b -> wholeCents (a + b)%Q.
Proof.
  intros [x Hx] [y Hy]. exists (x + y)%Z.
  rewrite Hx, Hy, inject_Z_plus. field.
Qed.

Lemma wholeCents_comp (a b : Q) : (a == b)%Q -> wholeCents a -> wholeCents b.
Proof. intros E [x Hx]. exists x. rewrite <- E. exact Hx. Qed.

(** Exactly one of the three tests on a profit holds. *)
Lemma pnl_trichotomy (t : RoundTrip.t) :
  ((if isWinner t then 1 else 0) + (if isLoser t then 1 else 0)
   + (if isBreakeven t then 1 else 0) = 1)%nat.
Proof.
  unfold isWinner, isLoser, isBreakeven.
  set (q := RoundTrip.net_pnl t).
  destruct (Qle_bool q 0) eqn:E1; destruct (Qle_bool 0 q) eqn:E2;
    destruct (Qeq_bool q 0) eqn:E3; simpl; try reflexivity; exfalso.
  - apply Qle_bool_iff in E1, E2. apply Qeq_bool_neq in E3.
    apply E3. apply Qle_antisym; assumption.
  - apply Qeq_bool_iff in E3. rewrite E3 in E2.
    assert (H : Qle_bool 0 0 = true) by reflexivity. congruence.
  - apply Qeq_bool_iff in E3. rewrite E3 in E1.
    assert (H : Qle_bool 0 0 = true) by reflexivity. congruence.
  - assert (H1 : (0 < q)%Q) by (apply Qlt_bool_iff; rewrite E1; reflexivity).
    assert (H2 : (q < 0)%Q) by (apply Qlt_bool_iff; rewrite E2; reflexivity).
    exact (Qlt_irrefl _ (Qlt_trans _ _ _ H1 H2)).
  - assert (H1 : (0 < q)%Q) by (apply Qlt_bool_iff; rewrite E1; reflexivity).
    assert (H2 : (q < 0)%Q) by (apply Qlt_bool_iff; rewrite E2; reflexivity).
    exact (Qlt_irrefl _ (Qlt_trans _ _ _ H1 H2)).
Qed.

Lemma count_by_outcome (trades : list RoundTrip.t) :
  (List.length trades
   = List.length (filter isWinner trades) + List.length (filter isLoser trades)
     + List.length (filter isBreakeven trades))%nat.
Proof.
  induction trades as [|t ts IH]; [reflexivity|].
  pose proof (pnl_trichotomy t) as H. simpl.
  destruct (isWinner t), (isLoser t), (isBreakeven t); simpl in *; lia.
Qed.

(* ------------------------------------------------------------------------- *)
(** ** Sums *)

Lemma flat_map_cons_eq {A B : Type} (f : A -> list B) (x : A) (l : list A) :
  flat_map f (x :: l) = f x ++ flat_map f l.
Proof. reflexivity. Qed.

Lemma fold_left_Qplus {A : Type} (f : A -> Q) (l : list A) (a : Q) :
  (fold_left (fun s x => s + f x) l a == a + Qsum (map f l))%Q.
Proof.
  revert a. induction l as [|x l IH]; intro a; simpl.
  - ring.
  - rewrite IH. ring.
Qed.

Lemma fold_left_Zplus {A : Type} (f : A -> Z) (l : list A) (a : Z) :
  fold_left (fun s x => s + f x)%Z l a = (a + Zsum (map f l))%Z.
Proof.
  revert a. induction l as [|x l IH]; intro a; simpl.
  - lia.
  - rewrite IH. lia.
Qed.

Lemma Qsum_app (l1 l2 : list Q) : (Qsum (l1 ++ l2) == Qsum l1 + Qsum l2)%Q.
Proof.
  induction l1 as [|x l1 IH]; simpl.
  - ring.
  - rewrite IH. ring.
Qed.

Lemma Qsum_Permutation (l1 l2 : list Q) : Permutation l1 l2 -> (Qsum l1 == Qsum l2)%Q.
Proof.
  induction 1; simpl.
  - reflexivity.
  - rewrite IHPermutation. reflexivity.
  - ring.
  - etransitivity; eassumption.
Qed.

Lemma sumNetPnl_Qsum (trades : list RoundTrip.t) :
  (sumNetPnl trades == Qsum (map RoundTrip.net_pnl trades))%Q.
Proof. unfold sumNetPnl. rewrite fold_left_Qplus. ring. Qed.

Lemma sumPnl_Qsum (fills : list Fill.t) : (sumPnl fills == Qsum (map Fill.pnl fills))%Q.
Proof. unfold sumPnl. rewrite fold_left_Qplus. ring. Qed.

Lemma filter_length_Permutation {A : Type} (p : A -> bool) (l1 l2 : list A) :
  Permutation l1 l2 -> List.length (filter p l1) = List.length (filter p l2).
Proof.
  induction 1; simpl.
  - reflexivity.
  - destruct (p x); simpl; congruence.
  - destruct (p x), (p y); reflexivity.
  - congruence.
Qed.

(* ------------------------------------------------------------------------- *)
(** ** Daily aggregation: properties *)

Lemma isWinner_spec (t : RoundTrip.t) : isWinner t = true <-> (0 < RoundTrip.net_pnl t)%Q.
Proof. apply Qlt_bool_iff. Qed.

Lemma isLoser_spec (t : RoundTrip.t) : isLoser t = true <-> (RoundTrip.net_pnl t < 0)%Q.
Proof. apply Qlt_bool_iff. Qed.

Lemma isBreakeven_spec (t : RoundTrip.t) : isBreakeven t = true <-> (RoundTrip.net_pnl t == 0)%Q.
Proof. apply Qeq_bool_iff. Qed.

Lemma winRate_guard (w n : nat) :
  winRate w n = if (n =? 0)%nat then 0%Q else round2 ((ofNat w / ofNat n) * 100)%Q.
Proof. unfold winRate. destruct n; reflexivity. Qed.

(** C8.  In the daily summary, as built on ingestion and as rebuilt from
    stored trades, [total_trades] is the number of trades, [winners],
    [losers] and [breakeven] are the numbers of trades whose net profit is
    positive, negative and zero, and every trade is counted in exactly one
    of the three, so [total_trades = winners + losers + breakeven].  The
    win rate of a day without trades is 0: the guard on the number of
    trades returns 0 without dividing, where the division of 0 by 0 would
    give [NaN]. *)
Theorem aggregation_consistency (date : string) (trades : list RoundTrip.t) :
  let s := buildSummaryFromTrades date trades in
  let i := ingestSummary trades in
  (forall t, (isWinner t = true <-> (0 < RoundTrip.net_pnl t)%Q)
             /\ (isLoser t = true <-> (RoundTrip.net_pnl t < 0)%Q)
             /\ (isBreakeven t = true <-> (RoundTrip.net_pnl t == 0)%Q))
  /\ Summary.total_trades s = List.length trades
  /\ Summary.winners s = List.length (filter isWinner trades)
  /\ Summary.losers s = List.length (filter isLoser trades)
  /\ Summary.breakeven s = List.length (filter isBreakeven trades)
  /\ Summary.total_trades i = List.length trades
  /\ Summary.winners i = List.length (filter isWinner trades)
  /\ Summary.losers i = List.length (filter isLoser trades)
  /\ Summary.breakeven i = List.length (filter isBreakeven trades)
  /\ Summary.total_trades s
     = (Summary.winners s + Summary.losers s + Summary.breakeven s)%nat
  /\ Summary.total_trades i
     = (Summary.winners i + Summary.losers i + Summary.breakeven i)%nat
  /\ Summary.win_rate i = Summary.win_rate s
  /\ Summary.win_rate (buildSummaryFromTrades date []) = 0%Q
  /\ Summary.win_rate (ingestSummary []) = 0%Q
  /\ (forall w, winRate w 0 = 0%Q /\ Double.winRate w 0 = Double.zero)
  /\ Double.round2 (Double.mul (Double.div (Double.ofZ 0) (Double.ofZ 0)) (Double.ofZ 100))
     = Double.nan.
Proof.
  cbn zeta. unfold buildSummaryFromTrades, ingestSummary. cbn [Summary.total_trades
    Summary.winners Summary.losers Summary.breakeven Summary.win_rate].
  split.
  { intro t. split; [apply isWinner_spec|]. split; [apply isLoser_spec|].
    apply isBreakeven_spec. }
  repeat split; try reflexivity; apply count_by_outcome.
Qed.

Lemma live_mixed_Permutation (trades : list RoundTrip.t) :
  Permutation (filter (hasType live) trades ++ filter (hasType mixed) trades)
              (filter (fun t => negb (hasType training t)) trades).
Proof.
  induction trades as [|t ts IH]; [constructor|].
  unfold hasType in *. simpl.
  destruct (RoundTrip.account_type t); simpl.
  - constructor. exact IH.
  - exact IH.
  - apply Permutation_sym, Permutation_cons_app, Permutation_sym, IH.
Qed.

Lemma partition_by_training (trades : list RoundTrip.t) :
  (List.length (filter (fun t => negb (hasType training t)) trades)
   + List.length (filter (hasType training) trades) = List.length trades)%nat.
Proof.
  induction trades as [|t ts IH]; [reflexivity|].
  simpl. destruct (hasType training t); simpl; lia.
Qed.

(** C4.  The breakdown has two buckets only, and every trade is counted in
    exactly one of them: a mixed trade is counted as a live trade and
    nowhere else.  For a day whose only trade is mixed the live bucket
    reports one trade and the training bucket none, although the day has
    no live trade; the mixed trade has no count of its own and does not
    count toward training. *)
Theorem mixed_trade_counted_as_live_only (trades : list RoundTrip.t) :
  let b := computeAccountBreakdown trades in
  let m := computeAccountBreakdown [mixedTrade] in
  (AccountBreakdown.trades (ByAccount.live b)
   + AccountBreakdown.trades (ByAccount.training b) = List.length trades)%nat
  /\ AccountBreakdown.trades (ByAccount.live b)
     = (List.length (filter (hasType live) trades)
        + List.length (filter (hasType mixed) trades))%nat
  /\ AccountBreakdown.trades (ByAccount.training b)
     = List.length (filter (hasType training) trades)
  /\ RoundTrip.account_type mixedTrade = mixed
  /\ AccountBreakdown.trades (ByAccount.live m) = 1%nat
  /\ AccountBreakdown.trades (ByAccount.training m) = 0%nat
  /\ List.length (filter (hasType live) [mixedTrade]) = 0%nat.
Proof.
  cbv zeta. unfold computeAccountBreakdown at 1 2 3.
  cbn [ByAccount.live ByAccount.training AccountBreakdown.trades].
  split; [|split; [|split; [|repeat split]]].
  - rewrite (Permutation_length (live_mixed_Permutation trades)).
    apply partition_by_training.
  - apply length_app.
  - reflexivity.
Qed.

(* ------------------------------------------------------------------------- *)
(** ** CSV parsing: properties *)






Lemma parseRows_acc (records : list Row) (fills : list Fill.t) :
  parseRows records fills = fills ++ flat_map (fun row => maybe (parseRow row)) records.
Proof.
  revert fills. induction records as [|row rest IH]; intro fills; simpl.
  - rewrite app_nil_r. reflexivity.
  - destruct (parseRow row) as [f|]; rewrite IH; simpl.
    + rewrite <- app_assoc. reflexivity.
    + reflexivity.
Qed.





(* ------------------------------------------------------------------------- *)
(** ** Building one round trip: properties *)

Lemma canonical_isSell (f : Fill.t) : canonicalFill f -> isSell f = negb (isBuy f).
Proof.
  intros [[H | [H | H]] _]; unfold isSell, isBuy; rewrite H; reflexivity.
Qed.

Lemma entryFills_sameSide (first : Fill.t) (fills : list Fill.t) :
  Forall canonicalFill fills ->
  entryFills (if isBuy first then long else short) fills = filter (sameSide first) fills.
Proof.
  intro C. unfold entryFills. apply filter_ext_in. intros f Hf.
  rewrite Forall_forall in C. specialize (C f Hf).
  unfold sameSide. rewrite (canonical_isSell f C).
  destruct (isBuy first), (isBuy f); reflexivity.
Qed.

Lemma exitFills_otherSide (first : Fill.t) (fills : list Fill.t) :
  Forall canonicalFill fills ->
  exitFills (if isBuy first then long else short) fills
  = filter (fun f => negb (sameSide first f)) fills.
Proof.
  intro C. unfold exitFills. apply filter_ext_in. intros f Hf.
  rewrite Forall_forall in C. specialize (C f Hf).
  unfold sameSide. rewrite (canonical_isSell f C).
  destruct (isBuy first), (isBuy f); reflexivity.
Qed.

Lemma shares_Zsum (fills : list Fill.t) : shares fills = Zsum (map Fill.qty fills).
Proof. unfold shares. rewrite fold_left_Zplus. lia. Qed.

Lemma notional_Qsum (fills : list Fill.t) :
  (notional fills == Qsum (map (fun f => Fill.price f * inject_Z (Fill.qty f)) fills))%Q.
Proof. unfold notional. rewrite fold_left_Qplus. ring. Qed.

Lemma Zsum_qty_nonneg (fills : list Fill.t) :
  Forall canonicalFill fills -> (0 <= Zsum (map Fill.qty fills))%Z.
Proof.
  induction 1 as [|f l [_ Hf] _ IH]; simpl; lia.
Qed.

Lemma Zsum_qty_pos (fills : list Fill.t) :
  Forall canonicalFill fills -> fills <> [] -> (0 < Zsum (map Fill.qty fills))%Z.
Proof.
  intros C N. destruct fills as [|f l]; [congruence|].
  inversion C as [|? ? [_ Hf] Cl]; subst.
  pose proof (Zsum_qty_nonneg l Cl). simpl. lia.
Qed.

Lemma vwap_nonempty (fills : list Fill.t) :
  Forall canonicalFill fills -> fills <> [] ->
  (vwap fills
   == round2 (Qsum (map (fun f => Fill.price f * inject_Z (Fill.qty f)) fills)
              / inject_Z (Zsum (map Fill.qty fills))))%Q.
Proof.
  intros C N. unfold vwap.
  pose proof (Zsum_qty_pos fills C N) as P. rewrite <- shares_Zsum in *.
  destruct (0 <? shares fills)%Z eqn:E; [|apply Z.ltb_ge in E; lia].
  apply round2_comp. rewrite notional_Qsum. reflexivity.
Qed.

Lemma Forall_filter_keep {A : Type} (P : A -> Prop) (p : A -> bool) (l : list A) :
  Forall P l -> Forall P (filter p l).
Proof.
  intro H. rewrite Forall_forall in *. intros x Hx.
  apply filter_In in Hx. apply H, Hx.
Qed.

Lemma fold_left_mapped {A B C : Type} (f : A -> C -> A) (g : B -> C) (l : list B) :
  forall a, fold_left (fun acc x => f acc (g x)) l a = fold_left f (map g l) a.
Proof. induction l as [|x l IH]; intro a; simpl; [reflexivity | apply IH]. Qed.


(** The exact and the double-precision reading of [buildRoundTrip] build
    the same round trip but for the amounts. *)
Lemma Double_buildRoundTrip_structure (fills : list Fill.t) (date symbol : string)
      (sourceDir : option (list string)) (trainingPrefix : option string) :
  match buildRoundTrip fills date symbol sourceDir trainingPrefix,
        Double.buildRoundTrip fills date symbol sourceDir trainingPrefix with
  | Some rt, Some d =>
      Double.RoundTrip.id d = RoundTrip.id rt
      /\ Double.RoundTrip.ticker d = RoundTrip.ticker rt
      /\ Double.RoundTrip.side d = RoundTrip.side rt
      /\ Double.RoundTrip.total_shares d = RoundTrip.total_shares rt
      /\ Double.RoundTrip.fills d = RoundTrip.fills rt
      /\ Double.RoundTrip.entry_time d = RoundTrip.entry_time rt
      /\ Double.RoundTrip.exit_time d = RoundTrip.exit_time rt
      /\ Double.RoundTrip.accounts d = RoundTrip.accounts rt
      /\ Double.RoundTrip.account_type d = RoundTrip.account_type rt
      /\ Double.RoundTrip.chart d = RoundTrip.chart rt
  | None, None => fills = []
  | _, _ => False
  end.
Proof. destruct fills; [reflexivity|]. cbn. repeat split. Qed.



(* ------------------------------------------------------------------------- *)
(** ** Sorting: properties *)

Section SortFacts.
Context {A : Type}.
Variable compareFn : A -> A -> option Q.

Lemma insert_sorted_Permutation (x : A) (l : list A) :
  Permutation (insert_sorted compareFn x l) (x :: l).
Proof.
  induction l as [|y l IH]; simpl.
  - apply Permutation_refl.
  - destruct (negative (compareFn y x)).
    + apply Permutation_trans with (y :: x :: l).
      * apply perm_skip, IH.
      * apply perm_swap.
    + apply Permutation_refl.
Qed.

Lemma js_sort_Permutation (l : list A) : Permutation (js_sort compareFn l) l.
Proof.
  induction l as [|x l IH]; simpl.
  - apply Permutation_refl.
  - apply Permutation_trans with (x :: js_sort compareFn l).
    + apply insert_sorted_Permutation.
    + apply perm_skip, IH.
Qed.

End SortFacts.

(** Sorting commutes with a map that preserves the comparator. *)
Lemma js_sort_map {A B : Type} (f : A -> B)
      (cmpA : A -> A -> option Q) (cmpB : B -> B -> option Q) (l : list A) :
  (forall a b, cmpB (f a) (f b) = cmpA a b) ->
  map f (js_sort cmpA l) = js_sort cmpB (map f l).
Proof.
  intro H.
  assert (I : forall x s, map f (insert_sorted cmpA x s)
                          = insert_sorted cmpB (f x) (map f s)).
  { intros x s. induction s as [|y s IH]; simpl; [reflexivity|].
    rewrite H. destruct (negative (cmpA y x)); simpl; [rewrite IH|]; reflexivity. }
  induction l as [|x l IH]; simpl; [reflexivity|].
  rewrite I, IH. reflexivity.
Qed.

(** Sorting by a time of day read off each element. *)
Section SortByTime.
Context {A : Type}.
Variable key : A -> string.

Lemma negative_compareTimes (s t : string) :
  negative (compareTimes s t) = true
  <-> exists x y, timeToMinutes s = Some x /\ timeToMinutes t = Some y /\ (x < y)%Q.
Proof.
  unfold compareTimes, negative.
  destruct (timeToMinutes s) as [x|], (timeToMinutes t) as [y|].
  - rewrite Qlt_bool_iff. split.
    + intro H. exists x, y. repeat split; try reflexivity.
      apply Qlt_minus_iff. apply Qlt_minus_iff in H.
      setoid_replace (y + - x)%Q with (0 + - (x - y))%Q by ring. exact H.
    + intros [x' [y' [E1 [E2 H]]]]. injection E1 as <-. injection E2 as <-.
      apply Qlt_minus_iff. apply Qlt_minus_iff in H.
      setoid_replace (0 + - (x - y))%Q with (y + - x)%Q by ring. exact H.
  - split; [discriminate | intros [? [? [_ [E _]]]]; discriminate E].
  - split; [discriminate | intros [? [? [E _]]]; discriminate E].
  - split; [discriminate | intros [? [? [E _]]]; discriminate E].
Qed.

Lemma not_negative_inOrder (x y : A) :
  parsesTime (key x) -> parsesTime (key y) ->
  negative ((byTime key) y x) = false -> (inOrder key) x y.
Proof.
  unfold parsesTime, inOrder, notLater, byTime. intros Px Py N.
  destruct (timeToMinutes (key x)) as [a|] eqn:Ea; [|congruence].
  destruct (timeToMinutes (key y)) as [b|] eqn:Eb; [|congruence].
  exists a, b. repeat split; try reflexivity.
  apply Qnot_lt_le. intro L.
  assert (T : negative (compareTimes (key y) (key x)) = true).
  { apply negative_compareTimes. exists b, a. rewrite Ea, Eb. auto. }
  congruence.
Qed.

Lemma negative_inOrder (x y : A) : negative ((byTime key) y x) = true -> (inOrder key) y x.
Proof.
  intro N. apply negative_compareTimes in N. destruct N as [a [b [Ea [Eb L]]]].
  exists a, b. repeat split; try assumption. apply Qlt_le_weak, L.
Qed.


Lemma inOrder_trans (x y z : A) : (inOrder key) x y -> (inOrder key) y z -> (inOrder key) x z.
Proof.
  intros [a [b [Ea [Eb L]]]] [b' [c [Eb' [Ec L']]]].
  rewrite Eb in Eb'. injection Eb' as <-.
  exists a, c. repeat split; try assumption. eapply Qle_trans; eassumption.
Qed.


Lemma insert_sorted_StronglySorted (x : A) (l : list A) :
  parsesTime (key x) -> Forall (fun a => parsesTime (key a)) l ->
  StronglySorted (inOrder key) l -> StronglySorted (inOrder key) (insert_sorted (byTime key) x l).
Proof.
  intros Px Pl S. induction S as [|y l S IH F]; simpl.
  - constructor; constructor.
  - inversion Pl as [|? ? Py Pl']; subst.
    destruct (negative ((byTime key) y x)) eqn:N.
    + constructor; [apply IH, Pl'|].
      apply (Permutation_Forall (Permutation_sym (insert_sorted_Permutation (byTime key) x l))).
      constructor; [apply negative_inOrder, N | exact F].
    + pose proof (not_negative_inOrder x y Px Py N) as O.
      constructor; [constructor; assumption|].
      constructor; [exact O|].
      eapply Forall_impl; [|exact F]. intros z Hz. eapply inOrder_trans; eassumption.
Qed.

Lemma js_sort_StronglySorted (l : list A) :
  Forall (fun a => parsesTime (key a)) l -> StronglySorted (inOrder key) (js_sort (byTime key) l).
Proof.
  induction 1 as [|x l Px Pl IH]; simpl.
  - constructor.
  - apply insert_sorted_StronglySorted; [exact Px | | exact IH].
    apply (Permutation_Forall (Permutation_sym (js_sort_Permutation (byTime key) l))), Pl.
Qed.




End SortByTime.

(* ------------------------------------------------------------------------- *)
(** ** Insertion-ordered maps: properties *)

Section PushFacts.
Context {T : Type}.

Lemma map_has_In (k : string) (m : list (string * list T)) :
  map_has k m = true <-> In k (map fst m).
Proof.
  induction m as [|[k' v] m IH]; simpl.
  - split; [discriminate | tauto].
  - destruct (String.eqb k' k) eqn:E.
    + apply String.eqb_eq in E. tauto.
    + apply String.eqb_neq in E. rewrite IH. split; [tauto|].
      intros [H|H]; [congruence | exact H].
Qed.

Lemma map_update_absent (k : string) (f : list T -> list T) (m : list (string * list T)) :
  map_has k m = false -> map_update k f m = m.
Proof.
  induction m as [|[k' v] m IH]; simpl; [reflexivity|].
  destruct (String.eqb k' k); [discriminate|].
  intro H. rewrite (IH H). reflexivity.
Qed.

Lemma map_update_app_absent (k : string) (f : list T -> list T)
      (m m' : list (string * list T)) :
  map_has k m = false -> map_update k f (m ++ m') = m ++ map_update k f m'.
Proof.
  induction m as [|[k' v] m IH]; simpl; [reflexivity|].
  destruct (String.eqb k' k); [discriminate|].
  intro H. rewrite (IH H). reflexivity.
Qed.

(** What [push] does, by cases on the presence of the key. *)
Lemma push_cases (k : string) (xs : list T) (m : list (string * list T)) :
  push k xs m
  = if map_has k m then map_update k (fun v => v ++ xs) m else m ++ [(k, xs)].
Proof.
  unfold push, map_add. destruct (map_has k m) eqn:E; [reflexivity|].
  rewrite (map_update_app_absent _ _ _ _ E). simpl.
  rewrite String.eqb_refl. reflexivity.
Qed.

Lemma map_update_keys (k : string) (f : list T -> list T) (m : list (string * list T)) :
  map fst (map_update k f m) = map fst m.
Proof.
  induction m as [|[k' v] m IH]; simpl; [reflexivity|].
  destruct (String.eqb k' k); simpl; [|rewrite IH]; reflexivity.
Qed.

Lemma push_keys (k : string) (xs : list T) (m : list (string * list T)) :
  map fst (push k xs m) = if map_has k m then map fst m else map fst m ++ [k].
Proof.
  rewrite push_cases. destruct (map_has k m).
  - apply map_update_keys.
  - rewrite map_app. reflexivity.
Qed.

Lemma push_keys_NoDup (k : string) (xs : list T) (m : list (string * list T)) :
  NoDup (map fst m) -> NoDup (map fst (push k xs m)).
Proof.
  intro N. rewrite push_keys. destruct (map_has k m) eqn:E; [exact N|].
  apply NoDup_app; [exact N | constructor; [simpl; tauto | constructor] |].
  intros a Ha [<-|[]]. apply map_has_In in Ha. congruence.
Qed.

Lemma map_update_concat (k : string) (xs : list T) (m : list (string * list T)) :
  map_has k m = true ->
  Permutation (List.concat (map snd (map_update k (fun v => v ++ xs) m)))
              (List.concat (map snd m) ++ xs).
Proof.
  induction m as [|[k' v] m IH]; simpl; [discriminate|].
  destruct (String.eqb k' k); simpl; intro H.
  - rewrite <- !app_assoc. apply Permutation_app_head, Permutation_app_comm.
  - rewrite <- app_assoc. apply Permutation_app_head, IH, H.
Qed.

Lemma push_concat (k : string) (xs : list T) (m : list (string * list T)) :
  Permutation (List.concat (map snd (push k xs m))) (List.concat (map snd m) ++ xs).
Proof.
  rewrite push_cases. destruct (map_has k m) eqn:E.
  - apply map_update_concat, E.
  - rewrite map_app, List.concat_app. simpl. rewrite app_nil_r. apply Permutation_refl.
Qed.

Lemma map_update_allStored (P : string -> T -> Prop) (k : string) (xs : list T)
      (m : list (string * list T)) :
  allStored P m -> Forall (P k) xs ->
  allStored P (map_update k (fun v => v ++ xs) m).
Proof.
  intros H X. induction H as [|[k' v] m Hv Hm IH]; simpl; [constructor|].
  destruct (String.eqb k' k) eqn:E.
  - apply String.eqb_eq in E. subst k'. constructor; [|exact Hm].
    simpl in *. apply Forall_app. split; assumption.
  - constructor; assumption.
Qed.

Lemma push_allStored (P : string -> T -> Prop) (k : string) (xs : list T)
      (m : list (string * list T)) :
  allStored P m -> Forall (P k) xs -> allStored P (push k xs m).
Proof.
  intros H X. rewrite push_cases. destruct (map_has k m).
  - apply map_update_allStored; assumption.
  - apply Forall_app. split; [exact H|]. constructor; [exact X | constructor].
Qed.

(** The same facts for a whole loop of [push] steps. *)
Section Loop.
Context {E : Type}.
Variable keyOf : E -> string.
Variable valuesOf : E -> list T.

Lemma pushAll_keys_NoDup (l : list E) (m : list (string * list T)) :
  NoDup (map fst m) -> NoDup (map fst (pushAll keyOf valuesOf l m)).
Proof.
  revert m. induction l as [|e l IH]; intros m N; simpl; [exact N|].
  apply IH, push_keys_NoDup, N.
Qed.

Lemma pushAll_concat (l : list E) (m : list (string * list T)) :
  Permutation (List.concat (map snd (pushAll keyOf valuesOf l m))) (List.concat (map snd m) ++ flat_map valuesOf l).
Proof.
  revert m. induction l as [|e l IH]; intro m; simpl.
  - rewrite app_nil_r. apply Permutation_refl.
  - eapply Permutation_trans; [apply IH|].
    rewrite app_assoc. apply Permutation_app_tail, push_concat.
Qed.

Lemma pushAll_allStored (P : string -> T -> Prop) (l : list E) (m : list (string * list T)) :
  allStored P m -> Forall (fun e => Forall (P (keyOf e)) (valuesOf e)) l ->
  allStored P (pushAll keyOf valuesOf l m).
Proof.
  revert m. induction l as [|e l IH]; intros m H F; simpl; [exact H|].
  inversion F; subst. apply IH; [apply push_allStored|]; assumption.
Qed.

End Loop.
End PushFacts.

Lemma mapValues_has {T U : Type} (f : T -> U) (k : string) (m : list (string * list T)) :
  map_has k (mapValues f m) = map_has k m.
Proof.
  induction m as [|[k' v] m IH]; simpl; [reflexivity|].
  destruct (String.eqb k' k); [reflexivity | exact IH].
Qed.

Lemma mapValues_update {T U : Type} (f : T -> U) (k : string) (xs : list T)
      (m : list (string * list T)) :
  mapValues f (map_update k (fun v => v ++ xs) m)
  = map_update k (fun v => v ++ map f xs) (mapValues f m).
Proof.
  induction m as [|[k' v] m IH]; [reflexivity|].
  simpl. destruct (String.eqb k' k); simpl.
  - rewrite map_app. reflexivity.
  - f_equal. exact IH.
Qed.

Lemma mapValues_push {T U : Type} (f : T -> U) (k : string) (xs : list T)
      (m : list (string * list T)) :
  mapValues f (push k xs m) = push k (map f xs) (mapValues f m).
Proof.
  rewrite !push_cases, mapValues_has. destruct (map_has k m).
  - apply mapValues_update.
  - unfold mapValues. rewrite map_app. reflexivity.
Qed.

Lemma mapValues_pushAll {E T U : Type} (f : T -> U) (keyOf : E -> string)
      (valuesOf : E -> list T) (l : list E) (m : list (string * list T)) :
  mapValues f (pushAll keyOf valuesOf l m)
  = pushAll keyOf (fun e => map f (valuesOf e)) l (mapValues f m).
Proof.
  revert m. induction l as [|e l IH]; intro m; simpl; [reflexivity|].
  rewrite IH, mapValues_push. reflexivity.
Qed.

(* ------------------------------------------------------------------------- *)
(** ** The grouping loops as loops of [push] *)

Lemma groupFills_pushAll (sorted : list Fill.t) :
  groupFills sorted = pushAll groupKey (fun f => [f]) sorted [].
Proof. reflexivity. Qed.

Lemma collectBySymbol_pushAll (date : string) (sourceDir : option (list string))
      (trainingPrefix : string) (groups : list (string * list Fill.t)) :
  collectBySymbol date sourceDir trainingPrefix groups
  = pushAll (fun g => keySymbol (fst g))
      (fun g => closeRoundTrips date (keySymbol (fst g)) sourceDir trainingPrefix
                  0%Z [] (snd g))
      groups [].
Proof. reflexivity. Qed.

Lemma tracedBySymbol_pushAll (date : string) (sourceDir : option (list string))
      (trainingPrefix : string) (groups : list (string * list Fill.t)) :
  tracedBySymbol date sourceDir trainingPrefix groups
  = pushAll (fun g => keySymbol (fst g))
      (fun g => tracedGroup date (keySymbol (fst g)) sourceDir trainingPrefix (snd g))
      groups [].
Proof. reflexivity. Qed.

Lemma pushAll_ext {E T : Type} (keyOf : E -> string) (v1 v2 : E -> list T)
      (l : list E) (m : list (string * list T)) :
  (forall e, v1 e = v2 e) -> pushAll keyOf v1 l m = pushAll keyOf v2 l m.
Proof.
  intro H. revert m. induction l as [|e l IH]; intro m; simpl; [reflexivity|].
  rewrite H. apply IH.
Qed.

(* ------------------------------------------------------------------------- *)
(** ** Erasing the trace *)

Lemma closeRoundTrips_erase (date symbol : string) (sourceDir : option (list string))
      (trainingPrefix : string) (groupFills : list Fill.t) :
  forall (position : Z) (currentFills : list Fill.t),
    map snd (flat_map (buildSegment date symbol sourceDir trainingPrefix)
                      (closeSegments position currentFills groupFills))
    = closeRoundTrips date symbol sourceDir trainingPrefix position currentFills groupFills.
Proof.
  induction groupFills as [|fill rest IH]; intros position currentFills.
  - simpl. destruct (0 <? List.length currentFills)%nat; [|reflexivity].
    simpl. unfold buildSegment. simpl fst. simpl snd.
    destruct (buildRoundTrip currentFills date symbol sourceDir None); reflexivity.
  - simpl.
    destruct ((applyFill position fill =? 0)%Z
              && (0 <? List.length (currentFills ++ [fill]))%nat).
    + simpl. rewrite map_app, IH. unfold buildSegment. simpl fst. simpl snd.
      destruct (buildRoundTrip (currentFills ++ [fill]) date symbol sourceDir
                               (Some trainingPrefix)); reflexivity.
    + apply IH.
Qed.

Lemma tracedGroup_erase (date symbol : string) (sourceDir : option (list string))
      (trainingPrefix : string) (groupFills : list Fill.t) :
  map snd (tracedGroup date symbol sourceDir trainingPrefix groupFills)
  = closeRoundTrips date symbol sourceDir trainingPrefix 0%Z [] groupFills.
Proof. apply closeRoundTrips_erase. Qed.

Lemma tracedBySymbol_erase (date : string) (sourceDir : option (list string))
      (trainingPrefix : string) (groups : list (string * list Fill.t)) :
  mapValues snd (tracedBySymbol date sourceDir trainingPrefix groups)
  = collectBySymbol date sourceDir trainingPrefix groups.
Proof.
  rewrite tracedBySymbol_pushAll, collectBySymbol_pushAll, mapValues_pushAll.
  apply pushAll_ext. intro g. apply tracedGroup_erase.
Qed.

Lemma tracedAssignIds_erase (date symbol : string) (rts : list Traced) :
  forall i, map snd (tracedAssignIds date symbol i rts)
            = assignIds date symbol i (map snd rts).
Proof.
  induction rts as [|[seg rt] rts IH]; intro i; simpl; [reflexivity|].
  rewrite IH. reflexivity.
Qed.

Lemma tracedAssignIds_segments (date symbol : string) (rts : list Traced) :
  forall i, map fst (tracedAssignIds date symbol i rts) = map fst rts.
Proof.
  induction rts as [|[seg rt] rts IH]; intro i; simpl; [reflexivity|].
  rewrite IH. reflexivity.
Qed.

Lemma traced_sort_erase (trs : list Traced) :
  map snd (js_sort tracedCompare trs) = js_sort compareEntry (map snd trs).
Proof. apply js_sort_map. reflexivity. Qed.

Lemma traced_blocks_erase (date : string) (m : list (string * list Traced)) :
  map snd (flat_map (fun sr : string * list Traced =>
                       tracedAssignIds date (fst sr) 0 (js_sort tracedCompare (snd sr))) m)
  = flat_map (fun sr : string * list RoundTrip.t =>
                assignIds date (fst sr) 0 (js_sort compareEntry (snd sr)))
             (mapValues snd m).
Proof.
  induction m as [|[k v] m IH]; simpl; [reflexivity|].
  rewrite map_app. f_equal; [|exact IH].
  rewrite tracedAssignIds_erase, traced_sort_erase. reflexivity.
Qed.

(** Forgetting the buffers gives the reconstruction of the source back. *)
Lemma tracedRoundTrips_erase (fills : list Fill.t) (date : string)
      (sourceDir : option (list string)) (trainingPrefix : option string) :
  map snd (tracedRoundTrips fills date sourceDir trainingPrefix)
  = groupFillsIntoRoundTrips fills date sourceDir trainingPrefix.
Proof.
  unfold tracedRoundTrips, groupFillsIntoRoundTrips. cbv zeta.
  rewrite traced_sort_erase, traced_blocks_erase, tracedBySymbol_erase.
  reflexivity.
Qed.

(* ------------------------------------------------------------------------- *)
(** ** The inner loop: properties *)

Lemma closeSegments_concat (groupFills : list Fill.t) :
  forall (position : Z) (currentFills : list Fill.t),
    List.concat (map fst (closeSegments position currentFills groupFills))
    = currentFills ++ groupFills.
Proof.
  induction groupFills as [|fill rest IH]; intros position currentFills; simpl.
  - destruct currentFills; simpl; [reflexivity|].
    rewrite !app_nil_r. reflexivity.
  - destruct ((applyFill position fill =? 0)%Z
              && (0 <? List.length (currentFills ++ [fill]))%nat); simpl.
    + rewrite IH. simpl. rewrite <- app_assoc. reflexivity.
    + rewrite IH, <- app_assoc. reflexivity.
Qed.

Lemma closeSegments_nonempty (groupFills : list Fill.t) :
  forall (position : Z) (currentFills : list Fill.t),
    Forall (fun seg : Segment => fst seg <> []) (closeSegments position currentFills groupFills).
Proof.
  induction groupFills as [|fill rest IH]; intros position currentFills; simpl.
  - destruct currentFills; simpl; constructor; [discriminate | constructor].
  - destruct ((applyFill position fill =? 0)%Z
              && (0 <? List.length (currentFills ++ [fill]))%nat).
    + constructor; [|apply IH]. simpl. destruct currentFills; discriminate.
    + apply IH.
Qed.

Lemma applyFill_signedQty (position : Z) (fill : Fill.t) :
  applyFill position fill = (position + signedQty fill)%Z.
Proof. unfold applyFill, signedQty. destruct (isBuy fill); lia. Qed.

Lemma signedTotal_snoc (fills : list Fill.t) (fill : Fill.t) :
  signedTotal (fills ++ [fill]) = (signedTotal fills + signedQty fill)%Z.
Proof.
  unfold signedTotal. induction fills as [|f l IH]; simpl; [lia|].
  rewrite IH. lia.
Qed.

(** The loop emits closed buffers, each of signed quantity zero, and then
    at most one open buffer, of signed quantity other than zero. *)
Lemma closeSegments_closure (groupFills : list Fill.t) :
  forall (position : Z) (currentFills : list Fill.t),
    position = signedTotal currentFills ->
    (currentFills <> [] -> position <> 0%Z) ->
    exists (closed : list (list Fill.t)) (open : list (list Fill.t)),
      closeSegments position currentFills groupFills
      = map (fun b => (b, true)) closed ++ map (fun b => (b, false)) open
      /\ Forall (fun b => signedTotal b = 0%Z) closed
      /\ Forall (fun b => signedTotal b <> 0%Z) open
      /\ (List.length open <= 1)%nat.
Proof.
  induction groupFills as [|fill rest IH]; intros position currentFills Hp Hn; simpl.
  - destruct currentFills as [|f l].
    + exists [], []. simpl. repeat split; [constructor | constructor | lia].
    + exists [], [f :: l]. simpl. repeat split; [constructor | | lia].
      constructor; [|constructor].
      rewrite <- Hp. apply Hn. discriminate.
  - assert (L : (0 <? List.length (currentFills ++ [fill]))%nat = true).
    { apply Nat.ltb_lt. rewrite length_app. simpl. lia. }
    rewrite L, andb_true_r.
    assert (Hp' : applyFill position fill = signedTotal (currentFills ++ [fill])).
    { rewrite applyFill_signedQty, signedTotal_snoc, Hp. reflexivity. }
    destruct (applyFill position fill =? 0)%Z eqn:Z0.
    + apply Z.eqb_eq in Z0.
      destruct (IH (applyFill position fill) []) as [closed [open [E [C [O Len]]]]].
      * rewrite Z0. reflexivity.
      * congruence.
      * exists ((currentFills ++ [fill]) :: closed), open. simpl. rewrite E.
        repeat split; try assumption.
        constructor; [congruence | exact C].
    + apply Z.eqb_neq in Z0.
      apply (IH (applyFill position fill) (currentFills ++ [fill]) Hp').
      intros _. exact Z0.
Qed.

Lemma buildRoundTrip_nonempty (fills : list Fill.t) (date symbol : string)
      (sourceDir : option (list string)) (trainingPrefix : option string) :
  fills <> [] -> exists rt, buildRoundTrip fills date symbol sourceDir trainingPrefix = Some rt.
Proof.
  destruct fills as [|f l]; [congruence|]. intros _. eexists. reflexivity.
Qed.

Lemma buildSegment_segments (date symbol : string) (sourceDir : option (list string))
      (trainingPrefix : string) (segs : list Segment) :
  Forall (fun seg : Segment => fst seg <> []) segs ->
  map fst (flat_map (buildSegment date symbol sourceDir trainingPrefix) segs) = segs.
Proof.
  induction 1 as [|seg segs N _ IH]; [reflexivity|].
  rewrite flat_map_cons_eq, map_app, IH. unfold buildSegment.
  destruct (buildRoundTrip_nonempty (fst seg) date symbol sourceDir
              (if snd seg then Some trainingPrefix else None) N) as [rt ->].
  reflexivity.
Qed.

Lemma tracedGroup_segments (date symbol : string) (sourceDir : option (list string))
      (trainingPrefix : string) (groupFills : list Fill.t) :
  map fst (tracedGroup date symbol sourceDir trainingPrefix groupFills)
  = closeSegments 0%Z [] groupFills.
Proof. apply buildSegment_segments, closeSegments_nonempty. Qed.

(* ------------------------------------------------------------------------- *)
(** ** From the input fills to the traced round trips *)

Lemma Permutation_concat {A : Type} (l l' : list (list A)) :
  Permutation l l' -> Permutation (List.concat l) (List.concat l').
Proof.
  induction 1; simpl.
  - constructor.
  - apply Permutation_app_head. assumption.
  - rewrite !app_assoc. apply Permutation_app_tail, Permutation_app_comm.
  - etransitivity; eassumption.
Qed.

Lemma groupFills_concat (sorted : list Fill.t) :
  Permutation (List.concat (map snd (groupFills sorted))) sorted.
Proof.
  rewrite groupFills_pushAll.
  eapply Permutation_trans; [apply pushAll_concat|]. simpl.
  induction sorted as [|f l IH]; simpl; constructor. exact IH.
Qed.

Lemma groupFills_keys_NoDup (sorted : list Fill.t) : NoDup (map fst (groupFills sorted)).
Proof. rewrite groupFills_pushAll. apply pushAll_keys_NoDup. constructor. Qed.

Lemma groupFills_allStored (P : string -> Fill.t -> Prop) (sorted : list Fill.t) :
  Forall (fun f => P (groupKey f) f) sorted -> allStored P (groupFills sorted).
Proof.
  intro H. rewrite groupFills_pushAll. apply pushAll_allStored; [constructor|].
  eapply Forall_impl; [|exact H]. intros f Hf. constructor; [exact Hf | constructor].
Qed.

Lemma sortFills_Permutation (fills : list Fill.t) : Permutation (sortFills fills) fills.
Proof. apply js_sort_Permutation. Qed.

Lemma group_segments_fills (groups : list (string * list Fill.t)) :
  List.concat (map fst (flat_map (fun g => closeSegments 0%Z [] (snd g)) groups))
  = List.concat (map snd groups).
Proof.
  induction groups as [|g groups IH]; [reflexivity|].
  rewrite flat_map_cons_eq, map_app, List.concat_app, IH, closeSegments_concat.
  reflexivity.
Qed.

Lemma traced_blocks_segments (date : string) (m : list (string * list Traced)) :
  Permutation
    (map fst (flat_map (fun sr : string * list Traced =>
                          tracedAssignIds date (fst sr) 0 (js_sort tracedCompare (snd sr))) m))
    (map fst (List.concat (map snd m))).
Proof.
  induction m as [|[k v] m IH]; [constructor|].
  rewrite flat_map_cons_eq. simpl. rewrite !map_app.
  apply Permutation_app; [|exact IH].
  rewrite tracedAssignIds_segments.
  apply Permutation_map, js_sort_Permutation.
Qed.

Lemma traced_groups_segments (date : string) (sourceDir : option (list string))
      (trainingPrefix : string) (groups : list (string * list Fill.t)) :
  map fst (flat_map (fun g => tracedGroup date (keySymbol (fst g)) sourceDir
                                 trainingPrefix (snd g)) groups)
  = flat_map (fun g => closeSegments 0%Z [] (snd g)) groups.
Proof.
  induction groups as [|g groups IH]; [reflexivity|].
  rewrite !flat_map_cons_eq, map_app, IH, tracedGroup_segments. reflexivity.
Qed.

(** The buffers behind the emitted round trips are the buffers the inner
    loop closes, over all groups. *)
Lemma traced_segments (fills : list Fill.t) (date : string)
      (sourceDir : option (list string)) (trainingPrefix : option string) :
  Permutation (map fst (tracedRoundTrips fills date sourceDir trainingPrefix))
              (flat_map (fun g => closeSegments 0%Z [] (snd g))
                        (groupFills (sortFills fills))).
Proof.
  unfold tracedRoundTrips. cbv zeta.
  eapply Permutation_trans; [apply Permutation_map, js_sort_Permutation|].
  eapply Permutation_trans; [apply traced_blocks_segments|].
  rewrite tracedBySymbol_pushAll.
  eapply Permutation_trans; [apply Permutation_map, pushAll_concat|].
  simpl. rewrite traced_groups_segments. apply Permutation_refl.
Qed.

Lemma segmentFills_fst (trs : list Traced) : segmentFills trs = map fst (map fst trs).
Proof. unfold segmentFills. rewrite map_map. reflexivity. Qed.

(** Every input fill lies in exactly one buffer. *)
Lemma traced_fills (fills : list Fill.t) (date : string)
      (sourceDir : option (list string)) (trainingPrefix : option string) :
  Permutation
    (List.concat (segmentFills (tracedRoundTrips fills date sourceDir trainingPrefix)))
    fills.
Proof.
  rewrite segmentFills_fst.
  eapply Permutation_trans;
    [apply Permutation_concat, Permutation_map, traced_segments|].
  rewrite group_segments_fills.
  eapply Permutation_trans; [apply groupFills_concat | apply sortFills_Permutation].
Qed.

(** *** What a traced round trip records of its buffer *)

Lemma with_id_same (rt : RoundTrip.t) : RoundTrip.with_id (RoundTrip.id rt) rt = rt.
Proof. destruct rt. reflexivity. Qed.

Lemma with_id_twice (a b : string) (rt : RoundTrip.t) :
  RoundTrip.with_id a (RoundTrip.with_id b rt) = RoundTrip.with_id a rt.
Proof. reflexivity. Qed.

Lemma buildSegment_builtFrom (date symbol : string) (sourceDir : option (list string))
      (trainingPrefix : string) (segs : list Segment) :
  Forall (builtFrom date sourceDir trainingPrefix symbol)
         (flat_map (buildSegment date symbol sourceDir trainingPrefix) segs).
Proof.
  induction segs as [|seg segs IH]; [constructor|].
  rewrite flat_map_cons_eq. apply Forall_app. split; [|exact IH].
  unfold buildSegment.
  destruct (buildRoundTrip (fst seg) date symbol sourceDir
              (if snd seg then Some trainingPrefix else None)) as [rt|] eqn:E;
    constructor; [|constructor].
  exists (RoundTrip.id rt), rt. simpl. split; [exact E | symmetry; apply with_id_same].
Qed.

Lemma tracedBySymbol_builtFrom (date : string) (sourceDir : option (list string))
      (trainingPrefix : string) (groups : list (string * list Fill.t)) :
  allStored (builtFrom date sourceDir trainingPrefix)
            (tracedBySymbol date sourceDir trainingPrefix groups).
Proof.
  rewrite tracedBySymbol_pushAll. apply pushAll_allStored; [constructor|].
  apply Forall_forall. intros g _. apply buildSegment_builtFrom.
Qed.

Lemma tracedAssignIds_builtFrom (date : string) (sourceDir : option (list string))
      (trainingPrefix symbol : string) (rts : list Traced) :
  Forall (builtFrom date sourceDir trainingPrefix symbol) rts ->
  forall i, Forall (builtFrom date sourceDir trainingPrefix symbol)
                   (tracedAssignIds date symbol i rts).
Proof.
  induction 1 as [|[seg rt] rts [idv [rt0 [B E]]] _ IH]; intro i; simpl; constructor.
  - simpl in *. eexists _, rt0. split; [exact B|]. simpl. rewrite E. apply with_id_twice.
  - apply IH.
Qed.

Lemma traced_builtFrom (fills : list Fill.t) (date : string)
      (sourceDir : option (list string)) (trainingPrefix : option string) :
  Forall (fun tr => exists symbol,
              builtFrom date sourceDir (defaulted trainingPrefix) symbol tr)
         (tracedRoundTrips fills date sourceDir trainingPrefix).
Proof.
  unfold tracedRoundTrips. cbv zeta. fold (defaulted trainingPrefix).
  apply (Permutation_Forall (Permutation_sym (js_sort_Permutation _ _))).
  pose proof (tracedBySymbol_builtFrom date sourceDir (defaulted trainingPrefix)
                (groupFills (sortFills fills))) as H.
  induction H as [|[k v] m Hv _ IH]; [constructor|].
  rewrite flat_map_cons_eq. apply Forall_app. split; [|exact IH].
  simpl in *.
  eapply Forall_impl; [intros tr Htr; exists k; exact Htr|].
  apply tracedAssignIds_builtFrom.
  apply (Permutation_Forall (Permutation_sym (js_sort_Permutation _ _))), Hv.
Qed.

Lemma builtFrom_fields (date : string) (sourceDir : option (list string))
      (trainingPrefix symbol : string) (tr : Traced) :
  builtFrom date sourceDir trainingPrefix symbol tr ->
  fst (fst tr) <> []
  /\ RoundTrip.ticker (snd tr) = symbol
  /\ RoundTrip.fills (snd tr) = List.length (fst (fst tr))
  /\ RoundTrip.pnl (snd tr) = round2 (sumPnl (fst (fst tr)))
  /\ RoundTrip.net_pnl (snd tr) = round2 (round2 (sumPnl (fst (fst tr))))
  /\ RoundTrip.entry_time (snd tr) = Fill.time (hd (Fill.mk "" "" "" 0 0 "" "" "" 0 0) (fst (fst tr)))
  /\ RoundTrip.accounts (snd tr) = unique (map Fill.account (fst (fst tr)))
  /\ RoundTrip.account_type (snd tr)
     = classify (if snd (fst tr) then trainingPrefix else defaultTrainingPrefix)
                (unique (map Fill.account (fst (fst tr)))).
Proof.
  destruct tr as [[buf closed] rt]. simpl. intros [idv [rt0 [B E]]]. simpl in *.
  subst rt. destruct buf as [|f l]; [discriminate B|].
  unfold buildRoundTrip in B. cbv zeta in B.
  apply (f_equal (fun o => match o with Some x => x | None => rt0 end)) in B.
  cbv beta iota in B. subst rt0.
  destruct closed; repeat split; discriminate.
Qed.

(* ------------------------------------------------------------------------- *)
(** ** Reconstruction: partition, conservation, closure *)

Lemma traced_fills_count (trs : list Traced) :
  Forall (fun tr : Traced => RoundTrip.fills (snd tr) = List.length (fst (fst tr))) trs ->
  list_sum (map RoundTrip.fills (map snd trs)) = List.length (List.concat (segmentFills trs)).
Proof.
  intro H. rewrite length_concat. f_equal.
  unfold segmentFills. rewrite !map_map.
  induction H as [|tr trs E _ IH]; simpl; [reflexivity|].
  rewrite E, IH. reflexivity.
Qed.

(** C10.  The buffers behind the emitted round trips partition the input:
    none is empty, together they hold every input fill exactly once, each
    round trip records the size of its buffer in [fills], so these sizes
    add up to the number of input fills; no fills give no round trips. *)
Theorem reconstruction_partitions_fills (fills : list Fill.t) (date : string)
        (sourceDir : option (list string)) (trainingPrefix : option string) :
  let traced := tracedRoundTrips fills date sourceDir trainingPrefix in
  let out := groupFillsIntoRoundTrips fills date sourceDir trainingPrefix in
  map snd traced = out
  /\ Forall (fun tr : Traced =>
               fst (fst tr) <> []
               /\ RoundTrip.fills (snd tr) = List.length (fst (fst tr))) traced
  /\ Permutation (List.concat (segmentFills traced)) fills
  /\ list_sum (map RoundTrip.fills out) = List.length fills
  /\ groupFillsIntoRoundTrips [] date sourceDir trainingPrefix = [].
Proof.
  cbv zeta.
  pose proof (tracedRoundTrips_erase fills date sourceDir trainingPrefix) as E.
  pose proof (traced_fills fills date sourceDir trainingPrefix) as P.
  assert (F : Forall (fun tr : Traced =>
                        fst (fst tr) <> []
                        /\ RoundTrip.fills (snd tr) = List.length (fst (fst tr)))
                     (tracedRoundTrips fills date sourceDir trainingPrefix)).
  { eapply Forall_impl; [|apply traced_builtFrom].
    intros tr [symbol B]. apply builtFrom_fields in B.
    destruct B as [N [_ [L _]]]. split; assumption. }
  repeat split; try assumption.
  - rewrite <- E, traced_fills_count.
    + apply Permutation_length, P.
    + eapply Forall_impl; [|exact F]. intros tr [_ L]. exact L.
Qed.

Lemma Qsum_map_ext {A : Type} (f g : A -> Q) (l : list A) :
  Forall (fun x => f x == g x)%Q l -> (Qsum (map f l) == Qsum (map g l))%Q.
Proof.
  induction 1 as [|x l E _ IH]; simpl; [reflexivity|].
  rewrite E, IH. reflexivity.
Qed.

Lemma Qsum_concat {A : Type} (f : A -> Q) (ls : list (list A)) :
  (Qsum (map (fun l => Qsum (map f l)) ls) == Qsum (map f (List.concat ls)))%Q.
Proof.
  induction ls as [|l ls IH]; simpl; [reflexivity|].
  rewrite map_app, Qsum_app, IH. reflexivity.
Qed.

Lemma wholeCents_Qsum (l : list Q) : Forall wholeCents l -> wholeCents (Qsum l).
Proof.
  induction 1; simpl; [apply wholeCents_0 | apply wholeCents_plus; assumption].
Qed.

Lemma Forall_conj {A : Type} (P Q : A -> Prop) (l : list A) :
  Forall P l -> Forall Q l -> Forall (fun a => P a /\ Q a) l.
Proof.
  intros HP HQ. rewrite Forall_forall in *. intros a Ha. split; auto.
Qed.

Lemma Forall_concat_inv {A : Type} (P : A -> Prop) (ls : list (list A)) :
  Forall P (List.concat ls) -> Forall (Forall P) ls.
Proof.
  induction ls as [|l ls IH]; simpl; intro H; constructor.
  - apply Forall_app in H. tauto.
  - apply IH. apply Forall_app in H. tauto.
Qed.

Lemma Double_buildRoundTrip_pnl (fills : list Fill.t) (date symbol : string)
      (sourceDir : option (list string)) (trainingPrefix : option string) :
  fills <> [] ->
  exists d,
    Double.buildRoundTrip fills date symbol sourceDir trainingPrefix = Some d
    /\ Double.RoundTrip.pnl d
       = Double.round2 (Double.sum (map (fun f => Double.ofQ (Fill.pnl f)) fills))
    /\ Double.RoundTrip.net_pnl d = Double.round2 (Double.RoundTrip.pnl d).
Proof.
  intro N. destruct fills as [|first rest]; [congruence|].
  eexists. split; [reflexivity|].
  cbn [Double.RoundTrip.pnl Double.RoundTrip.net_pnl]. split; [|reflexivity].
  unfold Double.sumPnl, Double.sum. f_equal.
  apply (fold_left_mapped Double.add (fun f => Double.ofQ (Fill.pnl f))).
Qed.

(** C1 (as amended).  The buffers of the emitted round trips hold every
    input fill once, and the profit the program gives the round trip
    built from a buffer is its [round2], on doubles, of the sum of the
    profits the fills of the buffer report.  When every fill reports a
    whole number of cents, that profit is the exact sum, and the net
    profits of the round trips add up to the rounded sum of the reported
    profits of all input fills, which is their exact sum too. *)
Theorem pnl_conservation_per_round_trip (fills : list Fill.t) (date : string)
        (sourceDir : option (list string)) (trainingPrefix : option string) :
  let traced := tracedRoundTrips fills date sourceDir trainingPrefix in
  let out := groupFillsIntoRoundTrips fills date sourceDir trainingPrefix in
  map snd traced = out
  /\ Permutation (List.concat (segmentFills traced)) fills
  /\ Forall (fun tr : Traced =>
               exists d,
                 Double.buildRoundTrip (fst (fst tr)) date (RoundTrip.ticker (snd tr))
                   sourceDir
                   (if snd (fst tr) then Some (defaulted trainingPrefix) else None)
                 = Some d
                 /\ Double.RoundTrip.pnl d
                    = Double.round2
                        (Double.sum (map (fun f => Double.ofQ (Fill.pnl f)) (fst (fst tr))))
                 /\ Double.RoundTrip.net_pnl d = Double.round2 (Double.RoundTrip.pnl d))
            traced
  /\ (Forall (fun f => wholeCents (Fill.pnl f)) fills ->
      Forall (fun tr : Traced =>
                (RoundTrip.pnl (snd tr) == round2 (Qsum (map Fill.pnl (fst (fst tr)))))%Q
                /\ (RoundTrip.pnl (snd tr) == Qsum (map Fill.pnl (fst (fst tr))))%Q
                /\ (RoundTrip.net_pnl (snd tr) == RoundTrip.pnl (snd tr))%Q)
             traced
      /\ (Qsum (map RoundTrip.net_pnl out) == round2 (Qsum (map Fill.pnl fills)))%Q
      /\ (Qsum (map RoundTrip.net_pnl out) == Qsum (map Fill.pnl fills))%Q).
Proof.
  cbv zeta.
  pose proof (tracedRoundTrips_erase fills date sourceDir trainingPrefix) as E.
  pose proof (traced_fills fills date sourceDir trainingPrefix) as P.
  split; [exact E|]. split; [exact P|].
  split.
  { eapply Forall_impl; [|apply traced_builtFrom].
    intros tr [symbol B]. apply builtFrom_fields in B.
    apply Double_buildRoundTrip_pnl, B. }
  intro C.
  assert (W : forall l, Forall (fun f => wholeCents (Fill.pnl f)) l ->
                        wholeCents (Qsum (map Fill.pnl l))).
  { intros l H. apply wholeCents_Qsum. apply Forall_map. exact H. }
  assert (Cs : Forall (fun tr : Traced =>
                         Forall (fun f => wholeCents (Fill.pnl f)) (fst (fst tr)))
                      (tracedRoundTrips fills date sourceDir trainingPrefix)).
  { pose proof (Forall_concat_inv _ _
                  (Permutation_Forall (Permutation_sym P) C)) as H.
    unfold segmentFills in H. rewrite Forall_map in H. exact H. }
  assert (T : Forall (fun tr : Traced =>
                (RoundTrip.pnl (snd tr) == round2 (Qsum (map Fill.pnl (fst (fst tr)))))%Q
                /\ (RoundTrip.pnl (snd tr) == Qsum (map Fill.pnl (fst (fst tr))))%Q
                /\ (RoundTrip.net_pnl (snd tr) == RoundTrip.pnl (snd tr))%Q)
             (tracedRoundTrips fills date sourceDir trainingPrefix)).
  { pose proof (Forall_conj _ _ _ (traced_builtFrom fills date sourceDir trainingPrefix) Cs)
      as H.
    eapply Forall_impl; [|exact H].
    intros tr [[symbol B] Wb]. apply builtFrom_fields in B.
    destruct B as [_ [_ [_ [Pn [Nn _]]]]]. rewrite Nn, Pn.
    assert (R : (round2 (sumPnl (fst (fst tr)))
                 == round2 (Qsum (map Fill.pnl (fst (fst tr)))))%Q)
      by (apply round2_comp, sumPnl_Qsum).
    split; [exact R|]. split.
    - rewrite R. apply round2_wholeCents, W, Wb.
    - apply round2_idempotent. }
  assert (S : (Qsum (map RoundTrip.net_pnl
                       (groupFillsIntoRoundTrips fills date sourceDir trainingPrefix))
               == Qsum (map Fill.pnl fills))%Q).
  { rewrite <- E, map_map.
    rewrite <- (Qsum_Permutation _ _ (Permutation_map Fill.pnl P)).
    rewrite <- Qsum_concat. unfold segmentFills. rewrite map_map.
    apply Qsum_map_ext. eapply Forall_impl; [|exact T].
    intros tr [_ [Hp Hn]]. rewrite Hn. exact Hp. }
  split; [exact T|]. split; [|exact S].
  rewrite S. symmetry. apply round2_wholeCents, W, C.
Qed.

(** C1 (as stated) fails: two round trips that each made 0.375 report 0.38
    each, 0.76 in all, while the fills add up to 0.75. *)
Lemma pnl_conservation_fails_on_half_cents :
  ~ (Qsum (map RoundTrip.net_pnl
             (groupFillsIntoRoundTrips halfCentFills "2026-02-10" None (Some "TR")))
     == round2 (Qsum (map Fill.pnl halfCentFills)))%Q.
Proof. unfold Qeq. vm_compute. discriminate. Qed.

Lemma closeSegments_flags (groupFills : list Fill.t) :
  Forall flagMatchesPosition (closeSegments 0%Z [] groupFills).
Proof.
  destruct (closeSegments_closure groupFills 0%Z [] eq_refl)
    as [closed [open [E [C [O _]]]]]; [congruence|].
  rewrite E. apply Forall_app. split; apply Forall_map.
  - exact C.
  - exact O.
Qed.

(** C3.  The buffers behind the emitted round trips are those the inner
    loop cuts the groups into.  The groups have distinct keys, the key of a
    group being the symbol and account of each of its fills.  The buffers
    of one group are, in the order emitted, closed ones, each of signed
    quantity zero, followed by at most one open one; so every emitted round
    trip has signed quantity zero unless it is the open one that ends its
    group. *)
Theorem position_closure (fills : list Fill.t) (date : string)
        (sourceDir : option (list string)) (trainingPrefix : option string) :
  let traced := tracedRoundTrips fills date sourceDir trainingPrefix in
  let groups := groupFills (sortFills fills) in
  map snd traced = groupFillsIntoRoundTrips fills date sourceDir trainingPrefix
  /\ Permutation (map fst traced)
                 (flat_map (fun g => closeSegments 0%Z [] (snd g)) groups)
  /\ NoDup (map fst groups)
  /\ allStored (fun key f => key = (Fill.symbol f ++ "|" ++ Fill.account f)%string) groups
  /\ Forall (fun g => exists closed open,
                 closedThenOpen (closeSegments 0%Z [] (snd g)) closed open
                 /\ Forall (fun b => signedTotal b = 0%Z) closed
                 /\ Forall (fun b => signedTotal b <> 0%Z) open
                 /\ (List.length open <= 1)%nat) groups
  /\ Forall (fun tr : Traced => flagMatchesPosition (fst tr)) traced.
Proof.
  cbv zeta.
  pose proof (traced_segments fills date sourceDir trainingPrefix) as S.
  split; [apply tracedRoundTrips_erase|].
  split; [exact S|].
  split; [apply groupFills_keys_NoDup|].
  split; [apply groupFills_allStored, Forall_forall; reflexivity|].
  split.
  - apply Forall_forall. intros g _.
    destruct (closeSegments_closure (snd g) 0%Z [] eq_refl)
      as [closed [open H]]; [congruence|].
    exists closed, open. exact H.
  - apply Forall_map.
    apply (Permutation_Forall (Permutation_sym S)).
    apply Forall_flat_map. apply Forall_forall. intros g _.
    apply closeSegments_flags.
Qed.

(* ------------------------------------------------------------------------- *)
(** ** Ordering and numbering of the round trips *)


Lemma assignIds_ids (date symbol : string) (rts : list RoundTrip.t) :
  forall i,
    map RoundTrip.id (assignIds date symbol i rts)
    = map (fun n => (date ++ "-" ++ symbol ++ "-" ++ string_of_nat n)%string)
          (seq (i + 1) (List.length rts)).
Proof.
  induction rts as [|rt rts IH]; intro i; simpl; [reflexivity|].
  rewrite IH. replace (S i + 1)%nat with (S (i + 1)) by lia. reflexivity.
Qed.

Lemma assignIds_length (date symbol : string) (rts : list RoundTrip.t) :
  forall i, List.length (assignIds date symbol i rts) = List.length rts.
Proof.
  induction rts as [|rt rts IH]; intro i; simpl; [reflexivity|].
  rewrite IH. reflexivity.
Qed.


Lemma assignIds_ticker (date symbol : string) (rts : list RoundTrip.t) :
  forall i, map RoundTrip.ticker (assignIds date symbol i rts) = map RoundTrip.ticker rts.
Proof.
  induction rts as [|rt rts IH]; intro i; simpl; [reflexivity|].
  rewrite IH. reflexivity.
Qed.


Lemma Forall_map_eq {A B : Type} (P : B -> Prop) (f : A -> B) (l l' : list A) :
  map f l = map f l' -> Forall (fun a => P (f a)) l -> Forall (fun a => P (f a)) l'.
Proof.
  intros E H. apply Forall_map. rewrite <- E. apply Forall_map. exact H.
Qed.

Lemma filter_all {A : Type} (p : A -> bool) (l : list A) :
  Forall (fun a => p a = true) l -> filter p l = l.
Proof.
  induction 1 as [|x l E _ IH]; simpl; [reflexivity|]. rewrite E, IH. reflexivity.
Qed.

Lemma filter_none {A : Type} (p : A -> bool) (l : list A) :
  Forall (fun a => p a = false) l -> filter p l = [].
Proof.
  induction 1 as [|x l E _ IH]; simpl; [reflexivity|]. rewrite E, IH. reflexivity.
Qed.

(** The round trips of one group carry the symbol of the group, and their
    entry times are times of fills of the group. *)
Lemma closeSegments_Forall (P : Fill.t -> Prop) (groupFills : list Fill.t)
      (position : Z) (currentFills : list Fill.t) :
  Forall P (currentFills ++ groupFills) ->
  Forall (fun seg : Segment => Forall P (fst seg))
         (closeSegments position currentFills groupFills).
Proof.
  intro H. rewrite <- (closeSegments_concat groupFills position currentFills) in H.
  apply Forall_concat_inv in H. rewrite Forall_map in H. exact H.
Qed.



Section Blocks.
Variable date : string.





End Blocks.


(* ------------------------------------------------------------------------- *)
(** ** Determinism *)

Lemma buildRoundTrip_with_chart (fills : list Fill.t) (date symbol : string)
      (dir1 dir2 : option (list string)) (trainingPrefix : option string) :
  option_map (RoundTrip.with_chart None)
             (buildRoundTrip fills date symbol dir1 trainingPrefix)
  = option_map (RoundTrip.with_chart None)
               (buildRoundTrip fills date symbol dir2 trainingPrefix).
Proof. destruct fills; reflexivity. Qed.

Lemma buildRoundTrip_same_chart (fills : list Fill.t) (date symbol : string)
      (dir1 dir2 : option (list string)) (trainingPrefix : option string) :
  findChartFile symbol date dir1 = findChartFile symbol date dir2 ->
  buildRoundTrip fills date symbol dir1 trainingPrefix
  = buildRoundTrip fills date symbol dir2 trainingPrefix.
Proof.
  intro H. unfold buildRoundTrip. destruct fills; [reflexivity|].
  cbv zeta. rewrite H. reflexivity.
Qed.

Lemma map_maybe {A B : Type} (f : A -> B) (o : option A) :
  map f (maybe o) = maybe (option_map f o).
Proof. destruct o; reflexivity. Qed.

Lemma closeRoundTrips_with_chart (date symbol : string) (dir1 dir2 : option (list string))
      (trainingPrefix : string) (groupFills : list Fill.t) :
  forall (position : Z) (currentFills : list Fill.t),
    map (RoundTrip.with_chart None)
        (closeRoundTrips date symbol dir1 trainingPrefix position currentFills groupFills)
    = map (RoundTrip.with_chart None)
          (closeRoundTrips date symbol dir2 trainingPrefix position currentFills groupFills).
Proof.
  induction groupFills as [|fill rest IH]; intros position currentFills; simpl.
  - destruct (0 <? List.length currentFills)%nat; [|reflexivity].
    rewrite !map_maybe. f_equal. apply buildRoundTrip_with_chart.
  - destruct ((applyFill position fill =? 0)%Z
              && (0 <? List.length (currentFills ++ [fill]))%nat).
    + rewrite !map_app, !map_maybe, IH. f_equal. f_equal.
      apply buildRoundTrip_with_chart.
    + apply IH.
Qed.

Lemma closeRoundTrips_same_chart (date symbol : string) (dir1 dir2 : option (list string))
      (trainingPrefix : string) (groupFills : list Fill.t) :
  findChartFile symbol date dir1 = findChartFile symbol date dir2 ->
  forall (position : Z) (currentFills : list Fill.t),
    closeRoundTrips date symbol dir1 trainingPrefix position currentFills groupFills
    = closeRoundTrips date symbol dir2 trainingPrefix position currentFills groupFills.
Proof.
  intro H. induction groupFills as [|fill rest IH]; intros position currentFills; simpl.
  - rewrite (buildRoundTrip_same_chart _ _ _ dir1 dir2 _ H). reflexivity.
  - rewrite (buildRoundTrip_same_chart _ _ _ dir1 dir2 _ H), !IH. reflexivity.
Qed.

Lemma assignIds_with_chart (date symbol : string) (rts : list RoundTrip.t) :
  forall i, map (RoundTrip.with_chart None) (assignIds date symbol i rts)
            = assignIds date symbol i (map (RoundTrip.with_chart None) rts).
Proof.
  induction rts as [|rt rts IH]; intro i; simpl; [reflexivity|].
  rewrite IH. reflexivity.
Qed.

Lemma sort_with_chart (rts : list RoundTrip.t) :
  map (RoundTrip.with_chart None) (js_sort compareEntry rts)
  = js_sort compareEntry (map (RoundTrip.with_chart None) rts).
Proof. apply js_sort_map. reflexivity. Qed.

Lemma blocks_with_chart (date : string) (m : list (string * list RoundTrip.t)) :
  map (RoundTrip.with_chart None)
      (flat_map (fun sr : string * list RoundTrip.t =>
                   assignIds date (fst sr) 0 (js_sort compareEntry (snd sr))) m)
  = flat_map (fun sr : string * list RoundTrip.t =>
                assignIds date (fst sr) 0 (js_sort compareEntry (snd sr)))
             (mapValues (RoundTrip.with_chart None) m).
Proof.
  induction m as [|[k v] m IH]; [reflexivity|].
  rewrite flat_map_cons_eq, map_app, IH. simpl.
  rewrite assignIds_with_chart, sort_with_chart. reflexivity.
Qed.

(** C7.  The reconstruction is a function of the fills, the date, the
    training prefix and the chart files found in the source directory.
    Whatever the directory holds, two runs agree on every field but
    [chart], ids and rounded amounts included; they agree on [chart] too
    when the chart lookup finds the same files. *)
Theorem reconstruction_deterministic (fills : list Fill.t) (date : string)
        (trainingPrefix : option string) (dir1 dir2 : option (list string)) :
  map (RoundTrip.with_chart None)
      (groupFillsIntoRoundTrips fills date dir1 trainingPrefix)
  = map (RoundTrip.with_chart None)
        (groupFillsIntoRoundTrips fills date dir2 trainingPrefix)
  /\ ((forall symbol, findChartFile symbol date dir1 = findChartFile symbol date dir2) ->
      groupFillsIntoRoundTrips fills date dir1 trainingPrefix
      = groupFillsIntoRoundTrips fills date dir2 trainingPrefix).
Proof.
  unfold groupFillsIntoRoundTrips. cbv zeta. fold (defaulted trainingPrefix).
  split.
  - rewrite !sort_with_chart, !blocks_with_chart. do 2 f_equal.
    rewrite !collectBySymbol_pushAll, !mapValues_pushAll.
    apply pushAll_ext. intro g. apply closeRoundTrips_with_chart.
  - intro H. do 2 f_equal.
    rewrite !collectBySymbol_pushAll.
    apply pushAll_ext. intro g. apply closeRoundTrips_same_chart, H.
Qed.

(* ------------------------------------------------------------------------- *)
(** ** Account classification *)

Lemma unique_In_acc (xs seen : list string) (a : string) :
  In a (fold_left (fun seen x => if existsb (String.eqb x) seen then seen else seen ++ [x])
                  xs seen)
  <-> In a seen \/ In a xs.
Proof.
  revert seen. induction xs as [|x xs IH]; intro seen; simpl.
  - tauto.
  - rewrite IH. destruct (existsb (String.eqb x) seen) eqn:E.
    + apply existsb_exists in E. destruct E as [y [Hy Exy]].
      apply String.eqb_eq in Exy. subst y.
      split; [tauto|]. intros [H | [<- | H]]; tauto.
    + rewrite in_app_iff. simpl. tauto.
Qed.

Lemma unique_In (xs : list string) (a : string) : In a (unique xs) <-> In a xs.
Proof. unfold unique. rewrite unique_In_acc. simpl. tauto. Qed.

(** The rule of the classifier, in terms of the accounts given to it. *)
Lemma classify_rule (trainingPrefix : string) (accounts : list string) :
  let isTraining a := JsString.startsWith a trainingPrefix = true in
  (classify trainingPrefix accounts = training
   <-> (exists a, In a accounts) /\ (forall a, In a accounts -> isTraining a))
  /\ (classify trainingPrefix accounts = live
      <-> forall a, In a accounts -> ~ isTraining a)
  /\ (classify trainingPrefix accounts = mixed
      <-> (exists a, In a accounts /\ isTraining a)
          /\ (exists a, In a accounts /\ ~ isTraining a)).
Proof.
  cbv zeta. unfold classify.
  assert (NT : existsb (fun a => JsString.startsWith a trainingPrefix) accounts = false ->
               forall a, In a accounts -> JsString.startsWith a trainingPrefix <> true).
  { intros X a Ha E.
    assert (Y : existsb (fun a => JsString.startsWith a trainingPrefix) accounts = true)
      by (apply existsb_exists; exists a; tauto).
    congruence. }
  assert (NL : existsb (fun a => negb (JsString.startsWith a trainingPrefix)) accounts = false ->
               forall a, In a accounts -> JsString.startsWith a trainingPrefix = true).
  { intros X a Ha. destruct (JsString.startsWith a trainingPrefix) eqn:E; [reflexivity|].
    assert (Y : existsb (fun a => negb (JsString.startsWith a trainingPrefix)) accounts = true)
      by (apply existsb_exists; exists a; rewrite E; tauto).
    congruence. }
  destruct (existsb (fun a => JsString.startsWith a trainingPrefix) accounts) eqn:T;
    destruct (existsb (fun a => negb (JsString.startsWith a trainingPrefix)) accounts) eqn:L;
    simpl.
  - apply existsb_exists in T. destruct T as [t [Ht Et]].
    apply existsb_exists in L. destruct L as [l [Hl El]].
    apply negb_true_iff in El.
    split; [split | split; split].
    + discriminate.
    + intros [_ H]. specialize (H l Hl). congruence.
    + discriminate.
    + intro H. exfalso. apply (H t Ht Et).
    + intros _. split; [exists t; tauto | exists l; split; [exact Hl | congruence]].
    + reflexivity.
  - apply existsb_exists in T. destruct T as [t [Ht Et]].
    specialize (NL eq_refl).
    split; [split | split; split].
    + intros _. split; [exists t; exact Ht | exact NL].
    + reflexivity.
    + discriminate.
    + intro H. exfalso. apply (H t Ht Et).
    + discriminate.
    + intros [_ [l [Hl El]]]. exfalso. apply El, NL, Hl.
  - specialize (NT eq_refl).
    split; [split | split; split].
    + discriminate.
    + intros [[a Ha] H]. exfalso. apply (NT a Ha), H, Ha.
    + intros _. exact NT.
    + reflexivity.
    + discriminate.
    + intros [[t [Ht Et]] _]. exfalso. apply (NT t Ht Et).
  - specialize (NT eq_refl).
    split; [split | split; split].
    + discriminate.
    + intros [[a Ha] H]. exfalso. apply (NT a Ha), H, Ha.
    + intros _. exact NT.
    + reflexivity.
    + discriminate.
    + intros [[t [Ht Et]] _]. exfalso. apply (NT t Ht Et).
Qed.

(** The prefix the classification of an emitted round trip goes by: the
    configured one when the round trip closed at a return to zero, the
    default one when it was still open after the loop. *)
Lemma account_type_of_traced (fills : list Fill.t) (date : string)
      (sourceDir : option (list string)) (trainingPrefix : option string) :
  Forall (fun tr : Traced =>
            RoundTrip.account_type (snd tr)
            = classify (if snd (fst tr) then defaulted trainingPrefix
                        else defaultTrainingPrefix)
                       (RoundTrip.accounts (snd tr))
            /\ forall a, In a (RoundTrip.accounts (snd tr))
                         <-> In a (map Fill.account (fst (fst tr))))
         (tracedRoundTrips fills date sourceDir trainingPrefix).
Proof.
  eapply Forall_impl; [|apply traced_builtFrom].
  intros tr [symbol B]. apply builtFrom_fields in B.
  destruct B as [_ [_ [_ [_ [_ [_ [A C]]]]]]].
  rewrite C, A. split; [reflexivity|]. intro a. apply unique_In.
Qed.

(** C2, at the failing input.  With the training prefix configured as SIM,
    a position left open in the account SIM1 is classified live, although
    its only account starts with the prefix; the same position, once
    closed, is classified training. *)
Theorem open_round_trip_ignores_configured_prefix :
  map (fun rt => (RoundTrip.accounts rt, RoundTrip.account_type rt))
      (groupFillsIntoRoundTrips openSimFills "2026-02-10" None (Some "SIM"))
  = [(["SIM1"], live)]
  /\ JsString.startsWith "SIM1" "SIM" = true
  /\ map (fun rt => (RoundTrip.accounts rt, RoundTrip.account_type rt))
         (groupFillsIntoRoundTrips closedSimFills "2026-02-10" None (Some "SIM"))
     = [(["SIM1"], training)].
Proof. repeat split; vm_compute; reflexivity. Qed.

(* ------------------------------------------------------------------------- *)
(** ** The properties at sample inputs *)

Lemma pnl_conservation_witness :
  Forall (fun f => wholeCents (Fill.pnl f)) sampleFills
  /\ (Qsum (map RoundTrip.net_pnl
              (groupFillsIntoRoundTrips sampleFills "2026-02-10" None (Some "TR")))
      == round2 (Qsum (map Fill.pnl sampleFills)))%Q.
Proof.
  assert (C : Forall (fun f => wholeCents (Fill.pnl f)) sampleFills).
  { constructor; [exists 25000%Z; vm_compute; reflexivity|].
    constructor; [exists 0%Z; vm_compute; reflexivity|].
    constructor; [exists 0%Z; vm_compute; reflexivity|].
    constructor. }
  split; [exact C|].
  destruct (pnl_conservation_per_round_trip sampleFills "2026-02-10" None (Some "TR"))
    as [_ [_ [_ H]]].
  destruct (H C) as [_ [R _]]. exact R.
Defined.



Lemma deterministic_witness :
  (forall symbol, findChartFile symbol "2026-02-10" None
                  = findChartFile symbol "2026-02-10" listingWithoutChart)
  /\ groupFillsIntoRoundTrips sampleFills "2026-02-10" None (Some "TR")
     = groupFillsIntoRoundTrips sampleFills "2026-02-10" listingWithoutChart (Some "TR").
Proof.
  assert (F : forall symbol, findChartFile symbol "2026-02-10" None
                             = findChartFile symbol "2026-02-10" listingWithoutChart).
  { intro symbol. unfold findChartFile, listingWithoutChart. simpl find.
    replace (JsString.endsWith "notes.txt" ".jpg") with false by reflexivity.
    replace (JsString.endsWith "notes.txt" ".jpeg") with false by reflexivity.
    replace (JsString.endsWith "notes.txt" ".png") with false by reflexivity.
    rewrite andb_false_r. reflexivity. }
  split; [exact F|].
  destruct (reconstruction_deterministic sampleFills "2026-02-10" (Some "TR")
              None listingWithoutChart) as [_ H].
  exact (H F).
Defined.


Example breakdown_sample :
  let b := computeAccountBreakdown [liveTrade; mixedTrade; trainingTrade] in
  (AccountBreakdown.trades (ByAccount.live b), AccountBreakdown.winners (ByAccount.live b),
   AccountBreakdown.losers (ByAccount.live b), AccountBreakdown.trades (ByAccount.training b))
  = (2%nat, 1%nat, 1%nat, 1%nat)
  /\ (AccountBreakdown.pnl (ByAccount.live b) == 50)%Q
  /\ (AccountBreakdown.win_rate (ByAccount.live b) == 50)%Q.
Proof. repeat split; vm_compute; reflexivity. Qed.

(** The scenarios of the design document. *)
Example scenario_long_trade :
  map (fun rt => (RoundTrip.side rt, RoundTrip.total_shares rt, RoundTrip.fills rt,
                  RoundTrip.duration_mins rt, RoundTrip.account_type rt))
      (groupFillsIntoRoundTrips [sampleExit; sampleEntry] "2026-02-10" None (Some "TR"))
  = [(long, 100%Z, 2%nat, Some 15%Z, live)].
Proof. vm_compute. reflexivity. Qed.

Example scenario_open_position :
  map (fun rt => (RoundTrip.total_shares rt, RoundTrip.exit_avg rt, RoundTrip.fills rt))
      (groupFillsIntoRoundTrips [sampleEntry] "2026-02-10" None (Some "TR"))
  = [(100%Z, 0%Q, 1%nat)].
Proof. vm_compute. reflexivity. Qed.

Example scenario_two_accounts :
  map (fun rt => (RoundTrip.id rt, RoundTrip.accounts rt, RoundTrip.account_type rt))
      (groupFillsIntoRoundTrips sampleFills "2026-02-10" None (Some "TR"))
  = [("2026-02-10-AAPL-1", ["A1"], live); ("2026-02-10-AAPL-2", ["TR1"], training)].
Proof. vm_compute. reflexivity. Qed.

Example scenario_chart :
  map RoundTrip.chart
      (groupFillsIntoRoundTrips [sampleEntry; sampleExit] "2026-02-10" listingWithChart
         (Some "TR"))
  = [Some "aapl-2026-02-10.png"].
Proof. vm_compute. reflexivity. Qed.

(* ------------------------------------------------------------------------- *)
(** ** Rounding to cents *)

Lemma round2_bounds (x : Q) :
  (x - (1 # 200) < round2 x)%Q /\ (round2 x <= x + (1 # 200))%Q.
Proof.
  unfold round2, JsNumber.Math_round.
  pose proof (Qfloor_le (x * 100 + (1 # 2))) as L.
  pose proof (Qlt_floor (x * 100 + (1 # 2))) as U.
  rewrite inject_Z_plus in U. change (inject_Z 1) with 1%Q in U.
  set (k := inject_Z (Qfloor (x * 100 + (1 # 2)))) in *.
  split.
  - apply Qlt_shift_div_l; [reflexivity|]. lra.
  - apply Qle_shift_div_r; [reflexivity|]. lra.
Qed.

Lemma round2_monotone (x y : Q) : (x <= y)%Q -> (round2 x <= round2 y)%Q.
Proof.
  intro H. unfold round2, JsNumber.Math_round.
  apply Qmult_le_compat_r; [|discriminate].
  rewrite <- Zle_Qle. apply Qfloor_resp_le. lra.
Qed.

Lemma round2_tie (z : Z) :
  (round2 (inject_Z z / 100 + (1 # 200)) == inject_Z (z + 1) / 100)%Q.
Proof.
  unfold round2.
  assert (E : ((inject_Z z / 100 + (1 # 200)) * 100 == inject_Z z + (1 # 2))%Q) by field.
  unfold JsNumber.Math_round.
  rewrite (Qfloor_comp _ (inject_Z (z + 1))).
  - rewrite Qfloor_Z. reflexivity.
  - rewrite E, inject_Z_plus. change (inject_Z 1) with 1%Q. lra.
Qed.

Lemma round2_0 : (round2 0 == 0)%Q.
Proof. reflexivity. Qed.

Lemma round2_nonneg (x : Q) : (0 <= x)%Q -> (0 <= round2 x)%Q.
Proof. intro H. rewrite <- round2_0. apply round2_monotone, H. Qed.

Lemma round2_nonpos (x : Q) : (x <= 0)%Q -> (round2 x <= 0)%Q.
Proof. intro H. rewrite <- round2_0. apply round2_monotone, H. Qed.

Lemma Math_round_bounds (x : Q) :
  (x - (1 # 2) < inject_Z (JsNumber.Math_round x))%Q
  /\ (inject_Z (JsNumber.Math_round x) <= x + (1 # 2))%Q.
Proof.
  unfold JsNumber.Math_round.
  pose proof (Qfloor_le (x + (1 # 2))) as L.
  pose proof (Qlt_floor (x + (1 # 2))) as U.
  rewrite inject_Z_plus in U. change (inject_Z 1) with 1%Q in U.
  split; lra.
Qed.

Lemma Math_round_nonneg (x : Q) : (0 <= x)%Q -> (0 <= JsNumber.Math_round x)%Z.
Proof.
  intro H. unfold JsNumber.Math_round.
  change 0%Z with (Qfloor 0). apply Qfloor_resp_le. lra.
Qed.

Lemma Math_round_nonpos (x : Q) : (x <= 0)%Q -> (JsNumber.Math_round x <= 0)%Z.
Proof.
  intro H. unfold JsNumber.Math_round.
  change 0%Z with (Qfloor (1 # 2)). apply Qfloor_resp_le. lra.
Qed.


(* ------------------------------------------------------------------------- *)
(** ** Invariants of a built round trip *)

Lemma buildRoundTrip_eq (first : Fill.t) (rest : list Fill.t) (date symbol : string)
      (sourceDir : option (list string)) (trainingPrefix : option string) :
  let fills := first :: rest in
  let side := if isBuy first then long else short in
  buildRoundTrip fills date symbol sourceDir trainingPrefix
  = Some (RoundTrip.mk "" symbol side
            (vwap (entryFills side fills)) (vwap (exitFills side fills))
            (Z.max (shares (entryFills side fills)) (shares (exitFills side fills)))
            (round2 (sumPnl fills)) (round2 (sumFees fills))
            (round2 (round2 (sumPnl fills))) (List.length fills)
            (Fill.time first) (Fill.time (last fills first))
            (option_map (fun d => Z.max d 0)
               match timeToMinutes (Fill.time (last fills first)),
                     timeToMinutes (Fill.time first) with
               | Some x, Some e => Some (JsNumber.Math_round (x - e))
               | _, _ => None
               end)
            (unique (map Fill.account fills))
            (classify (defaulted trainingPrefix) (unique (map Fill.account fills)))
            None None (findChartFile symbol date sourceDir)).
Proof. reflexivity. Qed.

Lemma built_inv (fills : list Fill.t) (date symbol : string)
      (sourceDir : option (list string)) (trainingPrefix : option string)
      (rt : RoundTrip.t) :
  buildRoundTrip fills date symbol sourceDir trainingPrefix = Some rt ->
  exists first rest,
    fills = first :: rest
    /\ Some rt = buildRoundTrip (first :: rest) date symbol sourceDir trainingPrefix.
Proof.
  destruct fills as [|first rest]; [discriminate|].
  intro H. exists first, rest. split; [reflexivity | symmetry; exact H].
Qed.

Lemma sumFees_nonneg (fills : list Fill.t) : (0 <= sumFees fills)%Q.
Proof.
  unfold sumFees. rewrite fold_left_Qplus.
  induction fills as [|f l IH]; simpl.
  - lra.
  - pose proof (Qabs_nonneg (Fill.ecnFee f)). lra.
Qed.

Lemma vwap_wholeCents (fills : list Fill.t) : wholeCents (vwap fills).
Proof.
  unfold vwap. destruct (0 <? shares fills)%Z.
  - apply round2_is_wholeCents.
  - apply wholeCents_0.
Qed.

Lemma sumFees_Qsum (fills : list Fill.t) :
  (sumFees fills == Qsum (map (fun f => Qabs (Fill.ecnFee f)) fills))%Q.
Proof. unfold sumFees. rewrite fold_left_Qplus. ring. Qed.

Lemma wholeCents_abs (q : Q) : wholeCents q -> wholeCents (Qabs q).
Proof.
  intros [z Hz]. exists (Z.abs z). rewrite Hz.
  destruct (Z_le_gt_dec 0 z) as [P|N].
  - rewrite Z.abs_eq by exact P. apply Qabs_pos.
    assert (I : (0 <= inject_Z z)%Q) by (change 0%Q with (inject_Z 0); rewrite <- Zle_Qle; exact P).
    unfold Qdiv. change (/ 100)%Q with (1 # 100)%Q. lra.
  - rewrite Z.abs_neq by lia. rewrite inject_Z_opp.
    assert (I : (inject_Z z <= 0)%Q) by (change 0%Q with (inject_Z 0); rewrite <- Zle_Qle; lia).
    rewrite Qabs_neg by (unfold Qdiv; change (/ 100)%Q with (1 # 100)%Q; lra).
    field.
Qed.

(** X2.  In a round trip built from a non-empty list of fills, every
    amount is a whole number of cents, the net profit equals the gross
    profit (the fees are reported, never subtracted) and the fees are not
    negative whatever the sign of the fees of the fills.  When the fills
    report profits in whole cents, the gross profit is their sum; when
    their fees are whole cents, the fees are the sum of the absolute
    fees. *)
Theorem built_round_trip_amounts (fills : list Fill.t) (date symbol : string)
        (sourceDir : option (list string)) (trainingPrefix : option string)
        (rt : RoundTrip.t) :
  buildRoundTrip fills date symbol sourceDir trainingPrefix = Some rt ->
  (RoundTrip.net_pnl rt == RoundTrip.pnl rt)%Q
  /\ (0 <= RoundTrip.fees rt)%Q
  /\ wholeCents (RoundTrip.pnl rt) /\ wholeCents (RoundTrip.net_pnl rt)
  /\ wholeCents (RoundTrip.fees rt)
  /\ wholeCents (RoundTrip.entry_avg rt) /\ wholeCents (RoundTrip.exit_avg rt)
  /\ (Forall (fun f => wholeCents (Fill.pnl f)) fills ->
      (RoundTrip.pnl rt == Qsum (map Fill.pnl fills))%Q)
  /\ (Forall (fun f => wholeCents (Fill.ecnFee f)) fills ->
      (RoundTrip.fees rt == Qsum (map (fun f => Qabs (Fill.ecnFee f)) fills))%Q).
Proof.
  intro B. destruct (built_inv _ _ _ _ _ _ B) as [first [rest [-> E]]].
  rewrite buildRoundTrip_eq in E. cbv zeta in E.
  apply (f_equal (fun o => match o with Some r => r | None => rt end)) in E.
  cbv beta iota in E. subst rt.
  cbn [RoundTrip.net_pnl RoundTrip.pnl RoundTrip.fees RoundTrip.entry_avg
       RoundTrip.exit_avg].
  split; [apply round2_idempotent|].
  split; [apply round2_nonneg, sumFees_nonneg|].
  split; [apply round2_is_wholeCents|].
  split; [apply round2_is_wholeCents|].
  split; [apply round2_is_wholeCents|].
  split; [apply vwap_wholeCents|].
  split; [apply vwap_wholeCents|].
  split.
  - intro W. rewrite (round2_comp _ _ (sumPnl_Qsum _)).
    apply round2_wholeCents, wholeCents_Qsum, Forall_map, W.
  - intro W. rewrite (round2_comp _ _ (sumFees_Qsum _)).
    apply round2_wholeCents, wholeCents_Qsum, Forall_map.
    eapply Forall_impl; [|exact W]. intros f Hf. apply wholeCents_abs, Hf.
Qed.

(** X3.  The duration of a built round trip is undefined exactly when
    the time of its first or of its last fill does not parse.  Otherwise
    it is a whole number of minutes that is never negative: 0 when the
    last fill is not later than the first, and within half a minute of the
    time from the first to the last fill when it is. *)
Theorem built_round_trip_duration (first : Fill.t) (rest : list Fill.t)
        (date symbol : string) (sourceDir : option (list string))
        (trainingPrefix : option string) (rt : RoundTrip.t) :
  buildRoundTrip (first :: rest) date symbol sourceDir trainingPrefix = Some rt ->
  let final := last (first :: rest) first in
  (RoundTrip.duration_mins rt = None
   <-> ~ parsesTime (Fill.time first) \/ ~ parsesTime (Fill.time final))
  /\ (forall d, RoundTrip.duration_mins rt = Some d -> (0 <= d)%Z)
  /\ (forall e x, timeToMinutes (Fill.time first) = Some e ->
                  timeToMinutes (Fill.time final) = Some x ->
                  exists d,
                    RoundTrip.duration_mins rt = Some d
                    /\ ((x <= e)%Q -> d = 0%Z)
                    /\ ((e <= x)%Q ->
                        (x - e - (1 # 2) <= inject_Z d)%Q
                        /\ (inject_Z d <= x - e + (1 # 2))%Q)).
Proof.
  intro B. cbv zeta. rewrite buildRoundTrip_eq in B. cbv zeta in B.
  set (final := last (first :: rest) first) in *.
  apply (f_equal (fun o => match o with Some r => r | None => rt end)) in B.
  cbv beta iota in B. subst rt. cbn [RoundTrip.duration_mins]. unfold parsesTime.
  destruct (timeToMinutes (Fill.time final)) as [x|];
    destruct (timeToMinutes (Fill.time first)) as [e|]; cbn [option_map].
  - split; [|split].
    + split; [intro H; discriminate H | intros [H|H]; exfalso; apply H; discriminate].
    + intros d H. injection H as <-. lia.
    + intros e' x' He Hx. injection He as <-. injection Hx as <-.
      exists (Z.max (JsNumber.Math_round (x - e)) 0). split; [reflexivity|]. split.
      * intro Le. apply Z.max_r, Math_round_nonpos. lra.
      * intro Le. rewrite Z.max_l by (apply Math_round_nonneg; lra).
        pose proof (Math_round_bounds (x - e)) as [L U]. split; lra.
  - split; [|split].
    + split; [intros _; left; intro H; apply H; reflexivity | reflexivity].
    + intros d H; discriminate H.
    + intros e' x' He Hx; discriminate.
  - split; [|split].
    + split; [intros _; right; intro H; apply H; reflexivity | reflexivity].
    + intros d H; discriminate H.
    + intros e' x' He Hx; discriminate.
  - split; [|split].
    + split; [intros _; left; intro H; apply H; reflexivity | reflexivity].
    + intros d H; discriminate H.
    + intros e' x' He Hx; discriminate.
Qed.

Lemma signedTotal_split (fills : list Fill.t) :
  signedTotal fills
  = (Zsum (map Fill.qty (filter isBuy fills))
     - Zsum (map Fill.qty (filter (fun f => negb (isBuy f)) fills)))%Z.
Proof.
  unfold signedTotal. induction fills as [|f l IH]; simpl; [reflexivity|].
  rewrite IH. unfold signedQty. destruct (isBuy f); simpl; lia.
Qed.

Lemma sides_split (first : Fill.t) (fills : list Fill.t) :
  (Zsum (map Fill.qty (filter (sameSide first) fills))
   - Zsum (map Fill.qty (filter (fun f => negb (sameSide first f)) fills)))%Z
  = if isBuy first then signedTotal fills else (- signedTotal fills)%Z.
Proof.
  rewrite signedTotal_split. unfold sameSide.
  destruct (isBuy first).
  - rewrite (filter_ext (fun f => Bool.eqb true (isBuy f)) isBuy)
      by (intro f; destruct (isBuy f); reflexivity).
    rewrite (filter_ext (fun f => negb (Bool.eqb true (isBuy f))) (fun f => negb (isBuy f)))
      by (intro f; destruct (isBuy f); reflexivity).
    reflexivity.
  - rewrite (filter_ext (fun f => Bool.eqb false (isBuy f)) (fun f => negb (isBuy f)))
      by (intro f; destruct (isBuy f); reflexivity).
    rewrite (filter_ext (fun f => negb (Bool.eqb false (isBuy f))) isBuy)
      by (intro f; destruct (isBuy f); reflexivity).
    lia.
Qed.

(** X4.  In a round trip built from canonical fills whose signed
    quantities add up to zero, the quantity entered equals the quantity
    exited, and [total_shares] is that quantity. *)
Theorem closed_round_trip_shares
        (first : Fill.t) (rest : list Fill.t) (date symbol : string)
        (sourceDir : option (list string)) (trainingPrefix : option string)
        (rt : RoundTrip.t) :
  Forall canonicalFill (first :: rest) ->
  signedTotal (first :: rest) = 0%Z ->
  buildRoundTrip (first :: rest) date symbol sourceDir trainingPrefix = Some rt ->
  let entry := filter (sameSide first) (first :: rest) in
  let exit := filter (fun f => negb (sameSide first f)) (first :: rest) in
  Zsum (map Fill.qty entry) = Zsum (map Fill.qty exit)
  /\ RoundTrip.total_shares rt = Zsum (map Fill.qty entry)
  /\ (0 < RoundTrip.total_shares rt)%Z.
Proof.
  intros C Z0 B. cbv zeta.
  pose proof (sides_split first (first :: rest)) as S. rewrite Z0 in S.
  assert (E : Zsum (map Fill.qty (filter (sameSide first) (first :: rest)))
              = Zsum (map Fill.qty (filter (fun f => negb (sameSide first f)) (first :: rest))))
    by (destruct (isBuy first); lia).
  rewrite buildRoundTrip_eq in B. cbv zeta in B.
  apply (f_equal (fun o => match o with Some r => r | None => rt end)) in B.
  cbv beta iota in B. subst rt. cbn [RoundTrip.total_shares].
  rewrite (entryFills_sameSide first _ C), (exitFills_otherSide first _ C), !shares_Zsum.
  rewrite <- E, Z.max_id.
  split; [reflexivity|]. split; [reflexivity|].
  apply Zsum_qty_pos; [apply Forall_filter_keep, C|].
  simpl. unfold sameSide at 1. rewrite Bool.eqb_reflx. discriminate.
Qed.

(* ------------------------------------------------------------------------- *)
(** ** The groups of the first loop *)

Lemma map_has_get {V : Type} (k : string) (m : list (string * V)) :
  map_has k m = match map_get k m with Some _ => true | None => false end.
Proof.
  induction m as [|[k' v] m IH]; simpl; [reflexivity|].
  destruct (String.eqb k' k); [reflexivity | exact IH].
Qed.

Lemma map_get_update {T : Type} (k k' : string) (f : list T -> list T)
      (m : list (string * list T)) :
  map_get k (map_update k' f m)
  = if String.eqb k' k then option_map f (map_get k m) else map_get k m.
Proof.
  induction m as [|[k0 v] m IH]; simpl.
  - destruct (String.eqb k' k); reflexivity.
  - destruct (String.eqb k0 k') eqn:E0; simpl.
    + apply String.eqb_eq in E0. subst k0.
      destruct (String.eqb k' k); reflexivity.
    + destruct (String.eqb k0 k) eqn:E1; simpl.
      * apply String.eqb_eq in E1. subst k0.
        rewrite String.eqb_sym, E0. reflexivity.
      * exact IH.
Qed.

Lemma map_get_app {V : Type} (k : string) (m m' : list (string * V)) :
  map_get k (m ++ m') = match map_get k m with Some v => Some v | None => map_get k m' end.
Proof.
  induction m as [|[k0 v] m IH]; simpl; [reflexivity|].
  destruct (String.eqb k0 k); [reflexivity | exact IH].
Qed.

Lemma stored_push {T : Type} (k k' : string) (xs : list T) (m : list (string * list T)) :
  stored k (push k' xs m) = stored k m ++ (if String.eqb k' k then xs else []).
Proof.
  unfold stored. rewrite push_cases. destruct (map_has k' m) eqn:H.
  - rewrite map_get_update. destruct (String.eqb k' k) eqn:E.
    + apply String.eqb_eq in E. subst k'.
      rewrite map_has_get in H. destruct (map_get k m); [reflexivity | discriminate].
    + rewrite app_nil_r. reflexivity.
  - rewrite map_get_app. simpl. destruct (String.eqb k' k) eqn:E.
    + apply String.eqb_eq in E. subst k'.
      rewrite map_has_get in H. destruct (map_get k m); [discriminate | reflexivity].
    + destruct (map_get k m); [rewrite app_nil_r|]; reflexivity.
Qed.

Lemma stored_pushAll {E T : Type} (keyOf : E -> string) (valuesOf : E -> list T)
      (k : string) (l : list E) (m : list (string * list T)) :
  stored k (pushAll keyOf valuesOf l m)
  = stored k m ++ flat_map (fun e => if String.eqb (keyOf e) k then valuesOf e else []) l.
Proof.
  revert m. induction l as [|e l IH]; intro m; simpl.
  - rewrite app_nil_r. reflexivity.
  - rewrite IH, stored_push, <- app_assoc. reflexivity.
Qed.

Lemma map_has_existsb {V : Type} (k : string) (m : list (string * V)) :
  map_has k m = existsb (String.eqb k) (map fst m).
Proof.
  induction m as [|[k' v] m IH]; simpl; [reflexivity|].
  rewrite String.eqb_sym. destruct (String.eqb k k'); [reflexivity | exact IH].
Qed.

Lemma pushAll_keys {E T : Type} (keyOf : E -> string) (valuesOf : E -> list T)
      (l : list E) (m : list (string * list T)) :
  map fst (pushAll keyOf valuesOf l m)
  = fold_left (fun seen x => if existsb (String.eqb x) seen then seen else seen ++ [x])
              (map keyOf l) (map fst m).
Proof.
  revert m. induction l as [|e l IH]; intro m; simpl; [reflexivity|].
  rewrite IH, push_keys, map_has_existsb. reflexivity.
Qed.

Lemma stored_In {T : Type} (k : string) (v : list T) (m : list (string * list T)) :
  NoDup (map fst m) -> In (k, v) m -> stored k m = v.
Proof.
  unfold stored. induction m as [|[k' v'] m IH]; simpl; intros N H; [contradiction|].
  inversion N as [|? ? Nk Nm]; subst.
  destruct H as [H|H].
  - injection H as -> ->. rewrite String.eqb_refl. reflexivity.
  - destruct (String.eqb k' k) eqn:E; [|apply IH; assumption].
    apply String.eqb_eq in E. subst k'.
    exfalso. apply Nk. apply (in_map fst) in H. exact H.
Qed.

Lemma flat_map_singleton_filter {A : Type} (p : A -> bool) (l : list A) :
  flat_map (fun a => if p a then [a] else []) l = filter p l.
Proof.
  induction l as [|a l IH]; simpl; [reflexivity|].
  rewrite IH. destruct (p a); reflexivity.
Qed.

(** X5.  The first loop files every fill under the key made of its symbol
    and account: the keys are the distinct keys of the fills in order of
    first occurrence, and the group under a key is, in the same order, the
    list of all fills with that key; no group is empty. *)
Theorem groupFills_by_key (sorted : list Fill.t) :
  map fst (groupFills sorted) = unique (map groupKey sorted)
  /\ Forall (fun g : string * list Fill.t =>
               snd g = filter (fun f => String.eqb (groupKey f) (fst g)) sorted
               /\ snd g <> [])
            (groupFills sorted).
Proof.
  assert (K : map fst (groupFills sorted) = unique (map groupKey sorted)).
  { rewrite groupFills_pushAll, pushAll_keys. reflexivity. }
  split; [exact K|].
  apply Forall_forall. intros [k v] H. simpl.
  assert (V : v = filter (fun f => String.eqb (groupKey f) k) sorted).
  { rewrite <- (stored_In k v _ (groupFills_keys_NoDup sorted) H).
    rewrite groupFills_pushAll, stored_pushAll. simpl.
    apply flat_map_singleton_filter. }
  split; [exact V|].
  assert (I : In k (map groupKey sorted)).
  { apply unique_In. rewrite <- K. apply (in_map fst) in H. exact H. }
  apply in_map_iff in I. destruct I as [f [Ef If]].
  assert (F : In f v).
  { rewrite V. apply filter_In. split; [exact If|]. apply String.eqb_eq, Ef. }
  intro N. rewrite N in F. contradiction.
Qed.

(* ------------------------------------------------------------------------- *)
(** ** Carrying a property of the buffers to the emitted round trips *)

Lemma tracedAssignIds_Forall_segment (R : list Fill.t * bool -> Prop)
      (date symbol : string) (rts : list Traced) :
  Forall (fun tr : Traced => R (fst tr)) rts ->
  forall i, Forall (fun tr : Traced => R (fst tr)) (tracedAssignIds date symbol i rts).
Proof.
  intros H i. apply Forall_map. rewrite tracedAssignIds_segments.
  apply Forall_map. exact H.
Qed.

(** A property that holds of every buffer the inner loop closes, relative
    to the symbol of its group, holds of the buffer behind every emitted
    round trip, relative to the symbol the round trip was built with. *)
Lemma traced_invariant (R : string -> list Fill.t * bool -> Prop)
      (fills : list Fill.t) (date : string)
      (sourceDir : option (list string)) (trainingPrefix : option string) :
  Forall (fun g : string * list Fill.t =>
            Forall (R (keySymbol (fst g))) (closeSegments 0%Z [] (snd g)))
         (groupFills (sortFills fills)) ->
  Forall (fun tr : Traced =>
            exists symbol,
              builtFrom date sourceDir (defaulted trainingPrefix) symbol tr
              /\ R symbol (fst tr))
         (tracedRoundTrips fills date sourceDir trainingPrefix).
Proof.
  intro H. unfold tracedRoundTrips. cbv zeta. fold (defaulted trainingPrefix).
  apply (Permutation_Forall (Permutation_sym (js_sort_Permutation _ _))).
  assert (St : allStored (fun s (tr : Traced) =>
                            builtFrom date sourceDir (defaulted trainingPrefix) s tr
                            /\ R s (fst tr))
                         (tracedBySymbol date sourceDir (defaulted trainingPrefix)
                            (groupFills (sortFills fills)))).
  { rewrite tracedBySymbol_pushAll. apply pushAll_allStored; [constructor|].
    eapply Forall_impl; [|exact H]. intros g Hg.
    apply Forall_conj; [apply buildSegment_builtFrom|].
    apply Forall_map. rewrite tracedGroup_segments. exact Hg. }
  induction St as [|[k v] m Hv _ IH]; [constructor|].
  rewrite flat_map_cons_eq. apply Forall_app. split; [|exact IH].
  simpl in *.
  assert (Hs : Forall (fun tr : Traced =>
                         builtFrom date sourceDir (defaulted trainingPrefix) k tr
                         /\ R k (fst tr)) (js_sort tracedCompare v)).
  { apply (Permutation_Forall (Permutation_sym (js_sort_Permutation _ _))), Hv. }
  pose proof (tracedAssignIds_builtFrom date sourceDir (defaulted trainingPrefix) k _
                (Forall_impl _ (fun tr Htr => proj1 Htr) Hs) 0) as B.
  pose proof (tracedAssignIds_Forall_segment (R k) date k _
                (Forall_impl _ (fun tr Htr => proj2 Htr) Hs) 0) as S.
  eapply Forall_impl; [|exact (Forall_conj _ _ _ B S)].
  intros tr Htr. exists k. exact Htr.
Qed.

Lemma group_segments_Forall (P : Fill.t -> Prop) (R : list Fill.t * bool -> Prop)
      (groupFills : list Fill.t) :
  (forall seg : list Fill.t * bool, Forall P (fst seg) -> fst seg <> [] -> R seg) ->
  Forall P groupFills ->
  Forall R (closeSegments 0%Z [] groupFills).
Proof.
  intros H F.
  pose proof (closeSegments_Forall P groupFills 0%Z [] F) as S.
  pose proof (closeSegments_nonempty groupFills 0%Z []) as N.
  pose proof (Forall_conj _ _ _ S N) as SN.
  eapply Forall_impl; [|exact SN]. intros seg [Hs Hn]. apply H; assumption.
Qed.

(* ------------------------------------------------------------------------- *)
(** ** Sizes *)

Lemma length_concat_nonempty {A : Type} (ls : list (list A)) :
  Forall (fun l => l <> []) ls -> (List.length ls <= List.length (List.concat ls))%nat.
Proof.
  induction 1 as [|l ls N _ IH]; simpl; [lia|].
  rewrite length_app. destruct l; [congruence|]. simpl. lia.
Qed.

(** X6.  The reconstruction emits at most as many round trips as there are
    fills, and it emits none only when there are no fills. *)
Theorem round_trip_count (fills : list Fill.t) (date : string)
        (sourceDir : option (list string)) (trainingPrefix : option string) :
  let out := groupFillsIntoRoundTrips fills date sourceDir trainingPrefix in
  (List.length out <= List.length fills)%nat
  /\ (List.length out =? 0)%nat = (List.length fills =? 0)%nat.
Proof.
  cbv zeta. rewrite <- tracedRoundTrips_erase, length_map.
  pose proof (traced_fills fills date sourceDir trainingPrefix) as P.
  apply Permutation_length in P.
  assert (N : Forall (fun l : list Fill.t => l <> [])
                     (segmentFills (tracedRoundTrips fills date sourceDir trainingPrefix))).
  { unfold segmentFills. apply Forall_map.
    eapply Forall_impl; [|apply traced_builtFrom].
    intros tr [symbol B]. apply builtFrom_fields in B. apply B. }
  pose proof (length_concat_nonempty _ N) as L.
  unfold segmentFills in L at 1. rewrite length_map in L.
  split; [lia|].
  destruct (tracedRoundTrips fills date sourceDir trainingPrefix) as [|tr trs] eqn:E.
  - simpl in P. rewrite <- P. reflexivity.
  - simpl in L. simpl. destruct fills; [simpl in *; lia | reflexivity].
Qed.

(* ------------------------------------------------------------------------- *)
(** ** Entry and exit times *)

Lemma StronglySorted_filter {A : Type} (R : A -> A -> Prop) (p : A -> bool) (l : list A) :
  StronglySorted R l -> StronglySorted R (filter p l).
Proof.
  induction 1 as [|x l S IH F]; simpl; [constructor|].
  destruct (p x); [|exact IH].
  constructor; [exact IH | apply Forall_filter_keep, F].
Qed.

Lemma StronglySorted_app_inv {A : Type} (R : A -> A -> Prop) (l1 l2 : list A) :
  StronglySorted R (l1 ++ l2) -> StronglySorted R l1 /\ StronglySorted R l2.
Proof.
  induction l1 as [|x l1 IH]; simpl; intro H.
  - split; [constructor | exact H].
  - inversion H as [|? ? S F]; subst. destruct (IH S) as [S1 S2].
    split; [|exact S2]. constructor; [exact S1|].
    apply Forall_app in F. apply F.
Qed.

Lemma StronglySorted_concat_inv {A : Type} (R : A -> A -> Prop) (ls : list (list A)) :
  StronglySorted R (List.concat ls) -> Forall (StronglySorted R) ls.
Proof.
  induction ls as [|l ls IH]; simpl; intro H; constructor.
  - apply StronglySorted_app_inv in H. apply H.
  - apply IH. apply StronglySorted_app_inv in H. apply H.
Qed.

Lemma last_In {A : Type} (l : list A) (x : A) : l <> [] -> In (last l x) l.
Proof.
  induction l as [|y l IH]; [congruence|]. intros _.
  destruct l as [|z l]; [left; reflexivity|].
  right. apply IH. discriminate.
Qed.

Lemma last_cases {A : Type} (l : list A) (x : A) : last l x = x \/ In (last l x) l.
Proof.
  destruct l as [|y l]; [left; reflexivity|].
  right. apply last_In. discriminate.
Qed.

Lemma notLater_refl (t : string) : parsesTime t -> notLater t t.
Proof.
  unfold parsesTime, notLater. destruct (timeToMinutes t) as [x|]; [|congruence].
  intros _. exists x, x. repeat split. apply Qle_refl.
Qed.

Lemma group_chronological (fills : list Fill.t) :
  Forall (fun f => parsesTime (Fill.time f)) fills ->
  Forall (fun g : string * list Fill.t =>
            Forall (fun seg => chronological seg) (closeSegments 0%Z [] (snd g)))
         (groupFills (sortFills fills)).
Proof.
  intro P.
  assert (Ps : Forall (fun f => parsesTime (Fill.time f)) (sortFills fills))
    by (apply (Permutation_Forall (Permutation_sym (sortFills_Permutation fills))), P).
  assert (Ss : StronglySorted (inOrder Fill.time) (sortFills fills))
    by (apply js_sort_StronglySorted, P).
  destruct (groupFills_by_key (sortFills fills)) as [_ G].
  eapply Forall_impl; [|exact G]. intros [k v] [V _]. simpl in *.
  assert (Sv : StronglySorted (inOrder Fill.time) v)
    by (rewrite V; apply StronglySorted_filter, Ss).
  assert (Pv : Forall (fun f => parsesTime (Fill.time f)) v)
    by (rewrite V; apply Forall_filter_keep, Ps).
  pose proof (closeSegments_concat v 0%Z []) as C. simpl in C.
  rewrite <- C in Sv. clear C.
  apply StronglySorted_concat_inv in Sv. rewrite Forall_map in Sv.
  apply Forall_conj; [exact Sv|].
  apply closeSegments_Forall. exact Pv.
Qed.

(** X7.  When the times of the fills parse, every emitted round trip
    starts no later than it ends, and its duration is defined: a whole
    number of minutes, not negative, within half a minute of the time
    between the two. *)
Theorem round_trip_times (fills : list Fill.t) (date : string)
        (sourceDir : option (list string)) (trainingPrefix : option string) :
  Forall (fun f => parsesTime (Fill.time f)) fills ->
  Forall (fun rt =>
            exists e x d,
              timeToMinutes (RoundTrip.entry_time rt) = Some e
              /\ timeToMinutes (RoundTrip.exit_time rt) = Some x
              /\ (e <= x)%Q
              /\ RoundTrip.duration_mins rt = Some d
              /\ (0 <= d)%Z
              /\ (x - e - (1 # 2) <= inject_Z d)%Q
              /\ (inject_Z d <= x - e + (1 # 2))%Q)
         (groupFillsIntoRoundTrips fills date sourceDir trainingPrefix).
Proof.
  intro P. rewrite <- tracedRoundTrips_erase. apply Forall_map.
  pose proof (traced_invariant (fun _ seg => chronological seg) fills date sourceDir
                trainingPrefix (group_chronological fills P)) as T.
  eapply Forall_impl; [|exact T].
  intros [[buf closed] rt] [symbol [[idv [rt0 [B E]]] [S Pb]]]. simpl in *.
  subst rt. destruct buf as [|first rest]; [discriminate B|].
  rewrite buildRoundTrip_eq in B. cbv zeta in B.
  set (final := last (first :: rest) first) in *.
  apply (f_equal (fun o => match o with Some r => r | None => rt0 end)) in B.
  cbv beta iota in B. subst rt0.
  cbn [RoundTrip.with_id RoundTrip.entry_time RoundTrip.exit_time RoundTrip.duration_mins].
  assert (O : notLater (Fill.time first) (Fill.time final)).
  { inversion S as [|? ? _ F]; subst. inversion Pb as [|? ? Pf _]; subst.
    assert (I : In final (first :: rest)) by (apply last_In; discriminate).
    destruct I as [I|I].
    - rewrite <- I. apply notLater_refl, Pf.
    - rewrite Forall_forall in F. apply (F _ I). }
  destruct O as [e [x [He [Hx L]]]].
  exists e, x, (JsNumber.Math_round (x - e)). rewrite He, Hx. cbn [option_map].
  assert (Nn : (0 <= JsNumber.Math_round (x - e))%Z) by (apply Math_round_nonneg; lra).
  pose proof (Math_round_bounds (x - e)) as [Lo Up].
  repeat split; try assumption; try lra.
  rewrite Z.max_l by exact Nn. reflexivity.
Qed.

(* ------------------------------------------------------------------------- *)
(** ** One account per round trip *)

Lemma split_bar_append (s a : string) :
  hasBar s = false ->
  JsString.split "|" (s ++ "|" ++ a) = s :: JsString.split "|" a.
Proof.
  induction s as [|c s IH]; simpl; intro H; [reflexivity|].
  apply orb_false_iff in H. destruct H as [Hc Hs].
  specialize (IH Hs). simpl in IH. rewrite Hc, IH. reflexivity.
Qed.

Lemma keySymbol_groupKey (f : Fill.t) :
  hasBar (Fill.symbol f) = false -> keySymbol (groupKey f) = Fill.symbol f.
Proof.
  intro H. unfold keySymbol, groupKey. rewrite split_bar_append by exact H. reflexivity.
Qed.

Lemma append_cancel_l (s a b : string) : (s ++ a = s ++ b)%string -> a = b.
Proof.
  induction s as [|c s IH]; simpl; intro H; [exact H|].
  injection H as H. apply IH, H.
Qed.

Lemma groupKey_injective (f g : Fill.t) :
  hasBar (Fill.symbol f) = false -> hasBar (Fill.symbol g) = false ->
  groupKey f = groupKey g ->
  Fill.symbol f = Fill.symbol g /\ Fill.account f = Fill.account g.
Proof.
  intros Hf Hg E.
  assert (S : Fill.symbol f = Fill.symbol g).
  { rewrite <- (keySymbol_groupKey f Hf), <- (keySymbol_groupKey g Hg), E. reflexivity. }
  split; [exact S|].
  unfold groupKey in E. rewrite S in E.
  apply append_cancel_l in E. simpl in E. injection E as E. exact E.
Qed.

Lemma unique_constant (a : string) (l : list string) :
  l <> [] -> Forall (fun x => x = a) l -> unique l = [a].
Proof.
  intros N F. destruct l as [|x l]; [congruence|].
  inversion F as [|? ? -> Fl]; subst. unfold unique. simpl.
  clear N F. induction Fl as [|y l -> _ IH]; simpl; [reflexivity|].
  rewrite String.eqb_refl. simpl. exact IH.
Qed.

Lemma classify_single (trainingPrefix a : string) :
  classify trainingPrefix [a]
  = if JsString.startsWith a trainingPrefix then training else live.
Proof. unfold classify. simpl. destruct (JsString.startsWith a trainingPrefix); reflexivity. Qed.

Lemma group_singleAccount (fills : list Fill.t) :
  Forall (fun f => hasBar (Fill.symbol f) = false) fills ->
  Forall (fun g : string * list Fill.t =>
            Forall (singleAccount (keySymbol (fst g))) (closeSegments 0%Z [] (snd g)))
         (groupFills (sortFills fills)).
Proof.
  intro H.
  assert (Hs : Forall (fun f => hasBar (Fill.symbol f) = false) (sortFills fills))
    by (apply (Permutation_Forall (Permutation_sym (sortFills_Permutation fills))), H).
  pose proof (groupFills_allStored
                (fun key f => groupKey f = key /\ hasBar (Fill.symbol f) = false)
                (sortFills fills)) as G.
  eapply Forall_impl; [|apply G].
  - intros [k v] Hv. simpl in *.
    apply (group_segments_Forall (fun f => groupKey f = k /\ hasBar (Fill.symbol f) = false));
      [|exact Hv].
    intros [buf closed] Hb Nb. simpl in *. unfold singleAccount. simpl.
    destruct buf as [|f0 buf]; [congruence|].
    exists (Fill.account f0).
    inversion Hb as [|? ? [K0 B0] _]; subst.
    eapply Forall_impl; [|exact Hb]. intros f [Kf Bf]. cbv beta.
    destruct (groupKey_injective f f0 Bf B0 Kf) as [S A].
    split; [exact A|]. rewrite S. symmetry. apply keySymbol_groupKey, B0.
  - eapply Forall_impl; [|exact Hs]. intros f Hf. split; [reflexivity | exact Hf].
Qed.

(** X8.  When no symbol contains the separator of the group keys, the
    fills behind every emitted round trip come from a single account and
    carry the ticker of the round trip as their symbol; the round trip
    lists that one account, and it is classified training or live by the
    prefix test on it: the reconstruction never emits a mixed round
    trip. *)
Theorem one_account_per_round_trip (fills : list Fill.t) (date : string)
        (sourceDir : option (list string)) (trainingPrefix : option string) :
  Forall (fun f => hasBar (Fill.symbol f) = false) fills ->
  let traced := tracedRoundTrips fills date sourceDir trainingPrefix in
  map snd traced = groupFillsIntoRoundTrips fills date sourceDir trainingPrefix
  /\ Forall (fun tr : Traced =>
               exists a,
                 Forall (fun f => Fill.account f = a
                                  /\ Fill.symbol f = RoundTrip.ticker (snd tr))
                        (fst (fst tr))
                 /\ RoundTrip.accounts (snd tr) = [a]
                 /\ RoundTrip.account_type (snd tr)
                    = (if JsString.startsWith a
                            (if snd (fst tr) then defaulted trainingPrefix
                             else defaultTrainingPrefix)
                       then training else live)
                 /\ RoundTrip.account_type (snd tr) <> mixed)
            traced.
Proof.
  intro H. cbv zeta. split; [apply tracedRoundTrips_erase|].
  pose proof (traced_invariant singleAccount fills date sourceDir trainingPrefix
                (group_singleAccount fills H)) as T.
  eapply Forall_impl; [|exact T].
  intros tr [symbol [B [a A]]].
  apply builtFrom_fields in B.
  destruct B as [N [Tk [_ [_ [_ [_ [Ac Ty]]]]]]].
  exists a.
  assert (U : unique (map Fill.account (fst (fst tr))) = [a]).
  { apply unique_constant.
    - destruct (fst (fst tr)); [congruence | discriminate].
    - apply Forall_map. eapply Forall_impl; [|exact A]. intros f [Hf _]. exact Hf. }
  split; [rewrite Tk; exact A|].
  split; [rewrite Ac; exact U|].
  rewrite Ty, U, classify_single.
  split; [reflexivity|].
  destruct (JsString.startsWith a _); discriminate.
Qed.

(* ------------------------------------------------------------------------- *)
(** ** Uniqueness of the ids *)

Lemma string_of_uint_no_dash (d : Decimal.uint) :
  contains "-" (NilEmpty.string_of_uint d) = false.
Proof. induction d; simpl; try reflexivity; exact IHd. Qed.

Lemma string_of_nat_injective (n m : nat) : string_of_nat n = string_of_nat m -> n = m.
Proof.
  unfold string_of_nat. intro H.
  apply (f_equal NilEmpty.uint_of_string) in H.
  rewrite !NilEmpty.usu in H. injection H as H.
  apply (f_equal Nat.of_uint) in H.
  rewrite !DecimalNat.Unsigned.of_to in H. exact H.
Qed.

Lemma dash_decompose (s1 s2 n1 n2 : string) :
  contains "-" n1 = false -> contains "-" n2 = false ->
  (s1 ++ "-" ++ n1 = s2 ++ "-" ++ n2)%string -> s1 = s2 /\ n1 = n2.
Proof.
  intros H1 H2. revert s2. induction s1 as [|c s1 IH]; intros [|c' s2] E; simpl in E.
  - injection E as E. split; [reflexivity | exact E].
  - injection E as Ec E. subst c'. rewrite E in H1.
    exfalso. clear -H1. induction s2 as [|c s2 IH]; simpl in H1; [discriminate|].
    apply orb_false_iff in H1. apply IH, H1.
  - injection E as Ec E. subst c. rewrite <- E in H2.
    exfalso. clear -H2. induction s1 as [|c s1 IH]; simpl in H2; [discriminate|].
    apply orb_false_iff in H2. apply IH, H2.
  - injection E as Ec E. subst c'. destruct (IH _ E) as [-> ->]. split; reflexivity.
Qed.

Lemma idOf_injective (date s1 s2 : string) (n1 n2 : nat) :
  idOf date s1 n1 = idOf date s2 n2 -> s1 = s2 /\ n1 = n2.
Proof.
  unfold idOf. intro H. apply append_cancel_l in H. simpl in H. injection H as H.
  apply dash_decompose in H; try apply string_of_uint_no_dash.
  destruct H as [-> H]. split; [reflexivity | apply string_of_nat_injective, H].
Qed.

Lemma NoDup_map_injective {A B : Type} (f : A -> B) (l : list A) :
  (forall a b, f a = f b -> a = b) -> NoDup l -> NoDup (map f l).
Proof.
  intros I N. induction N as [|x l Nx _ IH]; simpl; constructor; [|exact IH].
  intro H. apply in_map_iff in H. destruct H as [y [E Hy]].
  apply I in E. subst y. contradiction.
Qed.

Lemma symbolBlock_ids (date k : string) (v : list RoundTrip.t) :
  map RoundTrip.id (symbolBlock date (k, v)) = map (idOf date k) (seq 1 (List.length v)).
Proof.
  unfold symbolBlock. simpl fst. simpl snd. rewrite assignIds_ids.
  rewrite (Permutation_length (js_sort_Permutation compareEntry v)). reflexivity.
Qed.

Lemma blocks_ids_NoDup (date : string) (m : list (string * list RoundTrip.t)) :
  NoDup (map fst m) ->
  NoDup (map RoundTrip.id (flat_map (symbolBlock date) m))
  /\ forall i, In i (map RoundTrip.id (flat_map (symbolBlock date) m)) ->
               exists k n, In k (map fst m) /\ i = idOf date k n.
Proof.
  induction m as [|[k v] m IH]; intro N.
  - split; [constructor | intros i []].
  - inversion N as [|? ? Nk Nm]; subst. destruct (IH Nm) as [D O].
    rewrite flat_map_cons_eq, map_app, symbolBlock_ids.
    split.
    + apply NoDup_app.
      * apply NoDup_map_injective; [|apply seq_NoDup].
        intros a b E. apply idOf_injective in E. apply E.
      * exact D.
      * intros i Hi Hi'. apply in_map_iff in Hi. destruct Hi as [n [<- _]].
        destruct (O _ Hi') as [k' [n' [Hk' E]]].
        apply idOf_injective in E. destruct E as [-> _]. apply Nk, Hk'.
    + intros i Hi. apply in_app_or in Hi. destruct Hi as [Hi|Hi].
      * apply in_map_iff in Hi. destruct Hi as [n [<- _]].
        exists k, n. split; [left; reflexivity | reflexivity].
      * destruct (O _ Hi) as [k' [n' [Hk' E]]].
        exists k', n'. split; [right; exact Hk' | exact E].
Qed.

(** X9.  No two round trips of one output carry the same id. *)
Theorem round_trip_ids_unique (fills : list Fill.t) (date : string)
        (sourceDir : option (list string)) (trainingPrefix : option string) :
  NoDup (map RoundTrip.id (groupFillsIntoRoundTrips fills date sourceDir trainingPrefix)).
Proof.
  unfold groupFillsIntoRoundTrips. cbv zeta.
  change (fun sr : string * list RoundTrip.t =>
            assignIds date (fst sr) 0 (js_sort compareEntry (snd sr)))
    with (symbolBlock date).
  eapply Permutation_NoDup.
  - apply Permutation_map, Permutation_sym, js_sort_Permutation.
  - apply blocks_ids_NoDup.
    rewrite collectBySymbol_pushAll. apply pushAll_keys_NoDup. constructor.
Qed.

(* ------------------------------------------------------------------------- *)
(** ** Independence of the order of the input *)

Lemma sorted_Permutation_unique {A : Type} (key : A -> string) (l : list A) :
  forall l',
    (forall a b, In a l -> In b l -> inOrder key a b -> inOrder key b a -> a = b) ->
    StronglySorted (inOrder key) l -> StronglySorted (inOrder key) l' ->
    Permutation l l' -> l = l'.
Proof.
  induction l as [|x l IH]; intros l' D S S' P.
  - apply Permutation_nil in P. symmetry. exact P.
  - destruct l' as [|x' l'];
      [apply Permutation_sym, Permutation_nil in P; discriminate|].
    inversion S as [|? ? Sl F]; subst. inversion S' as [|? ? Sl' F']; subst.
    assert (E : x = x').
    { assert (I : In x (x' :: l')) by (apply (Permutation_in _ P); left; reflexivity).
      assert (I' : In x' (x :: l))
        by (apply (Permutation_in _ (Permutation_sym P)); left; reflexivity).
      destruct I as [I|I]; [symmetry; exact I|].
      destruct I' as [I'|I']; [exact I'|].
      rewrite Forall_forall in F, F'.
      apply D; [left; reflexivity | right; exact I' | apply F, I' | apply F', I]. }
    subst x'. f_equal. apply IH; try assumption.
    + intros a b Ha Hb. apply D; right; assumption.
    + apply (Permutation_cons_inv P).
Qed.

Lemma sortFills_Permutation_eq (fills fills' : list Fill.t) :
  Permutation fills fills' ->
  Forall (fun f => parsesTime (Fill.time f)) fills ->
  distinctTimes fills ->
  sortFills fills' = sortFills fills.
Proof.
  intros P Pa D.
  assert (Pa' : Forall (fun f => parsesTime (Fill.time f)) fills')
    by (apply (Permutation_Forall P), Pa).
  symmetry. apply (sorted_Permutation_unique Fill.time).
  - intros a b Ha Hb [x [y [Hx [Hy L]]]] [y' [x' [Hy' [Hx' L']]]].
    rewrite Hx in Hx'. rewrite Hy in Hy'. injection Hx' as <-. injection Hy' as <-.
    apply (D a b x y); try assumption.
    + apply (Permutation_in _ (sortFills_Permutation fills)), Ha.
    + apply (Permutation_in _ (sortFills_Permutation fills)), Hb.
    + apply Qle_antisym; assumption.
  - apply js_sort_StronglySorted, Pa.
  - apply js_sort_StronglySorted, Pa'.
  - eapply Permutation_trans; [apply sortFills_Permutation|].
    eapply Permutation_trans; [exact P|].
    apply Permutation_sym, sortFills_Permutation.
Qed.

(** X10.  When the times of the fills parse and no two different fills
    read the same time of day, the reconstruction does not depend on the
    order in which the fills are given. *)
Theorem reconstruction_order_independent (fills fills' : list Fill.t) (date : string)
        (sourceDir : option (list string)) (trainingPrefix : option string) :
  Permutation fills fills' ->
  Forall (fun f => parsesTime (Fill.time f)) fills ->
  distinctTimes fills ->
  groupFillsIntoRoundTrips fills' date sourceDir trainingPrefix
  = groupFillsIntoRoundTrips fills date sourceDir trainingPrefix.
Proof.
  intros P Pa D. unfold groupFillsIntoRoundTrips. cbv zeta.
  fold (sortFills fills) (sortFills fills').
  rewrite (sortFills_Permutation_eq fills fills' P Pa D). reflexivity.
Qed.

(* ------------------------------------------------------------------------- *)
(** ** The summary of a reconstructed day *)

Lemma filter_filter_length {A : Type} (p q : A -> bool) (l : list A) :
  (List.length (filter p (filter q l)) + List.length (filter p (filter (fun a => negb (q a)) l))
   = List.length (filter p l))%nat.
Proof.
  induction l as [|a l IH]; simpl; [reflexivity|].
  destruct (q a); simpl; destruct (p a); simpl; lia.
Qed.

Lemma Qsum_filter_split {A : Type} (f : A -> Q) (q : A -> bool) (l : list A) :
  (Qsum (map f (filter q l)) + Qsum (map f (filter (fun a => negb (q a)) l))
   == Qsum (map f l))%Q.
Proof.
  induction l as [|a l IH]; simpl; [reflexivity|].
  destruct (q a); simpl; rewrite <- IH; ring.
Qed.

Lemma sumGrossPnl_Qsum (trades : list RoundTrip.t) :
  (sumGrossPnl trades == Qsum (map RoundTrip.pnl trades))%Q.
Proof. unfold sumGrossPnl. rewrite fold_left_Qplus. ring. Qed.

Lemma reconstructed_amounts (fills : list Fill.t) (date : string)
      (sourceDir : option (list string)) (trainingPrefix : option string) :
  Forall (fun rt => wholeCents (RoundTrip.net_pnl rt)
                    /\ wholeCents (RoundTrip.pnl rt)
                    /\ (RoundTrip.net_pnl rt == RoundTrip.pnl rt)%Q)
         (groupFillsIntoRoundTrips fills date sourceDir trainingPrefix).
Proof.
  rewrite <- tracedRoundTrips_erase. apply Forall_map.
  eapply Forall_impl; [|apply traced_builtFrom].
  intros tr [symbol B]. apply builtFrom_fields in B.
  destruct B as [_ [_ [_ [Pn [Nn _]]]]]. rewrite Pn, Nn.
  split; [apply round2_is_wholeCents|]. split; [apply round2_is_wholeCents|].
  apply round2_idempotent.
Qed.

Lemma wholeCents_sum_map {A : Type} (f : A -> Q) (l : list A) :
  Forall (fun a => wholeCents (f a)) l -> wholeCents (Qsum (map f l)).
Proof. intro H. apply wholeCents_Qsum, Forall_map, H. Qed.

(** X11.  In the summary of a reconstructed day the two buckets of the
    breakdown add up to the day: their trade counts to [total_trades],
    their winners and losers to [winners] and [losers], and their profits
    to [total_pnl], which equals [total_net_pnl] and is the exact sum of
    the net profits of the round trips. *)
Theorem summary_buckets_add_up (fills : list Fill.t) (date : string)
        (sourceDir : option (list string)) (trainingPrefix : option string) :
  let out := groupFillsIntoRoundTrips fills date sourceDir trainingPrefix in
  let s := ingestSummary out in
  let l := ByAccount.live (Summary.by_account s) in
  let t := ByAccount.training (Summary.by_account s) in
  (AccountBreakdown.trades l + AccountBreakdown.trades t = Summary.total_trades s)%nat
  /\ (AccountBreakdown.winners l + AccountBreakdown.winners t = Summary.winners s)%nat
  /\ (AccountBreakdown.losers l + AccountBreakdown.losers t = Summary.losers s)%nat
  /\ (AccountBreakdown.pnl l + AccountBreakdown.pnl t == Summary.total_pnl s)%Q
  /\ (Summary.total_net_pnl s == Summary.total_pnl s)%Q
  /\ (Summary.total_pnl s == Qsum (map RoundTrip.net_pnl out))%Q.
Proof.
  cbv zeta.
  set (out := groupFillsIntoRoundTrips fills date sourceDir trainingPrefix).
  pose proof (reconstructed_amounts fills date sourceDir trainingPrefix) as A.
  fold out in A.
  unfold ingestSummary, computeAccountBreakdown.
  cbn [Summary.by_account ByAccount.live ByAccount.training AccountBreakdown.trades
       AccountBreakdown.winners AccountBreakdown.losers AccountBreakdown.pnl
       Summary.total_trades Summary.winners Summary.losers Summary.total_pnl
       Summary.total_net_pnl].
  pose proof (live_mixed_Permutation out) as P.
  assert (Wn : Forall (fun rt => wholeCents (RoundTrip.net_pnl rt)) out)
    by (eapply Forall_impl; [|exact A]; intros rt H; apply H).
  assert (Wp : Forall (fun rt => wholeCents (RoundTrip.pnl rt)) out)
    by (eapply Forall_impl; [|exact A]; intros rt H; apply H).
  assert (T : (round2 (sumGrossPnl out) == Qsum (map RoundTrip.net_pnl out))%Q).
  { rewrite sumGrossPnl_Qsum.
    rewrite (round2_wholeCents _ (wholeCents_sum_map _ _ Wp)).
    apply Qsum_map_ext. eapply Forall_impl; [|exact A].
    intros rt [_ [_ E]]. symmetry. exact E. }
  split; [|split; [|split; [|split; [|split]]]].
  - rewrite (Permutation_length P). apply partition_by_training.
  - rewrite (filter_length_Permutation isWinner _ _ P).
    rewrite Nat.add_comm.
    apply (filter_filter_length isWinner (hasType training) out).
  - rewrite (filter_length_Permutation isLoser _ _ P).
    rewrite Nat.add_comm.
    apply (filter_filter_length isLoser (hasType training) out).
  - rewrite T, !sumNetPnl_Qsum.
    rewrite (Qsum_Permutation _ _ (Permutation_map RoundTrip.net_pnl P)).
    rewrite !round2_wholeCents
      by (apply wholeCents_sum_map, Forall_filter_keep, Wn).
    rewrite Qplus_comm. apply Qsum_filter_split.
  - apply round2_idempotent.
  - exact T.
Qed.

Lemma unique_NoDup_acc (xs seen : list string) :
  NoDup seen ->
  NoDup (fold_left (fun seen x => if existsb (String.eqb x) seen then seen else seen ++ [x])
                   xs seen).
Proof.
  revert seen. induction xs as [|x xs IH]; intros seen N; simpl; [exact N|].
  apply IH. destruct (existsb (String.eqb x) seen) eqn:E; [exact N|].
  apply NoDup_app; [exact N | constructor; [intros [] | constructor] |].
  intros a Ha [<-|[]].
  assert (X : existsb (String.eqb x) seen = true)
    by (apply existsb_exists; exists x; split; [exact Ha | apply String.eqb_refl]).
  congruence.
Qed.

Lemma unique_NoDup (xs : list string) : NoDup (unique xs).
Proof. apply unique_NoDup_acc. constructor. Qed.

(** X12.  The summary lists every traded ticker exactly once: [symbols]
    has no duplicates and holds the same tickers as the trades; the same
    goes for the accounts a built round trip lists. *)
Theorem summary_symbols_distinct (date : string) (trades : list RoundTrip.t)
        (fills : list Fill.t) :
  NoDup (Summary.symbols (buildSummaryFromTrades date trades))
  /\ incl (Summary.symbols (buildSummaryFromTrades date trades)) (map RoundTrip.ticker trades)
  /\ incl (map RoundTrip.ticker trades) (Summary.symbols (buildSummaryFromTrades date trades))
  /\ Summary.symbols (ingestSummary trades)
     = Summary.symbols (buildSummaryFromTrades date trades)
  /\ NoDup (unique (map Fill.account fills))
  /\ incl (unique (map Fill.account fills)) (map Fill.account fills)
  /\ incl (map Fill.account fills) (unique (map Fill.account fills)).
Proof.
  unfold buildSummaryFromTrades, ingestSummary. cbn [Summary.symbols].
  repeat split; try apply unique_NoDup; intros a Ha; apply unique_In; exact Ha.
Qed.

(* ------------------------------------------------------------------------- *)
(** ** The cross-check against the positions report *)

Lemma Qsum_close {A : Type} (f g : A -> Q) (l : list A) :
  Forall (fun a => - (1 # 200) <= f a - g a /\ f a - g a <= 1 # 200)%Q l ->
  (- (inject_Z (Z.of_nat (List.length l)) * (1 # 200))
   <= Qsum (map f l) - Qsum (map g l)
   /\ Qsum (map f l) - Qsum (map g l)
      <= inject_Z (Z.of_nat (List.length l)) * (1 # 200))%Q.
Proof.
  induction 1 as [|a l [L U] _ [IL IU]].
  - simpl. change (inject_Z 0) with 0%Q. split; lra.
  - cbn [List.length map Qsum]. rewrite Nat2Z.inj_succ. unfold Z.succ.
    rewrite inject_Z_plus. change (inject_Z 1) with 1%Q.
    set (n := inject_Z (Z.of_nat (List.length l))) in *.
    set (sf := Qsum (map f l)) in *. set (sg := Qsum (map g l)) in *.
    change (Qsum (f a :: map f l)) with (f a + sf)%Q.
    change (Qsum (g a :: map g l)) with (g a + sg)%Q.
    split; lra.
Qed.

Lemma reconstructed_total (fills : list Fill.t) (date : string)
      (sourceDir : option (list string)) (trainingPrefix : option string) :
  let out := groupFillsIntoRoundTrips fills date sourceDir trainingPrefix in
  (Summary.total_pnl (ingestSummary out) == Qsum (map RoundTrip.pnl out))%Q.
Proof.
  cbv zeta. unfold ingestSummary. cbn [Summary.total_pnl].
  rewrite sumGrossPnl_Qsum. apply round2_wholeCents, wholeCents_sum_map.
  eapply Forall_impl; [|apply reconstructed_amounts].
  intros rt H. apply H.
Qed.

Lemma reconstructed_total_bounds (fills : list Fill.t) (date : string)
      (sourceDir : option (list string)) (trainingPrefix : option string) :
  let out := groupFillsIntoRoundTrips fills date sourceDir trainingPrefix in
  let bound := (inject_Z (Z.of_nat (List.length out)) * (1 # 200))%Q in
  (- bound <= Summary.total_pnl (ingestSummary out) - Qsum (map Fill.pnl fills)
   /\ Summary.total_pnl (ingestSummary out) - Qsum (map Fill.pnl fills) <= bound)%Q.
Proof.
  cbv zeta. rewrite reconstructed_total.
  rewrite <- tracedRoundTrips_erase.
  set (trs := tracedRoundTrips fills date sourceDir trainingPrefix).
  assert (E : (Qsum (map Fill.pnl fills)
               == Qsum (map (fun tr : Traced => Qsum (map Fill.pnl (fst (fst tr)))) trs))%Q).
  { rewrite <- (Qsum_Permutation _ _
                  (Permutation_map Fill.pnl
                     (traced_fills fills date sourceDir trainingPrefix))).
    fold trs. rewrite <- Qsum_concat. unfold segmentFills. rewrite map_map.
    reflexivity. }
  rewrite E, !map_map, !length_map.
  apply (Qsum_close (fun tr : Traced => RoundTrip.pnl (snd tr))).
  eapply Forall_impl; [|apply traced_builtFrom].
  intros tr [symbol B]. apply builtFrom_fields in B.
  destruct B as [_ [_ [_ [Pn _]]]]. rewrite Pn, <- sumPnl_Qsum.
  pose proof (round2_bounds (sumPnl (fst (fst tr)))) as [L U]. split; lra.
Qed.

(** X13.  The total of a reconstructed day differs from the sum of the
    profits of its fills by no more than a cent per round trip (by half a
    cent, were the arithmetic exact).  So, for a day of at most 99 round
    trips whose positions report states the sum of the profits of the
    fills, the cross-check of [cmdIngest] prints no warning. *)
Theorem total_within_rounding_of_fills (fills : list Fill.t) (date : string)
        (sourceDir : option (list string)) (trainingPrefix : option string) :
  let out := groupFillsIntoRoundTrips fills date sourceDir trainingPrefix in
  let total := Summary.total_pnl (ingestSummary out) in
  (Qabs (total - Qsum (map Fill.pnl fills))
   <= inject_Z (Z.of_nat (List.length out)) * (1 # 100))%Q
  /\ ((List.length out <= 99)%nat ->
      discrepancyWarning (Qsum (map Fill.pnl fills)) total = false).
Proof.
  cbv zeta.
  pose proof (reconstructed_total_bounds fills date sourceDir trainingPrefix) as B.
  cbv zeta in B. destruct B as [L U].
  assert (N0 : (0 <= inject_Z (Z.of_nat
                  (List.length (groupFillsIntoRoundTrips fills date sourceDir trainingPrefix))))%Q).
  { change 0%Q with (inject_Z 0). rewrite <- Zle_Qle. lia. }
  split.
  - apply Qabs_Qle_condition. split; lra.
  - intro N. unfold discrepancyWarning. apply negb_false_iff, Qle_bool_iff.
    apply Qabs_Qle_condition.
    assert (M : (inject_Z (Z.of_nat
                   (List.length (groupFillsIntoRoundTrips fills date sourceDir trainingPrefix)))
                 <= 99)%Q).
    { change 99%Q with (inject_Z 99). rewrite <- Zle_Qle. lia. }
    split; lra.
Qed.

(* ------------------------------------------------------------------------- *)
(** ** Fields of the parsed fills *)

Lemma parseRow_fields (row : Row) (f : Fill.t) :
  parseRow row = Some f ->
  Fill.time f <> "" /\ Fill.symbol f <> "" /\ Fill.side f <> ""
  /\ trimmed row "Time" = Some (Fill.time f)
  /\ trimmed row "Symbol" = Some (Fill.symbol f)
  /\ trimmed row "Side" = Some (Fill.side f).
Proof.
  unfold parseRow. cbv zeta.
  destruct (JsNumber.parseFloat (row "Price")) as [price|]; [|discriminate].
  destruct (JsNumber.parseInt10 (row "Qty")) as [qty|]; [|discriminate].
  destruct (trimmed row "Time") as [[|c1 t1]|]; simpl; try discriminate.
  destruct (trimmed row "Symbol") as [[|c2 t2]|]; simpl; try discriminate.
  destruct (trimmed row "Side") as [[|c3 t3]|]; simpl; try discriminate.
  intro E. injection E as <-. simpl.
  repeat split; try reflexivity; discriminate.
Qed.

(** X14.  [parseFillsCsv] returns at most one fill per record, and no
    fill it returns has an empty time, symbol or side. *)
Theorem parsed_fills_have_time_symbol_side (records : list Row) :
  (List.length (parseFillsCsv records) <= List.length records)%nat
  /\ Forall (fun f => Fill.time f <> "" /\ Fill.symbol f <> "" /\ Fill.side f <> "")
            (parseFillsCsv records).
Proof.
  unfold parseFillsCsv. rewrite parseRows_acc. cbn [app].
  induction records as [|row rest [IL IF]]; [split; [simpl; lia | constructor]|].
  rewrite flat_map_cons_eq. destruct (parseRow row) as [f|] eqn:E; simpl.
  - split; [lia|]. constructor; [|exact IF].
    apply parseRow_fields in E. destruct E as [A [B [C _]]]. repeat split; assumption.
  - split; [lia | exact IF].
Qed.

(* ------------------------------------------------------------------------- *)
(** ** The chart of a symbol *)

Lemma lower_upper_ascii (c : ascii) :
  JsString.lower_ascii (upper_ascii c) = JsString.lower_ascii c.
Proof. destruct c as [[] [] [] [] [] [] [] []]; reflexivity. Qed.

Lemma lower_lower_ascii (c : ascii) :
  JsString.lower_ascii (JsString.lower_ascii c) = JsString.lower_ascii c.
Proof. destruct c as [[] [] [] [] [] [] [] []]; reflexivity. Qed.

Lemma toLowerCase_toUpperCase (s : string) :
  JsString.toLowerCase (toUpperCase s) = JsString.toLowerCase s.
Proof. induction s as [|c s IH]; simpl; [reflexivity|]. rewrite lower_upper_ascii, IH. reflexivity. Qed.

Lemma toLowerCase_idempotent (s : string) :
  JsString.toLowerCase (JsString.toLowerCase s) = JsString.toLowerCase s.
Proof. induction s as [|c s IH]; simpl; [reflexivity|]. rewrite lower_lower_ascii, IH. reflexivity. Qed.

Lemma chartMatch_nonempty (symbol f : string) : chartMatch symbol f = true -> f <> "".
Proof.
  intros H ->. unfold chartMatch in H. apply andb_true_iff in H.
  destruct H as [_ H]. discriminate H.
Qed.

Lemma findChartFile_find (symbol date : string) (files : list string) :
  findChartFile symbol date (Some files) = find (chartMatch symbol) files.
Proof.
  unfold findChartFile. fold (chartMatch symbol).
  destruct (find (chartMatch symbol) files) as [[|c r]|] eqn:E; try reflexivity.
  apply find_some in E. destruct E as [_ E]. apply chartMatch_nonempty in E.
  contradiction E. reflexivity.
Qed.

(** X15.  When the directory can be read, [findChartFile] returns the
    first file whose name begins with the symbol, letter case aside, and
    ends in .jpg, .jpeg or .png, and nothing when no file does; the date
    and the letter case of the symbol make no difference.  An unreadable
    directory gives nothing. *)
Theorem chart_is_first_matching_file (symbol date date' : string) (files : list string) :
  match findChartFile symbol date (Some files) with
  | Some f =>
      exists before after,
        files = before ++ f :: after
        /\ chartMatch symbol f = true
        /\ Forall (fun g => chartMatch symbol g = false) before
  | None => Forall (fun g => chartMatch symbol g = false) files
  end
  /\ findChartFile symbol date' (Some files) = findChartFile symbol date (Some files)
  /\ findChartFile (toUpperCase symbol) date (Some files)
     = findChartFile symbol date (Some files)
  /\ findChartFile (JsString.toLowerCase symbol) date (Some files)
     = findChartFile symbol date (Some files)
  /\ findChartFile symbol date None = None.
Proof.
  split; [|split; [|split; [|split]]]; try reflexivity.
  - rewrite findChartFile_find.
    induction files as [|g files IH]; simpl; [constructor|].
    destruct (chartMatch symbol g) eqn:E.
    + exists [], files. repeat split; [exact E | constructor].
    + destruct (find (chartMatch symbol) files) as [f|].
      * destruct IH as [before [after [F [M B]]]].
        exists (g :: before), after. rewrite F. repeat split; [exact M|].
        constructor; assumption.
      * constructor; assumption.
  - unfold findChartFile. rewrite toLowerCase_toUpperCase. reflexivity.
  - unfold findChartFile. rewrite toLowerCase_idempotent. reflexivity.
Qed.

(* ------------------------------------------------------------------------- *)
(** ** The positions report *)

Lemma parsePositionRows_acc (records : list Row) (positions : list PositionRow.t) :
  parsePositionRows records positions
  = positions ++ flat_map (fun row => maybe (parsePositionRow row)) records.
Proof.
  revert positions. induction records as [|row rest IH]; intro positions; simpl.
  - rewrite app_nil_r. reflexivity.
  - destruct (parsePositionRow row) as [p|]; rewrite IH; simpl.
    + rewrite <- app_assoc. reflexivity.
    + reflexivity.
Qed.

Lemma parsePositionRow_kept (row : Row) :
  match parsePositionRow row with
  | Some p =>
      isPositionRow row = true
      /\ PositionRow.symbol p = JsString.or_else (trimmed row "Symbol") ""
      /\ PositionRow.symbol p <> "" /\ PositionRow.symbol p <> "Summary"
  | None => isPositionRow row = false
  end.
Proof.
  unfold parsePositionRow, isPositionRow, isSummaryRow. cbv zeta.
  destruct (trimmed row "Symbol") as [[|c s]|]; try reflexivity.
  cbn [JsString.truthy JsString.or_else negb orb andb].
  destruct (String.eqb (String c s) "Summary") eqn:E; cbn [negb]; [reflexivity|].
  apply String.eqb_neq in E. cbn [PositionRow.symbol].
  repeat split; [discriminate | exact E].
Qed.

(** X16.  [parsePositionsCsv] keeps, in order, the records whose symbol
    cell is neither blank nor the word Summary, so no position is named
    Summary or has an empty symbol; [parsePositionsSummaryPnl] reads the
    realized amount of the first Summary record, 0 when that cell holds no
    number or when there is no such record. *)
Theorem positions_and_summary_row (records : list Row) :
  map PositionRow.symbol (parsePositionsCsv records)
  = map (fun row => JsString.or_else (trimmed row "Symbol") "") (filter isPositionRow records)
  /\ Forall (fun p => PositionRow.symbol p <> "" /\ PositionRow.symbol p <> "Summary")
            (parsePositionsCsv records)
  /\ parsePositionsSummaryPnl records
     = match find isSummaryRow records with
       | Some row => JsNumber.or_zero (JsNumber.parseFloat (row "Realized"))
       | None => 0%Q
       end
  /\ parsePositionsSummaryPnl (filter isPositionRow records) = 0%Q.
Proof.
  unfold parsePositionsCsv. rewrite parsePositionRows_acc. cbn [app].
  split; [|split; [|split]].
  - induction records as [|row rest IH]; [reflexivity|].
    rewrite flat_map_cons_eq, map_app, IH. cbn [filter].
    pose proof (parsePositionRow_kept row) as K.
    destruct (parsePositionRow row) as [p|].
    + destruct K as [K [S _]]. rewrite K. simpl. rewrite S. reflexivity.
    + rewrite K. reflexivity.
  - induction records as [|row rest IH]; [constructor|].
    rewrite flat_map_cons_eq. apply Forall_app. split; [|exact IH].
    pose proof (parsePositionRow_kept row) as K.
    destruct (parsePositionRow row) as [p|]; simpl; [|constructor].
    constructor; [|constructor]. split; apply K.
  - induction records as [|row rest IH]; [reflexivity|].
    simpl. destruct (isSummaryRow row); [reflexivity | exact IH].
  - induction records as [|row rest IH]; [reflexivity|].
    cbn [filter]. destruct (isPositionRow row) eqn:E; [|exact IH].
    cbn [parsePositionsSummaryPnl]. unfold isPositionRow in E.
    apply andb_true_iff in E. destruct E as [_ E]. apply negb_true_iff in E.
    rewrite E. exact IH.
Qed.

(* ------------------------------------------------------------------------- *)
(** ** Averages and profit factor *)

Lemma ofNat_pos (n : nat) : (0 < n)%nat -> (0 < ofNat n)%Q.
Proof.
  intro H. unfold ofNat. change 0%Q with (inject_Z 0). rewrite <- Zlt_Qlt. lia.
Qed.

Lemma averageNetPnl_nonneg (ts : list RoundTrip.t) :
  Forall (fun t => 0 <= RoundTrip.net_pnl t)%Q ts -> (0 <= averageNetPnl ts)%Q.
Proof.
  intro H. unfold averageNetPnl.
  destruct (0 <? List.length ts)%nat eqn:E; [|apply Qle_refl].
  apply Nat.ltb_lt in E. apply round2_nonneg.
  apply Qle_shift_div_l; [apply ofNat_pos, E|].
  rewrite Qmult_0_l, sumNetPnl_Qsum.
  clear E. induction H as [|t ts Ht _ IH]; simpl; [apply Qle_refl | lra].
Qed.

Lemma averageNetPnl_nonpos (ts : list RoundTrip.t) :
  Forall (fun t => RoundTrip.net_pnl t <= 0)%Q ts -> (averageNetPnl ts <= 0)%Q.
Proof.
  intro H. unfold averageNetPnl.
  destruct (0 <? List.length ts)%nat eqn:E; [|apply Qle_refl].
  apply Nat.ltb_lt in E. apply round2_nonpos.
  apply Qle_shift_div_r; [apply ofNat_pos, E|].
  rewrite Qmult_0_l, sumNetPnl_Qsum.
  clear E. induction H as [|t ts Ht _ IH]; simpl; [apply Qle_refl | lra].
Qed.

Lemma wholeCents_negative (q : Q) : wholeCents q -> (q < 0)%Q -> (q <= - (1 # 100))%Q.
Proof.
  intros [z Hz] N.
  assert (Z : (z <= -1)%Z).
  { assert (L : (inject_Z z < inject_Z 0)%Q).
    { change (inject_Z 0) with 0%Q.
      assert (E : (inject_Z z == q * 100)%Q) by (rewrite Hz; field).
      rewrite E. lra. }
    rewrite <- Zlt_Qlt in L. lia. }
  rewrite Zle_Qle in Z. change (inject_Z (-1)) with (-1)%Q in Z.
  rewrite Hz. unfold Qdiv. change (/ 100)%Q with (1 # 100)%Q. lra.
Qed.

Lemma averageNetPnl_cent (ts : list RoundTrip.t) :
  ts <> [] ->
  Forall (fun t => RoundTrip.net_pnl t <= - (1 # 100))%Q ts ->
  (averageNetPnl ts <= - (1 # 100))%Q.
Proof.
  intros N H. unfold averageNetPnl.
  assert (L : (0 < List.length ts)%nat) by (destruct ts; [congruence | simpl; lia]).
  rewrite (proj2 (Nat.ltb_lt _ _) L).
  assert (R : (round2 (- (1 # 100)) == - (1 # 100))%Q) by reflexivity.
  rewrite <- R. apply round2_monotone.
  apply Qle_shift_div_r; [apply ofNat_pos, L|].
  rewrite sumNetPnl_Qsum. unfold ofNat. clear N L R.
  induction H as [|t ts Ht _ IH].
  - simpl. change (inject_Z 0) with 0%Q. lra.
  - cbn [List.length map]. rewrite Nat2Z.inj_succ. unfold Z.succ.
    rewrite inject_Z_plus. change (inject_Z 1) with 1%Q.
    set (n := inject_Z (Z.of_nat (List.length ts))) in *.
    set (sm := Qsum (map RoundTrip.net_pnl ts)) in *.
    change (Qsum (RoundTrip.net_pnl t :: map RoundTrip.net_pnl ts))
      with (RoundTrip.net_pnl t + sm)%Q.
    lra.
Qed.

(** X17.  In the statistics of a period the winners are the trades with a
    positive net profit and the losers those with a negative one; the
    average win is never negative and the average loss never positive.
    When the net profits are whole cents, the profit factor is infinite
    (printed as not available) exactly when no trade of the period lost
    money. *)
Theorem profit_factor_infinite_iff_no_losers (allTrades : list RoundTrip.t) :
  Stats.winners (computeStats allTrades) = filter isWinner allTrades
  /\ Stats.losers (computeStats allTrades) = filter isLoser allTrades
  /\ (forall t, (isWinner t = true <-> (0 < RoundTrip.net_pnl t)%Q)
                /\ (isLoser t = true <-> (RoundTrip.net_pnl t < 0)%Q))
  /\ (0 <= Stats.avgWin (computeStats allTrades))%Q
  /\ (Stats.avgLoss (computeStats allTrades) <= 0)%Q
  /\ (Forall (fun t => wholeCents (RoundTrip.net_pnl t)) allTrades ->
      (Stats.profitFactor (computeStats allTrades) = None
       <-> Forall (fun t => (0 <= RoundTrip.net_pnl t)%Q) allTrades)).
Proof.
  unfold computeStats.
  cbn [Stats.avgWin Stats.avgLoss Stats.profitFactor Stats.losers Stats.winners].
  split; [reflexivity|]. split; [reflexivity|].
  split; [intro t; split; [apply isWinner_spec | apply isLoser_spec]|].
  split; [|split].
  - apply averageNetPnl_nonneg. apply Forall_forall. intros t Ht.
    apply filter_In in Ht. destruct Ht as [_ Ht]. apply isWinner_spec in Ht. lra.
  - apply averageNetPnl_nonpos. apply Forall_forall. intros t Ht.
    apply filter_In in Ht. destruct Ht as [_ Ht]. apply isLoser_spec in Ht. lra.
  - intro W. split.
    + intro H. apply Forall_forall. intros u Iu.
      destruct (Qlt_le_dec (RoundTrip.net_pnl u) 0) as [Neg|Pos]; [|exact Pos].
      exfalso.
      assert (Lu : In u (filter isLoser allTrades))
        by (apply filter_In; split; [exact Iu | apply isLoser_spec, Neg]).
      destruct (filter isLoser allTrades) as [|t ts] eqn:E; [destruct Lu|].
      assert (A : (averageNetPnl (t :: ts) <= - (1 # 100))%Q).
      { apply averageNetPnl_cent; [discriminate|]. rewrite <- E.
        apply Forall_forall. intros v Hv. apply filter_In in Hv.
        destruct Hv as [Iv Lv]. apply isLoser_spec in Lv.
        rewrite Forall_forall in W. apply wholeCents_negative; [apply W, Iv | exact Lv]. }
      destruct (Qle_bool (Qabs (averageNetPnl (t :: ts))) 0) eqn:B; [|discriminate H].
      apply Qle_bool_iff in B.
      rewrite Qabs_neg in B by lra. lra.
    + intro H.
      assert (E : filter isLoser allTrades = []).
      { apply filter_none. eapply Forall_impl; [|exact H].
        intros t Ht. destruct (isLoser t) eqn:L; [|reflexivity].
        apply isLoser_spec in L. cbv beta in Ht. lra. }
      rewrite E. reflexivity.
Qed.

(* ------------------------------------------------------------------------- *)
(** ** Breakdowns per symbol and per setup *)

Lemma map_get_set {V : Type} (k k' : string) (v : V) (m : list (string * V)) :
  map_get k (map_set k' v m) = if String.eqb k' k then Some v else map_get k m.
Proof.
  induction m as [|[k0 v0] m IH]; simpl.
  - destruct (String.eqb k' k); reflexivity.
  - destruct (String.eqb k0 k') eqn:E0; simpl.
    + apply String.eqb_eq in E0. subst k0.
      destruct (String.eqb k' k); reflexivity.
    + rewrite IH. destruct (String.eqb k0 k) eqn:E1; [|reflexivity].
      apply String.eqb_eq in E1. subst k0. rewrite String.eqb_sym, E0. reflexivity.
Qed.

Lemma map_set_keys {V : Type} (k : string) (v : V) (m : list (string * V)) :
  map fst (map_set k v m)
  = if existsb (String.eqb k) (map fst m) then map fst m else map fst m ++ [k].
Proof.
  induction m as [|[k0 v0] m IH]; simpl; [reflexivity|].
  rewrite (String.eqb_sym k k0).
  destruct (String.eqb k0 k); simpl; [reflexivity|].
  rewrite IH. destruct (existsb (String.eqb k) (map fst m)); reflexivity.
Qed.

Section Tallies.
Variable key : RoundTrip.t -> string.

Lemma tallyBy_fold (trades : list RoundTrip.t) :
  tallyBy key trades = fold_left (tallyStep key) trades [].
Proof. reflexivity. Qed.

Lemma tally_keys (trades : list RoundTrip.t) (m : list (string * Tally.t)) :
  map fst (fold_left (tallyStep key) trades m)
  = fold_left (fun seen x => if existsb (String.eqb x) seen then seen else seen ++ [x])
              (map key trades) (map fst m).
Proof.
  revert m. induction trades as [|t trades IH]; intro m; simpl; [reflexivity|].
  rewrite IH. unfold tallyStep. rewrite map_set_keys. reflexivity.
Qed.

Lemma tally_entry (k : string) (trades : list RoundTrip.t) (m : list (string * Tally.t)) :
  tallyOf k (fold_left (tallyStep key) trades m)
  = runTally (tallyOf k m) (filter (fun t => String.eqb (key t) k) trades).
Proof.
  revert m. induction trades as [|t trades IH]; intro m; simpl; [reflexivity|].
  rewrite IH. unfold tallyOf at 1. unfold tallyStep. rewrite map_get_set.
  destruct (String.eqb (key t) k) eqn:E; [|reflexivity].
  apply String.eqb_eq in E. subst k. reflexivity.
Qed.

Lemma tally_In (k : string) (e : Tally.t) (m : list (string * Tally.t)) :
  NoDup (map fst m) -> In (k, e) m -> tallyOf k m = e.
Proof.
  unfold tallyOf. induction m as [|[k0 e0] m IH]; intros N I; [destruct I|].
  inversion N as [|? ? Nk Nm]; subst. simpl.
  destruct I as [I|I].
  - injection I as -> ->. rewrite String.eqb_refl. reflexivity.
  - destruct (String.eqb k0 k) eqn:E; [|apply IH; assumption].
    apply String.eqb_eq in E. subst k0. exfalso. apply Nk.
    apply in_map_iff. exists (k, e). split; [reflexivity | exact I].
Qed.

Lemma tallyBy_entries (trades : list RoundTrip.t) :
  Forall (fun ke => snd ke
                    = runTally (Tally.mk 0 0)
                        (filter (fun t => String.eqb (key t) (fst ke)) trades))
         (tallyBy key trades).
Proof.
  apply Forall_forall. intros [k e] I. simpl.
  rewrite <- (tally_In k e (tallyBy key trades)); [|
    rewrite tallyBy_fold, tally_keys; apply unique_NoDup_acc; constructor | exact I].
  rewrite tallyBy_fold, tally_entry. reflexivity.
Qed.

End Tallies.

Lemma runTally_count (ts : list RoundTrip.t) :
  forall e, Tally.count (runTally e ts) = (Tally.count e + List.length ts)%nat.
Proof.
  unfold runTally. induction ts as [|t ts IH]; intro e; simpl; [lia|].
  rewrite IH. simpl. lia.
Qed.

Lemma runTally_pnl (ts : list RoundTrip.t) :
  Forall (fun t => wholeCents (RoundTrip.net_pnl t)) ts ->
  forall e, wholeCents (Tally.pnl e) ->
            (Tally.pnl (runTally e ts) == Tally.pnl e + Qsum (map RoundTrip.net_pnl ts))%Q.
Proof.
  unfold runTally. induction 1 as [|t ts Wt _ IH]; intros e We; simpl; [ring|].
  rewrite IH by (simpl; apply round2_is_wholeCents). simpl.
  rewrite round2_wholeCents by (apply wholeCents_plus; assumption). ring.
Qed.

Lemma tally_total_count (key : RoundTrip.t -> string) (trades : list RoundTrip.t)
      (ks : list string) :
  NoDup ks -> (forall t, In t trades -> In (key t) ks) ->
  list_sum (map (fun k => List.length (filter (fun t => String.eqb (key t) k) trades)) ks)
  = List.length trades.
Proof.
  intros N C. induction trades as [|t trades IH].
  - simpl. clear N C. induction ks; simpl; [reflexivity | assumption].
  - assert (IH' := IH (fun u Hu => C u (or_intror Hu))). clear IH.
    assert (I : In (key t) ks) by (apply C; left; reflexivity). clear C.
    cbn [filter List.length]. rewrite <- IH'. clear IH'.
    induction ks as [|k ks IHk]; [destruct I|].
    inversion N as [|? ? Nk Nks]; subst. cbn [map list_sum fold_right].
    unfold list_sum in IHk |- *. cbn [fold_right]. destruct (String.eqb (key t) k) eqn:E.
    + apply String.eqb_eq in E. subst k. cbn [List.length].
      assert (Z : forall ks', ~ In (key t) ks' ->
                  map (fun k => List.length
                         (if String.eqb (key t) k
                          then t :: filter (fun t0 => String.eqb (key t0) k) trades
                          else filter (fun t0 => String.eqb (key t0) k) trades)) ks'
                  = map (fun k => List.length
                                    (filter (fun t0 => String.eqb (key t0) k) trades)) ks').
      { intros ks' H. apply map_ext_in. intros k Hk.
        destruct (String.eqb (key t) k) eqn:E; [|reflexivity].
        apply String.eqb_eq in E. subst k. contradiction. }
      rewrite (Z ks Nk). lia.
    + destruct I as [I|I]; [subst k; rewrite String.eqb_refl in E; discriminate|].
      rewrite (IHk Nks I). lia.
Qed.

(** X18.  In the breakdown per symbol of [cmdStats] and in the breakdown
    per setup of [cmdReview], the keys are the distinct keys of the trades
    in order of first appearance, the count under a key is the number of
    trades with that key, and the counts add up to the number of trades.
    When the net profits are whole cents, the amount under a key is the
    exact sum of the net profits of its trades. *)
Theorem breakdown_counts_and_sums (trades : list RoundTrip.t) :
  map fst (bySymbol trades) = unique (map RoundTrip.ticker trades)
  /\ map fst (bySetup trades) = unique (map setupKey trades)
  /\ Forall (fun ke => Tally.count (snd ke) = countTicker (fst ke) trades) (bySymbol trades)
  /\ Forall (fun ke => Tally.count (snd ke)
                       = List.length (filter (fun t => String.eqb (setupKey t) (fst ke)) trades))
            (bySetup trades)
  /\ list_sum (map (fun ke => Tally.count (snd ke)) (bySymbol trades)) = List.length trades
  /\ list_sum (map (fun ke => Tally.count (snd ke)) (bySetup trades)) = List.length trades
  /\ (Forall (fun t => wholeCents (RoundTrip.net_pnl t)) trades ->
      Forall (fun ke =>
                (Tally.pnl (snd ke)
                 == Qsum (map RoundTrip.net_pnl
                            (filter (fun t => String.eqb (RoundTrip.ticker t) (fst ke)) trades)))%Q)
             (bySymbol trades)
      /\ Forall (fun ke =>
                   (Tally.pnl (snd ke)
                    == Qsum (map RoundTrip.net_pnl
                               (filter (fun t => String.eqb (setupKey t) (fst ke)) trades)))%Q)
                (bySetup trades)).
Proof.
  assert (K : forall key, map fst (tallyBy key trades) = unique (map key trades)).
  { intro key. rewrite tallyBy_fold, tally_keys. reflexivity. }
  assert (C : forall key,
             Forall (fun ke => Tally.count (snd ke)
                               = List.length (filter (fun t => String.eqb (key t) (fst ke)) trades))
                    (tallyBy key trades)).
  { intro key. eapply Forall_impl; [|apply tallyBy_entries].
    intros ke E. rewrite E, runTally_count. reflexivity. }
  assert (S : forall key,
             list_sum (map (fun ke => Tally.count (snd ke)) (tallyBy key trades))
             = List.length trades).
  { intro key.
    rewrite <- (tally_total_count key trades (map fst (tallyBy key trades))).
    - rewrite map_map. f_equal. apply map_ext_in. intros ke I.
      specialize (C key). rewrite Forall_forall in C. apply C, I.
    - rewrite K. apply unique_NoDup.
    - intros t I. rewrite K. apply unique_In, in_map, I. }
  assert (P : forall key,
             Forall (fun t => wholeCents (RoundTrip.net_pnl t)) trades ->
             Forall (fun ke =>
                       (Tally.pnl (snd ke)
                        == Qsum (map RoundTrip.net_pnl
                                   (filter (fun t => String.eqb (key t) (fst ke)) trades)))%Q)
                    (tallyBy key trades)).
  { intros key W. eapply Forall_impl; [|apply tallyBy_entries].
    intros ke E. rewrite E, runTally_pnl.
    - simpl. ring.
    - apply Forall_filter_keep, W.
    - apply wholeCents_0. }
  unfold bySymbol, bySetup, countTicker.
  split; [apply K|]. split; [apply K|]. split; [apply C|]. split; [apply C|].
  split; [apply S|]. split; [apply S|].
  intro W. split; apply P, W.
Qed.

(* ------------------------------------------------------------------------- *)
(** ** Best and worst trade *)

Lemma insert_descending (x : RoundTrip.t) (l : list RoundTrip.t) :
  StronglySorted notBetter l ->
  StronglySorted notBetter (insert_sorted byNetPnlDescending x l).
Proof.
  induction 1 as [|y l S IH F]; simpl; [repeat constructor|].
  unfold negative, byNetPnlDescending at 1.
  destruct (Qle_bool 0 (RoundTrip.net_pnl x - RoundTrip.net_pnl y)) eqn:E; simpl.
  - apply Qle_bool_iff in E. constructor; [constructor; assumption|].
    constructor; [unfold notBetter; lra|].
    eapply Forall_impl; [|exact F]. unfold notBetter. intros z Hz. lra.
  - assert (L : (RoundTrip.net_pnl x < RoundTrip.net_pnl y)%Q).
    { apply Qnot_le_lt. intro H. assert (T : Qle_bool 0 (RoundTrip.net_pnl x - RoundTrip.net_pnl y) = true)
        by (apply Qle_bool_iff; lra). congruence. }
    constructor; [exact IH|].
    apply (Permutation_Forall (Permutation_sym (insert_sorted_Permutation _ _ _))).
    constructor; [unfold notBetter; lra | exact F].
Qed.

Lemma sorted_descending (l : list RoundTrip.t) :
  StronglySorted notBetter (js_sort byNetPnlDescending l).
Proof.
  induction l as [|x l IH]; simpl; [constructor | apply insert_descending, IH].
Qed.

Lemma descending_last (l : list RoundTrip.t) :
  StronglySorted notBetter l ->
  forall d t, In t l -> notBetter t (last l d).
Proof.
  induction 1 as [|y l S IH F]; intros d t I; [destruct I|].
  destruct l as [|z l].
  - destruct I as [<-|[]]. simpl. unfold notBetter. apply Qle_refl.
  - change (last (y :: z :: l) d) with (last (z :: l) d).
    destruct I as [<-|I]; [|apply IH, I].
    rewrite Forall_forall in F. apply F, last_In. discriminate.
Qed.

(** X19.  The best trade [cmdReview] prints is a trade of the day with the
    largest net profit and the worst one a trade with the smallest; for a
    day without trades neither is printed. *)
Theorem best_and_worst_are_extremes (trades : list RoundTrip.t) :
  match bestAndWorst trades with
  | Some (best, worst) =>
      In best trades /\ In worst trades
      /\ Forall (fun t => (RoundTrip.net_pnl t <= RoundTrip.net_pnl best)%Q
                          /\ (RoundTrip.net_pnl worst <= RoundTrip.net_pnl t)%Q) trades
  | None => trades = []
  end.
Proof.
  unfold bestAndWorst. cbv zeta.
  pose proof (js_sort_Permutation byNetPnlDescending trades) as P.
  pose proof (sorted_descending trades) as S.
  destruct (js_sort byNetPnlDescending trades) as [|first rest] eqn:E.
  - apply Permutation_nil in P. exact P.
  - split; [apply (Permutation_in _ P); left; reflexivity|].
    split; [apply (Permutation_in _ P), last_In; discriminate|].
    apply (Permutation_Forall P). apply Forall_forall. intros t I. split.
    + inversion S as [|? ? _ F]; subst. destruct I as [<-|I]; [apply Qle_refl|].
      rewrite Forall_forall in F. apply F, I.
    + apply (descending_last _ S first t I).
Qed.

(* ------------------------------------------------------------------------- *)
(** ** Manual entry: profit and numbering *)

Lemma wholeCents_minus (a b : Q) : wholeCents a -> wholeCents b -> wholeCents (a - b)%Q.
Proof.
  intros [x Hx] [y Hy]. exists (x - y)%Z.
  rewrite Hx, Hy. unfold Z.sub. rewrite inject_Z_plus, inject_Z_opp. field.
Qed.

Lemma wholeCents_scale (a : Q) (n : Z) : wholeCents a -> wholeCents (a * inject_Z n)%Q.
Proof.
  intros [x Hx]. exists (x * n)%Z. rewrite Hx, inject_Z_mult. field.
Qed.

(** X20.  For entry and exit prices in whole cents, the profit [cmdLog]
    records for a manual trade is exact: the exit price less the entry
    price times the shares for a long trade, the opposite for a short one,
    so that a short trade earns what the same long trade loses.  Every
    side other than the word short is taken as long. *)
Theorem manual_profit_exact (date now : string) (trades : list RoundTrip.t)
        (ticker side : string) (entry exit : Q) (shares : Z) (setup notes : option string) :
  wholeCents entry -> wholeCents exit ->
  let t := manualTrade date now trades ticker side entry exit shares setup notes in
  (RoundTrip.net_pnl t
   == (if String.eqb side "short" then entry - exit else exit - entry) * inject_Z shares)%Q
  /\ (manualPnl "short" entry exit shares == - manualPnl "long" entry exit shares)%Q
  /\ (side <> "short" ->
      RoundTrip.side t = long
      /\ manualPnl side entry exit shares = manualPnl "long" entry exit shares).
Proof.
  intros We Wx. cbv zeta. unfold manualTrade. cbn [RoundTrip.net_pnl RoundTrip.side].
  assert (L : (round2 ((exit - entry) * inject_Z shares) == (exit - entry) * inject_Z shares)%Q)
    by (apply round2_wholeCents, wholeCents_scale, wholeCents_minus; assumption).
  assert (S : (round2 ((entry - exit) * inject_Z shares) == (entry - exit) * inject_Z shares)%Q)
    by (apply round2_wholeCents, wholeCents_scale, wholeCents_minus; assumption).
  split; [|split].
  - unfold manualPnl. destruct (String.eqb side "short"); assumption.
  - unfold manualPnl. cbn [String.eqb Ascii.eqb Bool.eqb andb].
    change (String.eqb "short" "short") with true.
    change (String.eqb "long" "short") with false. cbv iota.
    rewrite L, S. ring.
  - intro N. apply String.eqb_neq in N. unfold manualPnl. rewrite N.
    split; reflexivity.
Qed.

Lemma countTicker_app (k : string) (a b : list RoundTrip.t) :
  countTicker k (a ++ b) = (countTicker k a + countTicker k b)%nat.
Proof. unfold countTicker. rewrite filter_app, length_app. reflexivity. Qed.

Lemma countTicker_all (k : string) (l : list RoundTrip.t) :
  Forall (fun t => RoundTrip.ticker t = k) l -> countTicker k l = List.length l.
Proof.
  intro H. unfold countTicker. rewrite filter_all; [reflexivity|].
  eapply Forall_impl; [|exact H]. intros t E. apply String.eqb_eq, E.
Qed.

Lemma wellNumbered_Permutation (date : string) (l l' : list RoundTrip.t) :
  Permutation l l' -> wellNumbered date l -> wellNumbered date l'.
Proof.
  intros P W. unfold wellNumbered in *.
  apply (Permutation_Forall P). eapply Forall_impl; [|exact W].
  intros t [n [E B]]. exists n. split; [exact E|].
  unfold countTicker in *. rewrite <- (filter_length_Permutation _ _ _ P). exact B.
Qed.

Lemma assignIds_numbered (date k : string) (rts : list RoundTrip.t) :
  forall i,
    Forall (fun t => exists n, RoundTrip.id t = idOf date k n
                               /\ (i + 1 <= n <= i + List.length rts)%nat)
           (assignIds date k i rts).
Proof.
  induction rts as [|rt rts IH]; intro i; simpl; [constructor|].
  constructor.
  - exists (i + 1)%nat. split; [destruct rt; reflexivity | lia].
  - eapply Forall_impl; [|apply IH]. intros t [n [E B]]. exists n. split; [exact E | lia].
Qed.

Lemma closeRoundTrips_ticker (date symbol : string) (sourceDir : option (list string))
      (trainingPrefix : string) (groupFills : list Fill.t) :
  Forall (fun rt => RoundTrip.ticker rt = symbol)
         (closeRoundTrips date symbol sourceDir trainingPrefix 0%Z [] groupFills).
Proof.
  rewrite <- tracedGroup_erase. apply Forall_map. unfold tracedGroup.
  eapply Forall_impl; [|apply buildSegment_builtFrom].
  intros tr B. apply builtFrom_fields in B. apply B.
Qed.

Lemma collectBySymbol_ticker (date : string) (sourceDir : option (list string))
      (trainingPrefix : string) (groups : list (string * list Fill.t)) :
  allStored (fun k rt => RoundTrip.ticker rt = k)
            (collectBySymbol date sourceDir trainingPrefix groups).
Proof.
  rewrite collectBySymbol_pushAll. apply pushAll_allStored; [constructor|].
  apply Forall_forall. intros g _. apply closeRoundTrips_ticker.
Qed.

Lemma symbolBlock_ticker (date k : string) (v : list RoundTrip.t) :
  Forall (fun rt => RoundTrip.ticker rt = k) v ->
  Forall (fun rt => RoundTrip.ticker rt = k) (symbolBlock date (k, v)).
Proof.
  intro H. unfold symbolBlock. simpl fst. simpl snd.
  apply (Forall_map_eq (fun t => t = k) RoundTrip.ticker (js_sort compareEntry v)).
  - symmetry. apply assignIds_ticker.
  - apply (Permutation_Forall (Permutation_sym (js_sort_Permutation _ _))), H.
Qed.

Lemma blocks_wellNumbered (date : string) (m : list (string * list RoundTrip.t)) :
  allStored (fun k rt => RoundTrip.ticker rt = k) m ->
  wellNumbered date (flat_map (symbolBlock date) m).
Proof.
  intro A. unfold wellNumbered. apply Forall_forall. intros t I.
  apply in_flat_map in I. destruct I as [[k v] [Ikv It]].
  unfold allStored in A. rewrite Forall_forall in A.
  pose proof (symbolBlock_ticker date k v (A _ Ikv)) as T.
  assert (Tt : RoundTrip.ticker t = k) by (rewrite Forall_forall in T; apply T, It).
  pose proof (assignIds_numbered date k (js_sort compareEntry v) 0) as N.
  fold (symbolBlock date (k, v)) in N. rewrite Forall_forall in N.
  destruct (N t It) as [n [E B]]. exists n. rewrite Tt. split; [exact E|].
  apply in_split in Ikv. destruct Ikv as [m1 [m2 ->]].
  rewrite flat_map_app, flat_map_cons_eq, !countTicker_app, (countTicker_all k _ T).
  unfold symbolBlock at 2. simpl fst. simpl snd. rewrite assignIds_length. lia.
Qed.

Lemma reconstruction_wellNumbered (fills : list Fill.t) (date : string)
      (sourceDir : option (list string)) (trainingPrefix : option string) :
  wellNumbered date (groupFillsIntoRoundTrips fills date sourceDir trainingPrefix).
Proof.
  unfold groupFillsIntoRoundTrips. cbv zeta.
  change (fun sr : string * list RoundTrip.t =>
            assignIds date (fst sr) 0 (js_sort compareEntry (snd sr)))
    with (symbolBlock date).
  eapply wellNumbered_Permutation.
  - apply Permutation_sym, js_sort_Permutation.
  - apply blocks_wellNumbered, collectBySymbol_ticker.
Qed.

Lemma logTrade_fresh (date now : string) (trades : list RoundTrip.t)
      (ticker side : string) (entry exit : Q) (shares : Z) (setup notes : option string) :
  wellNumbered date trades ->
  ~ In (RoundTrip.id (manualTrade date now trades ticker side entry exit shares setup notes))
       (map RoundTrip.id trades).
Proof.
  intros W I. apply in_map_iff in I. destruct I as [t [E It]].
  unfold wellNumbered in W. rewrite Forall_forall in W.
  destruct (W t It) as [n [En B]]. rewrite En in E.
  unfold manualTrade in E. cbn [RoundTrip.id] in E.
  fold (countTicker (toUpperCase ticker) trades) in E.
  change (idOf date (RoundTrip.ticker t) n
          = idOf date (toUpperCase ticker) (countTicker (toUpperCase ticker) trades + 1)) in E.
  apply idOf_injective in E. destruct E as [Et En']. rewrite Et in B. lia.
Qed.

Lemma logTrade_wellNumbered (date now : string) (trades : list RoundTrip.t)
      (ticker side : string) (entry exit : Q) (shares : Z) (setup notes : option string) :
  wellNumbered date trades ->
  wellNumbered date (logTrade date now trades ticker side entry exit shares setup notes).
Proof.
  intro W. unfold logTrade, wellNumbered in *. apply Forall_app. split.
  - eapply Forall_impl; [|exact W]. intros t [n [E B]]. exists n. split; [exact E|].
    rewrite countTicker_app. lia.
  - constructor; [|constructor].
    exists (countTicker (toUpperCase ticker) trades + 1)%nat.
    split; [reflexivity|].
    change (RoundTrip.ticker
              (manualTrade date now trades ticker side entry exit shares setup notes))
      with (toUpperCase ticker).
    rewrite countTicker_app.
    assert (C : countTicker (toUpperCase ticker)
                  [manualTrade date now trades ticker side entry exit shares setup notes] = 1%nat).
    { unfold countTicker, manualTrade. cbn [filter RoundTrip.ticker].
      rewrite String.eqb_refl. reflexivity. }
    rewrite C. lia.
Qed.

(** X21.  The round trips of a reconstructed day are numbered per ticker:
    each id is the date, the ticker and a number between 1 and the number
    of round trips of that ticker.  On trades numbered this way, the
    trade [cmdLog] appends gets an id that no trade of the day has yet, so
    distinct ids stay distinct, and the trades stay numbered this way,
    whatever is logged next. *)
Theorem manual_trade_id_is_fresh (fills : list Fill.t) (date now : string)
        (sourceDir : option (list string)) (trainingPrefix : option string)
        (trades : list RoundTrip.t)
        (ticker side : string) (entry exit : Q) (shares : Z) (setup notes : option string) :
  wellNumbered date (groupFillsIntoRoundTrips fills date sourceDir trainingPrefix)
  /\ (wellNumbered date trades ->
      ~ In (RoundTrip.id (manualTrade date now trades ticker side entry exit shares setup notes))
           (map RoundTrip.id trades)
      /\ wellNumbered date
           (logTrade date now trades ticker side entry exit shares setup notes)
      /\ (NoDup (map RoundTrip.id trades) ->
          NoDup (map RoundTrip.id
                   (logTrade date now trades ticker side entry exit shares setup notes)))).
Proof.
  split; [apply reconstruction_wellNumbered|].
  intro W.
  assert (F := logTrade_fresh date now trades ticker side entry exit shares setup notes W).
  split; [exact F|]. split; [apply logTrade_wellNumbered, W|].
  intro N. unfold logTrade. rewrite map_app.
  apply NoDup_app; [exact N | repeat constructor; intros [] |].
  intros i Hi [<-|[]]. exact (F Hi).
Qed.

(* ------------------------------------------------------------------------- *)
(** ** Time-of-day windows *)

Lemma textLt_trans (a : string) :
  forall b c, textLt a b = true -> textLt b c = true -> textLt a c = true.
Proof.
  induction a as [|x a IH]; intros [|y b] [|z c] H1 H2; cbn [textLt] in *;
    try discriminate; try reflexivity.
  revert H1 H2.
  destruct (Nat.ltb_spec (nat_of_ascii x) (nat_of_ascii y)) as [L1|L1];
    destruct (Nat.ltb_spec (nat_of_ascii y) (nat_of_ascii z)) as [L2|L2];
    destruct (Nat.ltb_spec (nat_of_ascii x) (nat_of_ascii z)) as [L3|L3];
    destruct (Nat.eqb_spec (nat_of_ascii x) (nat_of_ascii y)) as [E1|E1];
    destruct (Nat.eqb_spec (nat_of_ascii y) (nat_of_ascii z)) as [E2|E2];
    destruct (Nat.eqb_spec (nat_of_ascii x) (nat_of_ascii z)) as [E3|E3];
    intros H1 H2; try lia; try discriminate; try reflexivity.
  apply (IH b c H1 H2).
Qed.

Lemma textLt_irrefl (a : string) : textLt a a = false.
Proof.
  induction a as [|x a IH]; cbn [textLt]; [reflexivity|].
  rewrite Nat.ltb_irrefl, Nat.eqb_refl. exact IH.
Qed.

(** X22.  The time-of-day window of [getStatsByTimeOfDay] is always one of
    the ten labels, and it follows the order of the entry times as text:
    a trade entered earlier never falls into a later window.  No text is
    smaller than itself and the order is transitive. *)
Theorem time_window_follows_entry_time (a b c : string) :
  In (timeBucket a) bucketLabels
  /\ (textLt a b = true -> textLt (timeBucket b) (timeBucket a) = false)
  /\ textLt a a = false
  /\ (textLt a b = true -> textLt b c = true -> textLt a c = true).
Proof.
  split; [|split; [|split]].
  - unfold timeBucket, bucketLabels. bucket_of a; simpl; tauto.
  - intro H. unfold timeBucket.
    repeat match goal with
           | |- context [if textLt b ?th then _ else _] =>
               let B := fresh "B" in
               destruct (textLt b th) eqn:B;
               [ rewrite ?(textLt_trans a b th H B) | ]; cbv iota
           end;
      bucket_of a; reflexivity.
  - apply textLt_irrefl.
  - apply textLt_trans.
Qed.

(* ------------------------------------------------------------------------- *)
(** ** Times written HH:MM:SS *)

Lemma split_no_separator (c : ascii) (p : string) :
  contains c p = false -> JsString.split c p = [p].
Proof.
  induction p as [|x p IH]; simpl; [reflexivity|]. intro H.
  apply orb_false_iff in H. destruct H as [Hx Hp].
  rewrite Hx, (IH Hp). reflexivity.
Qed.

Lemma split_at_separator (c : ascii) (p rest : string) :
  contains c p = false ->
  JsString.split c (p ++ String c rest) = p :: JsString.split c rest.
Proof.
  induction p as [|x p IH]; simpl; intro H.
  - rewrite Ascii.eqb_refl. reflexivity.
  - apply orb_false_iff in H. destruct H as [Hx Hp].
    rewrite Hx, (IH Hp). reflexivity.
Qed.

Lemma twoDigits_facts (n : nat) :
  (n < 100)%nat ->
  JsNumber.parseInt (Some (twoDigits n)) = Some (Z.of_nat n)
  /\ contains ":" (twoDigits n) = false.
Proof.
  intro H. do 100 (destruct n as [|n]; [split; reflexivity|]). lia.
Qed.

(** X23.  A time written HH:MM:SS, or HH:MM without seconds, is read by
    [timeToMinutes] as 60 H + M + S / 60 minutes, that is as the number of
    seconds since midnight divided by 60. *)
Theorem clock_time_in_minutes (h m s : nat) :
  (h < 100)%nat -> (m < 100)%nat -> (s < 100)%nat ->
  timeToMinutes (clock h m s)
  = Some (inject_Z (Z.of_nat h) * 60 + inject_Z (Z.of_nat m) + inject_Z (Z.of_nat s) / 60)%Q
  /\ timeToMinutes (twoDigits h ++ ":" ++ twoDigits m)%string
     = Some (inject_Z (Z.of_nat h) * 60 + inject_Z (Z.of_nat m) + inject_Z 0 / 60)%Q
  /\ (inject_Z (Z.of_nat h) * 60 + inject_Z (Z.of_nat m) + inject_Z (Z.of_nat s) / 60
      == ofNat (3600 * h + 60 * m + s) / 60)%Q.
Proof.
  intros Hh Hm Hs.
  destruct (twoDigits_facts h Hh) as [Ph Ch].
  destruct (twoDigits_facts m Hm) as [Pm Cm].
  destruct (twoDigits_facts s Hs) as [Ps Cs].
  split; [|split].
  - unfold timeToMinutes, clock. cbv zeta.
    change (":" ++ twoDigits m ++ ":" ++ twoDigits s)%string
      with (String ":" (twoDigits m ++ String ":" (twoDigits s))).
    rewrite (split_at_separator ":" _ _ Ch), (split_at_separator ":" _ _ Cm),
      (split_no_separator ":" _ Cs).
    cbn [nth_error].
    change (JsString.or_else (Some (twoDigits s)) "0") with (twoDigits s).
    rewrite Ph, Pm, Ps. reflexivity.
  - unfold timeToMinutes. cbv zeta.
    change (":" ++ twoDigits m)%string with (String ":" (twoDigits m)).
    rewrite (split_at_separator ":" _ _ Ch), (split_no_separator ":" _ Cm).
    cbn [nth_error JsString.or_else].
    rewrite Ph, Pm. reflexivity.
  - unfold ofNat. rewrite !Nat2Z.inj_add, !Nat2Z.inj_mul, !inject_Z_plus, !inject_Z_mult.
    change (inject_Z (Z.of_nat 3600)) with 3600%Q.
    change (inject_Z (Z.of_nat 60)) with 60%Q. field.
Qed.

(* ------------------------------------------------------------------------- *)
(** ** The summary after a manual entry *)

(** X24.  The summary [cmdLog] recomputes has no breakdown by account.  On
    trades whose net profit equals their gross profit, its other fields
    agree with those [buildSummaryFromTrades] computes; reconstructed
    round trips are such trades, and logging a manual trade keeps them
    so. *)
Theorem log_summary_agrees_with_rebuilt (date now : string) (trades : list RoundTrip.t)
        (fills : list Fill.t) (sourceDir : option (list string))
        (trainingPrefix : option string)
        (ticker side : string) (entry exit : Q) (shares : Z) (setup notes : option string) :
  Forall netIsGross (groupFillsIntoRoundTrips fills date sourceDir trainingPrefix)
  /\ (Forall netIsGross trades ->
      Forall netIsGross (logTrade date now trades ticker side entry exit shares setup notes)
      /\ (LogSummary.total_pnl (logSummary trades)
          == Summary.total_pnl (buildSummaryFromTrades date trades))%Q
      /\ (LogSummary.total_net_pnl (logSummary trades)
          == Summary.total_net_pnl (buildSummaryFromTrades date trades))%Q)
  /\ LogSummary.total_fees (logSummary trades)
     = Summary.total_fees (buildSummaryFromTrades date trades)
  /\ LogSummary.total_trades (logSummary trades)
     = Summary.total_trades (buildSummaryFromTrades date trades)
  /\ LogSummary.winners (logSummary trades)
     = Summary.winners (buildSummaryFromTrades date trades)
  /\ LogSummary.losers (logSummary trades)
     = Summary.losers (buildSummaryFromTrades date trades)
  /\ LogSummary.breakeven (logSummary trades)
     = Summary.breakeven (buildSummaryFromTrades date trades)
  /\ LogSummary.win_rate (logSummary trades)
     = Summary.win_rate (buildSummaryFromTrades date trades)
  /\ LogSummary.symbols (logSummary trades)
     = Summary.symbols (buildSummaryFromTrades date trades).
Proof.
  split; [|split; [|repeat split]].
  - eapply Forall_impl; [|apply reconstructed_amounts]. intros rt H. apply H.
  - intro H.
    assert (E : (round2 (sumNetPnl trades) == round2 (sumGrossPnl trades))%Q).
    { apply round2_comp. rewrite sumNetPnl_Qsum, sumGrossPnl_Qsum.
      apply Qsum_map_ext, H. }
    split; [|split].
    + unfold logTrade. apply Forall_app. split; [exact H|].
      constructor; [|constructor]. unfold netIsGross, manualTrade. simpl. reflexivity.
    + exact E.
    + unfold logSummary, buildSummaryFromTrades.
      cbn [LogSummary.total_net_pnl Summary.total_net_pnl].
      rewrite round2_idempotent. exact E.
Qed.

(* ------------------------------------------------------------------------- *)
(** ** Win rates *)

Lemma winRate_bounds (w n : nat) :
  (w <= n)%nat -> (0 <= winRate w n)%Q /\ (winRate w n <= 100)%Q.
Proof.
  intro H. unfold winRate. destruct (0 <? n)%nat eqn:E; [|split; [apply Qle_refl | discriminate]].
  apply Nat.ltb_lt in E.
  assert (Pn : (0 < ofNat n)%Q) by (apply ofNat_pos, E).
  assert (Pw : (0 <= ofNat w)%Q).
  { unfold ofNat. change 0%Q with (inject_Z 0). rewrite <- Zle_Qle. lia. }
  assert (Le : (ofNat w <= ofNat n)%Q) by (unfold ofNat; rewrite <- Zle_Qle; lia).
  assert (L : (0 <= ofNat w / ofNat n)%Q).
  { apply Qle_shift_div_l; [exact Pn | lra]. }
  assert (U : (ofNat w / ofNat n <= 1)%Q).
  { apply Qle_shift_div_r; [exact Pn | lra]. }
  split.
  - apply round2_nonneg. lra.
  - assert (R : (round2 100 == 100)%Q) by reflexivity.
    rewrite <- R at 2. apply round2_monotone. lra.
Qed.

(** X25.  Every win rate of a summary lies between 0 and 100: that of the
    day and those of the live and training buckets. *)
Theorem win_rates_between_0_and_100 (date : string) (trades : list RoundTrip.t) :
  let s := buildSummaryFromTrades date trades in
  let l := ByAccount.live (Summary.by_account s) in
  let t := ByAccount.training (Summary.by_account s) in
  (0 <= Summary.win_rate s <= 100)%Q
  /\ (0 <= AccountBreakdown.win_rate l <= 100)%Q
  /\ (0 <= AccountBreakdown.win_rate t <= 100)%Q
  /\ (0 <= LogSummary.win_rate (logSummary trades) <= 100)%Q.
Proof.
  cbv zeta. unfold buildSummaryFromTrades, computeAccountBreakdown, logSummary.
  cbn [Summary.win_rate Summary.by_account ByAccount.live ByAccount.training
       AccountBreakdown.win_rate LogSummary.win_rate].
  repeat split; apply winRate_bounds; apply filter_length_le.
Qed.

(* ------------------------------------------------------------------------- *)
(** ** Windows of times written HH:MM:SS *)

Lemma textLt_five (a1 a2 a3 a4 a5 b1 b2 b3 b4 b5 : ascii) (rest : string) :
  textLt (String a1 (String a2 (String a3 (String a4 (String a5 rest)))))
         (String b1 (String b2 (String b3 (String b4 (String b5 EmptyString)))))
  = textLt (String a1 (String a2 (String a3 (String a4 (String a5 EmptyString)))))
           (String b1 (String b2 (String b3 (String b4 (String b5 EmptyString))))).
Proof.
  cbn [textLt].
  repeat match goal with
         | |- context [(?x <? ?y)%nat] => destruct (x <? y)%nat
         | |- context [(?x =? ?y)%nat] => destruct (x =? y)%nat
         end; try reflexivity; destruct rest; reflexivity.
Qed.

Lemma timeBucket_five (a1 a2 a3 a4 a5 : ascii) (rest : string) :
  timeBucket (String a1 (String a2 (String a3 (String a4 (String a5 rest)))))
  = timeBucket (String a1 (String a2 (String a3 (String a4 (String a5 EmptyString))))).
Proof.
  unfold timeBucket.
  repeat match goal with
         | |- context [textLt (String a1 (String a2 (String a3 (String a4 (String a5 rest)))))
                              (String ?b1 (String ?b2 (String ?b3 (String ?b4
                                 (String ?b5 EmptyString)))))] =>
             rewrite (textLt_five a1 a2 a3 a4 a5 b1 b2 b3 b4 b5 rest)
         end.
  reflexivity.
Qed.

Lemma windows_checked :
  forallb (fun h =>
             forallb (fun m =>
                        String.eqb (timeBucket (twoDigits h ++ ":" ++ twoDigits m))
                                   (windowOf (60 * h + m)))
                     (seq 0 60))
          (seq 0 100) = true.
Proof. vm_compute. reflexivity. Qed.

Lemma textLt_first (x y : ascii) (a b : string) :
  (nat_of_ascii y < nat_of_ascii x)%nat -> textLt (String x a) (String y b) = false.
Proof.
  intro H. cbn [textLt].
  destruct (Nat.ltb_spec (nat_of_ascii x) (nat_of_ascii y)); [lia|].
  destruct (Nat.eqb_spec (nat_of_ascii x) (nat_of_ascii y)); [lia | reflexivity].
Qed.

(** X26.  For an entry time written HH:MM:SS with two digits each, the
    comparison as text of [getStatsByTimeOfDay] picks the window that
    contains the time: before 10:00 the first window, from 15:30 on the
    last.  An hour written with a single digit from 2 to 9 is not read as
    a morning hour: such a time falls into the last window. *)
Theorem window_of_clock_time (h m s d : nat) (rest : string) :
  ((h < 100)%nat -> (m < 60)%nat ->
   timeBucket (clock h m s) = windowOf (60 * h + m))
  /\ ((2 <= d <= 9)%nat ->
      timeBucket (String (digitChar d) (String ":" rest)) = "15:30-16:00").
Proof.
  split.
  - intros Hh Hm.
    change (clock h m s)
      with (String (digitChar (h / 10)) (String (digitChar (h mod 10))
              (String ":" (String (digitChar (m / 10)) (String (digitChar (m mod 10))
                 (String ":" (twoDigits s))))))).
    rewrite timeBucket_five.
    pose proof windows_checked as C. rewrite forallb_forall in C.
    assert (Ih : In h (seq 0 100)) by (apply in_seq; lia).
    specialize (C h Ih). rewrite forallb_forall in C.
    assert (Im : In m (seq 0 60)) by (apply in_seq; lia).
    specialize (C m Im). apply String.eqb_eq in C. exact C.
  - intros [L U]. unfold timeBucket.
    assert (F : forall th, textLt (String (digitChar d) (String ":" rest))
                                  (String "1" th) = false).
    { intro th. apply textLt_first.
      do 2 (destruct d as [|d]; [lia|]).
      do 8 (destruct d as [|d]; [vm_compute; lia|]). lia. }
    rewrite !F. reflexivity.
Qed.

(* ------------------------------------------------------------------------- *)
(** ** Where the exact reading and the program's arithmetic part

    The exact reading of the amounts agrees with the program on amounts
    in whole cents; at a tie between two cents, or between two minutes,
    the program's doubles can fall on the other side. *)

Example double_round2_at_ties :
  Double.round2 (Double.ofQ (15 # 1000)) = Double.ofQ (2 # 100)
  /\ (round2 (Double.toQ (Double.ofQ (15 # 1000))) == 1 # 100)%Q
  /\ Double.round2 (Double.parseFloat (Some "1.005")) = Double.ofQ 1
  /\ (round2 (1005 # 1000) == 101 # 100)%Q.
Proof. repeat split; vm_compute; reflexivity. Qed.

Example double_weighted_average_at_a_tie :
  Double.RoundTrip.entry_avg weightedTrip = Double.ofQ (1003 # 100)
  /\ (vwap [Fill.mk "09:30:00" "AAPL" "B" (1003 # 100) 100 "ARCA" "A1" "" 0 0;
            Fill.mk "09:31:00" "AAPL" "B" (1004 # 100) 100 "ARCA" "A1" "" 0 0]
      == 1004 # 100)%Q.
Proof. split; vm_compute; reflexivity. Qed.

Example double_duration_at_a_tie :
  option_map Double.RoundTrip.duration_mins
    (Double.buildRoundTrip halfMinuteFills "2026-02-10" "AAPL" None (Some "TR"))
  = Some (Double.ofZ 29)
  /\ option_map RoundTrip.duration_mins
       (buildRoundTrip halfMinuteFills "2026-02-10" "AAPL" None (Some "TR"))
     = Some (Some 30%Z).
Proof. split; vm_compute; reflexivity. Qed.

Example double_cross_check_at_the_threshold :
  Double.discrepancyWarning (Double.ofQ (6 # 10)) (Double.ofQ (11 # 10)) = true
  /\ discrepancyWarning (6 # 10) (11 # 10) = false.
Proof. split; vm_compute; reflexivity. Qed.

Example double_win_rate_at_a_tie :
  Double.winRate 23 160 = Double.ofQ (1437 # 100)
  /\ (winRate 23 160 == 1438 # 100)%Q.
Proof. split; vm_compute; reflexivity. Qed.

(* ------------------------------------------------------------------------- *)
(** ** The properties above on the sample data *)


Lemma built_round_trip_amounts_witness :
  buildRoundTrip [sampleEntry; sampleExit] "2026-02-10" "AAPL" None (Some "TR")
  = Some sampleTrip
  /\ (RoundTrip.net_pnl sampleTrip == RoundTrip.pnl sampleTrip)%Q
  /\ (0 <= RoundTrip.fees sampleTrip)%Q.
Proof.
  assert (B : buildRoundTrip [sampleEntry; sampleExit] "2026-02-10" "AAPL" None (Some "TR")
              = Some sampleTrip) by (vm_compute; reflexivity).
  split; [exact B|].
  destruct (built_round_trip_amounts [sampleEntry; sampleExit] "2026-02-10" "AAPL" None
              (Some "TR") sampleTrip B) as [N [F _]].
  split; [exact N | exact F].
Defined.

Lemma built_round_trip_duration_witness :
  buildRoundTrip [sampleEntry; sampleExit] "2026-02-10" "AAPL" None (Some "TR")
  = Some sampleTrip
  /\ forall d, RoundTrip.duration_mins sampleTrip = Some d -> (0 <= d)%Z.
Proof.
  assert (B : buildRoundTrip [sampleEntry; sampleExit] "2026-02-10" "AAPL" None (Some "TR")
              = Some sampleTrip) by (vm_compute; reflexivity).
  split; [exact B|].
  destruct (built_round_trip_duration sampleEntry [sampleExit] "2026-02-10" "AAPL" None
              (Some "TR") sampleTrip B) as [_ [D _]].
  exact D.
Defined.

Lemma closed_round_trip_shares_witness :
  Forall canonicalFill [sampleEntry; sampleExit]
  /\ signedTotal [sampleEntry; sampleExit] = 0%Z
  /\ buildRoundTrip [sampleEntry; sampleExit] "2026-02-10" "AAPL" None (Some "TR")
     = Some sampleTrip
  /\ (0 < RoundTrip.total_shares sampleTrip)%Z.
Proof.
  assert (C : Forall canonicalFill [sampleEntry; sampleExit]).
  { constructor; [split; [left; reflexivity | reflexivity]|].
    constructor; [split; [right; left; reflexivity | reflexivity]|].
    constructor. }
  assert (Z0 : signedTotal [sampleEntry; sampleExit] = 0%Z) by reflexivity.
  assert (B : buildRoundTrip [sampleEntry; sampleExit] "2026-02-10" "AAPL" None (Some "TR")
              = Some sampleTrip) by (vm_compute; reflexivity).
  split; [exact C|]. split; [exact Z0|]. split; [exact B|].
  destruct (closed_round_trip_shares sampleEntry [sampleExit] "2026-02-10" "AAPL" None
              (Some "TR") sampleTrip C Z0 B) as [_ [_ H]].
  exact H.
Defined.

Lemma round_trip_times_witness :
  Forall (fun f => parsesTime (Fill.time f)) sampleFills
  /\ Forall (fun rt =>
               exists e x d,
                 timeToMinutes (RoundTrip.entry_time rt) = Some e
                 /\ timeToMinutes (RoundTrip.exit_time rt) = Some x
                 /\ (e <= x)%Q
                 /\ RoundTrip.duration_mins rt = Some d
                 /\ (0 <= d)%Z
                 /\ (x - e - (1 # 2) <= inject_Z d)%Q
                 /\ (inject_Z d <= x - e + (1 # 2))%Q)
            (groupFillsIntoRoundTrips sampleFills "2026-02-10" None (Some "TR")).
Proof.
  assert (P : Forall (fun f => parsesTime (Fill.time f)) sampleFills).
  { repeat constructor; unfold parsesTime; vm_compute; discriminate. }
  split; [exact P|].
  exact (round_trip_times sampleFills "2026-02-10" None (Some "TR") P).
Defined.

Lemma one_account_per_round_trip_witness :
  Forall (fun f => hasBar (Fill.symbol f) = false) sampleFills
  /\ Forall (fun tr : Traced => RoundTrip.account_type (snd tr) <> mixed)
            (tracedRoundTrips sampleFills "2026-02-10" None (Some "TR")).
Proof.
  assert (H : Forall (fun f => hasBar (Fill.symbol f) = false) sampleFills)
    by (repeat constructor).
  split; [exact H|].
  destruct (one_account_per_round_trip sampleFills "2026-02-10" None (Some "TR") H)
    as [_ F].
  eapply Forall_impl; [|exact F].
  intros tr [a [_ [_ [_ M]]]]. exact M.
Defined.

Lemma reconstruction_order_independent_witness :
  Permutation sampleFills (rev sampleFills)
  /\ Forall (fun f => parsesTime (Fill.time f)) sampleFills
  /\ distinctTimes sampleFills
  /\ groupFillsIntoRoundTrips (rev sampleFills) "2026-02-10" None (Some "TR")
     = groupFillsIntoRoundTrips sampleFills "2026-02-10" None (Some "TR").
Proof.
  assert (R : Permutation sampleFills (rev sampleFills)) by apply Permutation_rev.
  assert (P : Forall (fun f => parsesTime (Fill.time f)) sampleFills).
  { repeat constructor; unfold parsesTime; vm_compute; discriminate. }
  assert (D : distinctTimes sampleFills).
  { intros a b x y [<-|[<-|[<-|[]]]] [<-|[<-|[<-|[]]]] Hx Hy E; try reflexivity;
      exfalso; vm_compute in Hx, Hy; injection Hx as <-; injection Hy as <-;
      vm_compute in E; discriminate E. }
  split; [exact R|]. split; [exact P|]. split; [exact D|].
  exact (reconstruction_order_independent sampleFills (rev sampleFills) "2026-02-10" None
           (Some "TR") R P D).
Defined.

Lemma total_within_rounding_of_fills_witness :
  (List.length (groupFillsIntoRoundTrips sampleFills "2026-02-10" None (Some "TR")) <= 99)%nat
  /\ discrepancyWarning (Qsum (map Fill.pnl sampleFills))
       (Summary.total_pnl
          (ingestSummary (groupFillsIntoRoundTrips sampleFills "2026-02-10" None (Some "TR"))))
     = false.
Proof.
  assert (N : (List.length (groupFillsIntoRoundTrips sampleFills "2026-02-10" None (Some "TR"))
               <= 99)%nat) by (vm_compute; lia).
  split; [exact N|].
  destruct (total_within_rounding_of_fills sampleFills "2026-02-10" None (Some "TR"))
    as [_ H].
  exact (H N).
Defined.

Lemma profit_factor_infinite_iff_no_losers_witness :
  Forall (fun t => wholeCents (RoundTrip.net_pnl t)) [liveTrade; mixedTrade; trainingTrade]
  /\ (Stats.profitFactor (computeStats [liveTrade; mixedTrade; trainingTrade]) = None
      <-> Forall (fun t => (0 <= RoundTrip.net_pnl t)%Q)
                 [liveTrade; mixedTrade; trainingTrade]).
Proof.
  assert (W : Forall (fun t => wholeCents (RoundTrip.net_pnl t))
                     [liveTrade; mixedTrade; trainingTrade]).
  { constructor; [exists (-5000)%Z; vm_compute; reflexivity|].
    constructor; [exists 10000%Z; vm_compute; reflexivity|].
    constructor; [exists 0%Z; vm_compute; reflexivity|].
    constructor. }
  split; [exact W|].
  destruct (profit_factor_infinite_iff_no_losers [liveTrade; mixedTrade; trainingTrade])
    as [_ [_ [_ [_ [_ H]]]]].
  exact (H W).
Defined.

Lemma breakdown_counts_and_sums_witness :
  Forall (fun t => wholeCents (RoundTrip.net_pnl t)) [liveTrade; mixedTrade; trainingTrade]
  /\ Forall (fun ke =>
               (Tally.pnl (snd ke)
                == Qsum (map RoundTrip.net_pnl
                           (filter (fun t => String.eqb (RoundTrip.ticker t) (fst ke))
                                   [liveTrade; mixedTrade; trainingTrade])))%Q)
            (bySymbol [liveTrade; mixedTrade; trainingTrade]).
Proof.
  assert (W : Forall (fun t => wholeCents (RoundTrip.net_pnl t))
                     [liveTrade; mixedTrade; trainingTrade]).
  { constructor; [exists (-5000)%Z; vm_compute; reflexivity|].
    constructor; [exists 10000%Z; vm_compute; reflexivity|].
    constructor; [exists 0%Z; vm_compute; reflexivity|].
    constructor. }
  split; [exact W|].
  destruct (breakdown_counts_and_sums [liveTrade; mixedTrade; trainingTrade])
    as [_ [_ [_ [_ [_ [_ H]]]]]].
  destruct (H W) as [S _]. exact S.
Defined.

Lemma manual_profit_exact_witness :
  wholeCents (1025 # 100) /\ wholeCents (11 # 1)
  /\ (RoundTrip.net_pnl
        (manualTrade "2026-02-10" "12:00:00" [liveTrade] "msft" "short"
           (1025 # 100) (11 # 1) 200 (Some "gap") None)
      == ((1025 # 100) - (11 # 1)) * inject_Z 200)%Q.
Proof.
  assert (We : wholeCents (1025 # 100)) by (exists 1025%Z; vm_compute; reflexivity).
  assert (Wx : wholeCents (11 # 1)) by (exists 1100%Z; vm_compute; reflexivity).
  split; [exact We|]. split; [exact Wx|].
  destruct (manual_profit_exact "2026-02-10" "12:00:00" [liveTrade] "msft" "short"
              (1025 # 100) (11 # 1) 200 (Some "gap") None We Wx) as [H _].
  exact H.
Defined.

Lemma manual_trade_id_is_fresh_witness :
  wellNumbered "2026-02-10" [liveTrade]
  /\ ~ In (RoundTrip.id (manualTrade "2026-02-10" "12:00:00" [liveTrade] "msft" "short"
                           (1025 # 100) (11 # 1) 200 (Some "gap") None))
          (map RoundTrip.id [liveTrade])
  /\ wellNumbered "2026-02-10"
       (logTrade "2026-02-10" "12:00:00" [liveTrade] "msft" "short"
          (1025 # 100) (11 # 1) 200 (Some "gap") None).
Proof.
  assert (W : wellNumbered "2026-02-10" [liveTrade]).
  { constructor; [|constructor]. exists 1%nat. split; [reflexivity | vm_compute; lia]. }
  split; [exact W|].
  destruct (manual_trade_id_is_fresh sampleFills "2026-02-10" "12:00:00" None (Some "TR")
              [liveTrade] "msft" "short" (1025 # 100) (11 # 1) 200 (Some "gap") None)
    as [_ H].
  destruct (H W) as [F [L _]]. split; [exact F | exact L].
Defined.

Lemma time_window_follows_entry_time_witness :
  textLt "09:45:00" "10:15:00" = true
  /\ textLt (timeBucket "10:15:00") (timeBucket "09:45:00") = false.
Proof.
  assert (H : textLt "09:45:00" "10:15:00" = true) by reflexivity.
  split; [exact H|].
  destruct (time_window_follows_entry_time "09:45:00" "10:15:00" "") as [_ [M _]].
  exact (M H).
Defined.

Lemma clock_time_in_minutes_witness :
  (9 < 100)%nat /\ (45 < 100)%nat /\ (30 < 100)%nat
  /\ timeToMinutes (clock 9 45 30)
     = Some (inject_Z (Z.of_nat 9) * 60 + inject_Z (Z.of_nat 45) + inject_Z (Z.of_nat 30) / 60)%Q.
Proof.
  assert (Hh : (9 < 100)%nat) by lia.
  assert (Hm : (45 < 100)%nat) by lia.
  assert (Hs : (30 < 100)%nat) by lia.
  split; [exact Hh|]. split; [exact Hm|]. split; [exact Hs|].
  destruct (clock_time_in_minutes 9 45 30 Hh Hm Hs) as [H _].
  exact H.
Defined.

Lemma log_summary_agrees_with_rebuilt_witness :
  Forall netIsGross [liveTrade; mixedTrade; trainingTrade]
  /\ (LogSummary.total_pnl (logSummary [liveTrade; mixedTrade; trainingTrade])
      == Summary.total_pnl
           (buildSummaryFromTrades "2026-02-10" [liveTrade; mixedTrade; trainingTrade]))%Q.
Proof.
  assert (G : Forall netIsGross [liveTrade; mixedTrade; trainingTrade]).
  { repeat constructor; unfold netIsGross; reflexivity. }
  split; [exact G|].
  destruct (log_summary_agrees_with_rebuilt "2026-02-10" "12:00:00"
              [liveTrade; mixedTrade; trainingTrade] sampleFills None (Some "TR")
              "msft" "short" (1025 # 100) (11 # 1) 200 (Some "gap") None)
    as [_ [H _]].
  destruct (H G) as [_ [E _]]. exact E.
Defined.

Lemma window_of_clock_time_witness :
  (9 < 100)%nat /\ (45 < 60)%nat
  /\ timeBucket (clock 9 45 30) = windowOf (60 * 9 + 45).
Proof.
  assert (Hh : (9 < 100)%nat) by lia.
  assert (Hm : (45 < 60)%nat) by lia.
  split; [exact Hh|]. split; [exact Hm|].
  destruct (window_of_clock_time 9 45 30 2 "") as [H _].
  exact (H Hh Hm).
Defined.
